(** * The Asl compiler of usoler/CL: symbols pass, type check and code generation

    A shallow embedding of the three tree visitors of the repository
    ([SymbolsVisitor], [TypeCheckVisitor], [CodeGenVisitor]) and of the
    shared objects they work on (types manager, symbol table, tree
    decoration, error sink, three-address code), followed by the
    properties proved about them.

    The repository keeps several snapshots of the same compiler:
    - [src/examen/asl]          : module [Examen];
    - [src/practica/asl] and [src/CL-lab/practica/asl] : module [Practica];
    - [src/examen-2022/asl]     : module [Examen2022] (symbols pass).

    Every visitor method is a function on the visitor's fields, written
    with the same local names as the C++ method.  A method that calls
    [visit(child)] takes the dispatching [visit] as its first argument;
    the recursive [visit] of each module closes the knot.  A method that
    can fail to return says so in its type: [option] in [Practica],
    [Outcome] in [Examen2022]. *)

From stdpp Require Import base option list strings gmap pretty.
From Stdlib Require Import ZArith Lia.

Set Warnings "-register-all".

Open Scope string_scope.
Open Scope list_scope.

(* ================================================================== *)
(** ** common/TypesMgr *)
(* ================================================================== *)

(** Modelled from the spec: the types manager ([common/TypesMgr.h] is not
    among the sources).  A [TypeId] is the structure it interns, so two
    ids are equal exactly when the structures are.  [TMatrix] is the
    matrix type [createMatrixTy] of the 2022 exam builds. *)
Inductive TypeId : Type :=
| TError
| TVoid
| TInteger
| TFloat
| TBoolean
| TCharacter
| TArray (size : nat) (elem : TypeId)
| TMatrix (rows cols : nat) (elem : TypeId)
| TFunction (params : list TypeId) (ret : TypeId).

Module TypesMgr.

Definition createErrorTy : TypeId := TError.
Definition createVoidTy : TypeId := TVoid.
Definition createIntegerTy : TypeId := TInteger.
Definition createFloatTy : TypeId := TFloat.
Definition createBooleanTy : TypeId := TBoolean.
Definition createCharacterTy : TypeId := TCharacter.
Definition createArrayTy (size : nat) (elem : TypeId) : TypeId := TArray size elem.
Definition createMatrixTy (rows cols : nat) (elem : TypeId) : TypeId :=
  TMatrix rows cols elem.
Definition createFunctionTy (params : list TypeId) (ret : TypeId) : TypeId :=
  TFunction params ret.

Definition isErrorTy (t : TypeId) : bool :=
  match t with TError => true | _ => false end.
Definition isVoidTy (t : TypeId) : bool :=
  match t with TVoid => true | _ => false end.
Definition isIntegerTy (t : TypeId) : bool :=
  match t with TInteger => true | _ => false end.
Definition isFloatTy (t : TypeId) : bool :=
  match t with TFloat => true | _ => false end.
Definition isBooleanTy (t : TypeId) : bool :=
  match t with TBoolean => true | _ => false end.
Definition isCharacterTy (t : TypeId) : bool :=
  match t with TCharacter => true | _ => false end.
Definition isArrayTy (t : TypeId) : bool :=
  match t with TArray _ _ => true | _ => false end.
Definition isFunctionTy (t : TypeId) : bool :=
  match t with TFunction _ _ => true | _ => false end.

(** "isPrimitive (any scalar)", "isNumeric (Integer or Float)". *)
Definition isPrimitiveTy (t : TypeId) : bool :=
  isIntegerTy t || isFloatTy t || isBooleanTy t || isCharacterTy t.
Definition isNumericTy (t : TypeId) : bool :=
  isIntegerTy t || isFloatTy t.

(** The accessors.  The spec gives them on the shape they belong to; on
    any other shape the model answers [TError] (a size: [0]). *)
Definition getArrayElemType (t : TypeId) : TypeId :=
  match t with TArray _ e => e | _ => TError end.
Definition getArraySize (t : TypeId) : nat :=
  match t with TArray n _ => n | _ => 0 end.
Definition getFuncReturnType (t : TypeId) : TypeId :=
  match t with TFunction _ r => r | _ => TError end.
Definition getNumOfParameters (t : TypeId) : nat :=
  match t with TFunction ps _ => length ps | _ => 0 end.
Definition getParameterType (t : TypeId) (i : nat) : TypeId :=
  match t with TFunction ps _ => nth i ps TError | _ => TError end.

Definition isVoidFunction (t : TypeId) : bool :=
  isFunctionTy t && isVoidTy (getFuncReturnType t).

(** "sizeOf(Array{n, e}) = n * sizeOf(e); sizeOf(scalar) = 1". *)
Fixpoint getSizeOfType (t : TypeId) : nat :=
  match t with
  | TArray n e => n * getSizeOfType e
  | TMatrix r c e => r * c * getSizeOfType e
  | _ => 1
  end.

(** Structural equality of type ids. *)
Fixpoint equalTypes (a b : TypeId) {struct a} : bool :=
  match a, b with
  | TError, TError | TVoid, TVoid | TInteger, TInteger | TFloat, TFloat
  | TBoolean, TBoolean | TCharacter, TCharacter => true
  | TArray n e, TArray m f => Nat.eqb n m && equalTypes e f
  | TMatrix r c e, TMatrix r' c' f =>
      Nat.eqb r r' && Nat.eqb c c' && equalTypes e f
  | TFunction ps r, TFunction qs s =>
      (fix all2 (l : list TypeId) (k : list TypeId) {struct l} : bool :=
         match l, k with
         | [], [] => true
         | x :: l', y :: k' => equalTypes x y && all2 l' k'
         | _, _ => false
         end) ps qs
      && equalTypes r s
  | _, _ => false
  end.

(** "copyable(dst, src) is true when dst == src, or both numeric and dst
    is Float (widening Int->Float), or both are arrays with equal element
    type and equal size"; and the coercion law of the testable
    properties: "copyable(_, Error) = copyable(Error, _) = true". *)
Definition copyableTypes (tidTo tidFrom : TypeId) : bool :=
  isErrorTy tidTo || isErrorTy tidFrom
  || equalTypes tidTo tidFrom
  || (isNumericTy tidTo && isNumericTy tidFrom && isFloatTy tidTo)
  || (isArrayTy tidTo && isArrayTy tidFrom
      && equalTypes (getArrayElemType tidTo) (getArrayElemType tidFrom)
      && Nat.eqb (getArraySize tidTo) (getArraySize tidFrom)).

(** "comparable(a, b, op): for ==/!=, both numeric, or equal non-error
    primitive, or both boolean/character of matching kind; for
    <, <=, >, >=, both numeric." *)
Definition comparableTypes (a b : TypeId) (op : string) : bool :=
  if String.eqb op "==" || String.eqb op "!=" then
    (isNumericTy a && isNumericTy b)
    || (isPrimitiveTy a && equalTypes a b)
    || (isBooleanTy a && isBooleanTy b)
    || (isCharacterTy a && isCharacterTy b)
  else
    isNumericTy a && isNumericTy b.

End TypesMgr.

(* ================================================================== *)
(** ** common/SymTable *)
(* ================================================================== *)

(** Modelled from the spec: the symbol table ([common/SymTable.h] is not
    among the sources).  Scopes have stable ids (their index in
    [scopes]); [stack] is the scope stack, innermost first. *)
Abbreviation ScopeId := nat.

Inductive SymClass := LocalVarClass | ParameterClass | FunctionClass.

Global Instance SymClass_eq_dec : EqDecision SymClass.
Proof. solve_decision. Defined.

Record SymInfo := { symClass : SymClass; symType : TypeId }.

Record Scope := { scopeName : string; scopeSyms : gmap string SymInfo }.

Record SymTable := { scopes : list Scope; stack : list ScopeId }.

Module SymTable.

(** The name given to the global scope (its text is not in the sources;
    no visitor reads it back). *)
Definition GLOBAL_SCOPE_NAME : string := "$global$".

Definition empty : SymTable := {| scopes := []; stack := [] |}.

Definition pushNewScope (name : string) (S : SymTable) : ScopeId * SymTable :=
  let sc := length (scopes S) in
  (sc, {| scopes := scopes S ++ [{| scopeName := name; scopeSyms := ∅ |}];
          stack := sc :: stack S |}).

Definition pushThisScope (sc : ScopeId) (S : SymTable) : SymTable :=
  {| scopes := scopes S; stack := sc :: stack S |}.

Definition popScope (S : SymTable) : SymTable :=
  {| scopes := scopes S; stack := tail (stack S) |}.

(** The symbols of scope [sc] (none when there is no such scope). *)
Definition symsOf (sc : ScopeId) (S : SymTable) : gmap string SymInfo :=
  match scopes S !! sc with Some s => scopeSyms s | None => ∅ end.

Definition lookupIn (sc : ScopeId) (ident : string) (S : SymTable) : option SymInfo :=
  symsOf sc S !! ident.

Definition addSymbol (cls : SymClass) (ident : string) (t : TypeId)
    (S : SymTable) : SymTable :=
  match stack S with
  | [] => S
  | sc :: _ =>
      match scopes S !! sc with
      | None => S
      | Some s =>
          {| scopes :=
               <[sc := {| scopeName := scopeName s;
                          scopeSyms := <[ident := {| symClass := cls; symType := t |}]>
                                         (scopeSyms s) |}]> (scopes S);
             stack := stack S |}
      end
  end.

Definition addLocalVar := addSymbol LocalVarClass.
Definition addParameter := addSymbol ParameterClass.
Definition addFunction := addSymbol FunctionClass.

Definition findInCurrentScope (ident : string) (S : SymTable) : bool :=
  match stack S with
  | [] => false
  | sc :: _ => bool_decide (is_Some (lookupIn sc ident S))
  end.

(** "lookup walks outward": the innermost scope of the stack that has
    the name. *)
Fixpoint findScope (ident : string) (S : SymTable) (st : list ScopeId) : option ScopeId :=
  match st with
  | [] => None
  | sc :: st' =>
      if bool_decide (is_Some (lookupIn sc ident S)) then Some sc
      else findScope ident S st'
  end.

(** "findInStack (returns scope id or -1)". *)
Definition findInStack (ident : string) (S : SymTable) : Z :=
  match findScope ident S (stack S) with
  | Some sc => Z.of_nat sc
  | None => (-1)%Z
  end.

Definition findSymbol (ident : string) (S : SymTable) : option SymInfo :=
  sc ← findScope ident S (stack S); lookupIn sc ident S.

(** The visitors ask for the type of a name only after [findInStack]
    found it; for an unknown name the model answers [TError]. *)
Definition getType (ident : string) (S : SymTable) : TypeId :=
  match findSymbol ident S with Some i => symType i | None => TError end.

Definition isClass (c : SymClass) (ident : string) (S : SymTable) : bool :=
  match findSymbol ident S with
  | Some i => bool_decide (symClass i = c)
  | None => false
  end.

Definition isLocalVarClass := isClass LocalVarClass.
Definition isParameterClass := isClass ParameterClass.
Definition isFunctionClass := isClass FunctionClass.

(** "noMainProperlyDeclared holds when no global symbol named main exists
    with function type () -> void"; the global scope is the bottom of the
    stack. *)
Definition noMainProperlyDeclared (S : SymTable) : bool :=
  match last (stack S) with
  | None => true
  | Some g =>
      match lookupIn g "main" S with
      | Some {| symClass := FunctionClass; symType := TFunction [] TVoid |} => false
      | _ => true
      end
  end.

End SymTable.

(* ================================================================== *)
(** ** common/TreeDecoration *)
(* ================================================================== *)

(** A node of the parse tree, by identity (the C++ code passes
    [antlr4::ParserRuleContext *]). *)
Abbreviation Node := nat.

(** Modelled from the spec: the tree decoration ([common/TreeDecoration.h]
    is not among the sources): an attribute table keyed by node identity,
    holding a scope, a type and an l-value flag.  The table is a total
    lookup: for a node that no pass has decorated it answers whatever the
    table held on entry, and the theorems quantify over that table. *)
Record TreeDecoration := {
  getScope : Node → ScopeId;
  getType : Node → TypeId;
  getIsLValue : Node → bool
}.

Module TreeDecoration.

Definition upd {A} (f : Node → A) (ctx : Node) (a : A) : Node → A :=
  λ n, if Nat.eqb n ctx then a else f n.

Definition putScope (ctx : Node) (s : ScopeId) (D : TreeDecoration) : TreeDecoration :=
  {| getScope := upd (getScope D) ctx s;
     getType := getType D;
     getIsLValue := getIsLValue D |}.

Definition putType (ctx : Node) (t : TypeId) (D : TreeDecoration) : TreeDecoration :=
  {| getScope := getScope D;
     getType := upd (getType D) ctx t;
     getIsLValue := getIsLValue D |}.

Definition putIsLValue (ctx : Node) (b : bool) (D : TreeDecoration) : TreeDecoration :=
  {| getScope := getScope D;
     getType := getType D;
     getIsLValue := upd (getIsLValue D) ctx b |}.

(** A table to start from in examples. *)
Definition blank : TreeDecoration :=
  {| getScope := λ _, 0; getType := λ _, TError; getIsLValue := λ _, false |}.

End TreeDecoration.

(* ================================================================== *)
(** ** common/SemErrors *)
(* ================================================================== *)

(** Where an error is reported: a node, or one of the tokens of a node
    ([ctx->ASSIGN()], [ctx->RETURN()], [ctx->op], [ctx->ID()],
    [ctx->ID(i)]). *)
Inductive Token := tASSIGN | tRETURN | tOP | tID | tIDi (i : nat).

Inductive Place := AtNode (ctx : Node) | AtToken (ctx : Node) (tk : Token).

(** The taxonomy of the spec.  [IncompatibleParameter] carries the
    position of the argument and the node of the call. *)
Inductive ErrorKind :=
| DeclaredIdent
| UndeclaredIdent
| IncompatibleAssignment
| IncompatibleReturn
| BooleanRequired
| ReadWriteRequireBasic
| NonReferenceableLeftExpr
| NonReferenceableExpression
| IsNotCallable
| IsNotFunction
| NumberOfParameters
| IncompatibleParameter (n : nat) (call : Node)
| IncompatibleOperator
| NonArrayInArrayAccess
| NonIntegerIndexInArrayAccess
| NoMainProperlyDeclared
| IncompatibleMapOperands.

Record ErrorInfo := { errKind : ErrorKind; errPlace : Place }.

(** Modelled from the spec: the error sink ([common/SemErrors.h] is not
    among the sources), "an error sink that accepts a kind + a source
    location"; "errors are collected in insertion order".  The model is
    the sequence of calls a visitor makes to the sink, oldest first; what
    the sink does with them when it prints is not part of a visitor. *)
Definition SemErrors := list ErrorInfo.

Module SemErrors.

Definition report (k : ErrorKind) (p : Place) (E : SemErrors) : SemErrors :=
  E ++ [{| errKind := k; errPlace := p |}].

Definition declaredIdent := report DeclaredIdent.
Definition undeclaredIdent := report UndeclaredIdent.
Definition incompatibleAssignment := report IncompatibleAssignment.
Definition incompatibleReturn := report IncompatibleReturn.
Definition booleanRequired := report BooleanRequired.
Definition readWriteRequireBasic := report ReadWriteRequireBasic.
Definition nonReferenceableLeftExpr := report NonReferenceableLeftExpr.
Definition nonReferenceableExpression := report NonReferenceableExpression.
Definition isNotCallable := report IsNotCallable.
Definition isNotFunction := report IsNotFunction.
Definition numberOfParameters := report NumberOfParameters.
Definition incompatibleParameter (p : Place) (n : nat) (call : Node) :=
  report (IncompatibleParameter n call) p.
Definition incompatibleOperator := report IncompatibleOperator.
Definition nonArrayInArrayAccess := report NonArrayInArrayAccess.
Definition nonIntegerIndexInArrayAccess := report NonIntegerIndexInArrayAccess.
Definition noMainProperlyDeclared := report NoMainProperlyDeclared.

End SemErrors.

(* ================================================================== *)
(** ** common/code *)
(* ================================================================== *)

(** Modelled from the spec: the three-address code ([common/code.h] is
    not among the sources).  One constructor per mnemonic of the
    instruction schema; [PUSH] and [POP] with and without operand are
    told apart. *)
Module instruction.

Inductive t : Type :=
| ILOAD (d src : string)
| FLOAD (d src : string)
| CHLOAD (d c : string)
| LOAD (d src : string)
| FLOAT (d src : string)
| ALOAD (d arr : string)
| LOADX (d base offs : string)
| XLOAD (base offs src : string)
| ADD (d a b : string) | SUB (d a b : string)
| MUL (d a b : string) | DIV (d a b : string)
| FADD (d a b : string) | FSUB (d a b : string)
| FMUL (d a b : string) | FDIV (d a b : string)
| NEG (d a : string) | FNEG (d a : string)
| EQ (d a b : string) | LT (d a b : string) | LE (d a b : string)
| FEQ (d a b : string) | FLT (d a b : string) | FLE (d a b : string)
| AND (d a b : string) | OR (d a b : string) | NOT (d a : string)
| PUSH0 | PUSH (src : string)
| POP0 | POP (d : string)
| CALL (name : string)
| RETURN
| LABEL (l : string) | UJUMP (l : string) | FJUMP (c l : string)
| READI (d : string) | READF (d : string) | READC (d : string)
| WRITEI (s : string) | WRITEF (s : string) | WRITEC (s : string)
| WRITES (s : string)
| HALT (code : string).

End instruction.

(** [instructionList] with [||] as concatenation. *)
Definition instructionList := list instruction.t.

(** A variable or parameter of a subroutine: name, type tag, size. *)
Record var := { var_name : string; var_type : string; var_nelem : nat }.

Record param := { param_name : string; param_type : string; param_isArray : bool }.

Record subroutine := {
  subr_name : string;
  subr_params : list param;
  subr_vars : list var;
  subr_instructions : instructionList
}.

Module subroutine.

Definition new (name : string) : subroutine :=
  {| subr_name := name; subr_params := []; subr_vars := []; subr_instructions := [] |}.

Definition add_param (name type : string) (isArray : bool) (s : subroutine) : subroutine :=
  {| subr_name := subr_name s;
     subr_params := subr_params s ++
                    [{| param_name := name; param_type := type; param_isArray := isArray |}];
     subr_vars := subr_vars s;
     subr_instructions := subr_instructions s |}.

Definition add_var (v : var) (s : subroutine) : subroutine :=
  {| subr_name := subr_name s;
     subr_params := subr_params s;
     subr_vars := subr_vars s ++ [v];
     subr_instructions := subr_instructions s |}.

Definition set_instructions (c : instructionList) (s : subroutine) : subroutine :=
  {| subr_name := subr_name s;
     subr_params := subr_params s;
     subr_vars := subr_vars s;
     subr_instructions := c |}.

End subroutine.

(** The class [code]: "a program is an ordered list of subroutines". *)
Definition code_t := list subroutine.

(** Modelled from the spec: the counters behind temporaries "%N" and
    labels "kindN"; "counters reset at each subroutine boundary", and the
    first label of a subroutine is numbered 1. *)
Record counters := { cTEMP : nat; cLabelIF : nat; cLabelWHILE : nat }.

Module counters.

Definition reset (c : counters) : counters :=
  {| cTEMP := 1; cLabelIF := 1; cLabelWHILE := 1 |}.

Definition newTEMP (c : counters) : string * counters :=
  (pretty (cTEMP c),
   {| cTEMP := S (cTEMP c); cLabelIF := cLabelIF c; cLabelWHILE := cLabelWHILE c |}).

Definition newLabelIF (c : counters) : string * counters :=
  (pretty (cLabelIF c),
   {| cTEMP := cTEMP c; cLabelIF := S (cLabelIF c); cLabelWHILE := cLabelWHILE c |}).

Definition newLabelWHILE (c : counters) : string * counters :=
  (pretty (cLabelWHILE c),
   {| cTEMP := cTEMP c; cLabelIF := cLabelIF c; cLabelWHILE := S (cLabelWHILE c) |}).

End counters.

(* ================================================================== *)
(** ** The parse tree: the part every snapshot shares *)
(* ================================================================== *)

(** The parser is not part of the sources; the shapes are those of the
    syntax tree of the spec, with the accessors the visitors call.  Each
    node carries its identity [ctx]. *)
Module AslParser.

(** [ident : ID]; [getText] of the node is the identifier. *)
Record IdentContext := { ident_ctx : Node; ident_ID : string }.

Inductive BasicKind := INT | FLOAT | BOOL | CHAR.

Record Basic_typeContext := { basic_ctx : Node; basic_kind : BasicKind }.

(** [type]: [ARRAY '[' INTVAL ']' OF basic_type], the matrix type of the
    2022 exam, or a [basic_type].  The [INTVAL] tokens are kept as the
    numbers their digits denote. *)
Inductive TypeShape := ARRAY (size : nat) | MATRIX (rows cols : nat) | BASIC.

Record TypeContext := {
  type_ctx : Node;
  type_shape : TypeShape;
  type_basic_type : Basic_typeContext
}.

Record ParameterContext := {
  parameter_ctx : Node;
  parameter_ID : string;
  parameter_type : TypeContext
}.

Record Variable_declContext := {
  variable_decl_ctx : Node;
  variable_decl_type : TypeContext;
  variable_decl_ID : list string
}.

Record DeclarationsContext := {
  declarations_ctx : Node;
  declarations_variable_decl : list Variable_declContext
}.

(** [function], over the type [S] of its [statements] node. *)
Record FunctionContext (S : Type) := {
  function_ctx : Node;
  function_ID : string;
  function_parameter : list ParameterContext;
  function_basic_type : option Basic_typeContext;
  function_declarations : DeclarationsContext;
  function_statements : S
}.
Global Arguments function_ctx {S} _.
Global Arguments function_ID {S} _.
Global Arguments function_parameter {S} _.
Global Arguments function_basic_type {S} _.
Global Arguments function_declarations {S} _.
Global Arguments function_statements {S} _.

Record ProgramContext (S : Type) := {
  program_ctx : Node;
  program_function : list (FunctionContext S)
}.
Global Arguments program_ctx {S} _.
Global Arguments program_function {S} _.

(** Operator tokens, with the text [getText] gives. *)
Inductive ArithOp := MUL | DIV | MOD | PLUS | MINUS.
Inductive UnaryOp := NOT | UPLUS | UMINUS.
Inductive RelOp := EQUAL | DIFF | GT | LT | GTE | LTE.
Inductive LogOp := AND | OR.

Definition arithText (op : ArithOp) : string :=
  match op with
  | MUL => "*" | DIV => "/" | MOD => "%" | PLUS => "+" | MINUS => "-"
  end.

Definition relText (op : RelOp) : string :=
  match op with
  | EQUAL => "==" | DIFF => "!=" | GT => ">" | LT => "<" | GTE => ">=" | LTE => "<="
  end.

(** The token of a [value] node.  A [CHARVAL] token is a character
    between two single quotes: it is kept as the text between the quotes,
    and [valueText] puts the quotes back. *)
Inductive ValueToken :=
| INTVAL (text : string)
| FLOATVAL (text : string)
| BOOLVAL (text : string)
| CHARVAL (body : string).

Definition valueText (tk : ValueToken) : string :=
  match tk with
  | INTVAL s | FLOATVAL s | BOOLVAL s => s
  | CHARVAL c => "'" +:+ c +:+ "'"
  end.

(** [function_call]: the called [ident] and the argument expressions,
    over the type [E] of expressions. *)
Record Function_callContext (E : Type) := {
  function_call_ctx : Node;
  function_call_ident : IdentContext;
  function_call_expr : list E
}.
Global Arguments function_call_ctx {E} _.
Global Arguments function_call_ident {E} _.
Global Arguments function_call_expr {E} _.

(** [statements]: a sequence of statements, over the type [S] of
    statements. *)
Record StatementsContext (S : Type) := {
  statements_ctx : Node;
  statements_statement : list S
}.
Global Arguments statements_ctx {S} _.
Global Arguments statements_statement {S} _.

End AslParser.

(* ================================================================== *)
(** ** The fields of the three visitors *)
(* ================================================================== *)

(** [TypeCheckVisitor]: [Symbols], [Decorations], [Errors] and
    [currFunctionType] ([Types] has no state in this model). *)
Record TCState := {
  tc_Symbols : SymTable;
  tc_Decorations : TreeDecoration;
  tc_Errors : SemErrors;
  tc_currFunctionType : TypeId
}.

(** [CodeGenVisitor]: [Symbols], [Decorations], [codeCounters] and
    [currFunctionType]. *)
Record CGState := {
  cg_Symbols : SymTable;
  cg_Decorations : TreeDecoration;
  cg_codeCounters : counters;
  cg_currFunctionType : TypeId
}.

(** [SymbolsVisitor]: [Symbols], [Decorations] and [Errors]. *)
Record SVState := {
  sv_Symbols : SymTable;
  sv_Decorations : TreeDecoration;
  sv_Errors : SemErrors
}.

(** What every [TypeCheckVisitor] shares: accessors of the decorations
    and the calls on [Symbols] and [Errors]. *)
Module TypeCheck.

Definition withSymbols (f : SymTable → SymTable) (v : TCState) : TCState :=
  {| tc_Symbols := f (tc_Symbols v); tc_Decorations := tc_Decorations v;
     tc_Errors := tc_Errors v; tc_currFunctionType := tc_currFunctionType v |}.

Definition withDecorations (f : TreeDecoration → TreeDecoration) (v : TCState) : TCState :=
  {| tc_Symbols := tc_Symbols v; tc_Decorations := f (tc_Decorations v);
     tc_Errors := tc_Errors v; tc_currFunctionType := tc_currFunctionType v |}.

Definition withErrors (f : SemErrors → SemErrors) (v : TCState) : TCState :=
  {| tc_Symbols := tc_Symbols v; tc_Decorations := tc_Decorations v;
     tc_Errors := f (tc_Errors v); tc_currFunctionType := tc_currFunctionType v |}.

Definition getCurrentFunctionTy (v : TCState) : TypeId := tc_currFunctionType v.

Definition setCurrentFunctionTy (type : TypeId) (v : TCState) : TCState :=
  {| tc_Symbols := tc_Symbols v; tc_Decorations := tc_Decorations v;
     tc_Errors := tc_Errors v; tc_currFunctionType := type |}.

Definition getScopeDecor (ctx : Node) (v : TCState) : ScopeId :=
  getScope (tc_Decorations v) ctx.
Definition getTypeDecor (ctx : Node) (v : TCState) : TypeId :=
  getType (tc_Decorations v) ctx.
Definition getIsLValueDecor (ctx : Node) (v : TCState) : bool :=
  getIsLValue (tc_Decorations v) ctx.

Definition putScopeDecor (ctx : Node) (s : ScopeId) : TCState → TCState :=
  withDecorations (TreeDecoration.putScope ctx s).
Definition putTypeDecor (ctx : Node) (t : TypeId) : TCState → TCState :=
  withDecorations (TreeDecoration.putType ctx t).
Definition putIsLValueDecor (ctx : Node) (b : bool) : TCState → TCState :=
  withDecorations (TreeDecoration.putIsLValue ctx b).

(** [if (c) Errors.f(place);] *)
Definition errorIf (c : bool) (f : Place → SemErrors → SemErrors) (p : Place)
    (v : TCState) : TCState :=
  if c then withErrors (f p) v else v.

(** [getTypeCoercion], the same text in both snapshots. *)
Definition getTypeCoercion (t1 t2 : TypeId) : TypeId :=
  if TypesMgr.isFloatTy t1 || TypesMgr.isFloatTy t2
  then TypesMgr.createFloatTy
  else TypesMgr.createIntegerTy.

End TypeCheck.

(** What every [CodeGenVisitor] shares. *)
Module CodeGen.

(** [CodeAttribs]: "the address that will hold the value of an
    expression", "the offset applied to the address (for array access)",
    "the three-address code associated to an statement/expression". *)
Record CodeAttribs := { addr : string; offs : string; code : instructionList }.

Definition withSymbols (f : SymTable → SymTable) (v : CGState) : CGState :=
  {| cg_Symbols := f (cg_Symbols v); cg_Decorations := cg_Decorations v;
     cg_codeCounters := cg_codeCounters v;
     cg_currFunctionType := cg_currFunctionType v |}.

Definition withCounters (c : counters) (v : CGState) : CGState :=
  {| cg_Symbols := cg_Symbols v; cg_Decorations := cg_Decorations v;
     cg_codeCounters := c; cg_currFunctionType := cg_currFunctionType v |}.

Definition getScopeDecor (ctx : Node) (v : CGState) : ScopeId :=
  getScope (cg_Decorations v) ctx.
Definition getTypeDecor (ctx : Node) (v : CGState) : TypeId :=
  getType (cg_Decorations v) ctx.

(** [codeCounters.newTEMP()] and the like, on the visitor's field. *)
Definition newTEMP (v : CGState) : string * CGState :=
  let '(n, c) := counters.newTEMP (cg_codeCounters v) in (n, withCounters c v).
Definition newLabelIF (v : CGState) : string * CGState :=
  let '(n, c) := counters.newLabelIF (cg_codeCounters v) in (n, withCounters c v).
Definition newLabelWHILE (v : CGState) : string * CGState :=
  let '(n, c) := counters.newLabelWHILE (cg_codeCounters v) in (n, withCounters c v).
Definition resetCounters (v : CGState) : CGState :=
  withCounters (counters.reset (cg_codeCounters v)) v.

(** [s != ""] *)
Definition nonEmpty (s : string) : bool := negb (String.eqb s "").

(** [std::string::substr(pos, len)] for [pos] within the string. *)
Definition substr (s : string) (pos len : nat) : string := String.substring pos len s.

End CodeGen.

(* ================================================================== *)
(** ** src/examen/asl *)
(* ================================================================== *)

Module Examen.
Import AslParser.

(** Expressions of the grammar of this snapshot: the nodes both visitors
    of [src/examen/asl] have a method for.  The exam extensions that only
    one of the two knows (the [map] statement and the power operator in
    the type check, the factorial in the code generation) are not nodes
    of the tree; their methods, [visitMap], [visitPotencia] and
    [visitFactorial], are given below over the children they read. *)
Inductive ExprContext :=
| Parenthesis (ctx : Node) (expr : ExprContext)
| ExprFunc (ctx : Node) (function_call : Function_callContext ExprContext)
| Unary (ctx : Node) (op : UnaryOp) (expr : ExprContext)
| Arithmetic (ctx : Node) (op : ArithOp) (expr0 expr1 : ExprContext)
| Relational (ctx : Node) (op : RelOp) (expr0 expr1 : ExprContext)
| Logical (ctx : Node) (op : LogOp) (expr0 expr1 : ExprContext)
| ArrayAccess (ctx : Node) (ident : IdentContext) (expr : ExprContext)
| Value (ctx : Node) (tk : ValueToken)
| ExprIdent (ctx : Node) (ident : IdentContext).

(** The node of an expression, as a child pointer such as
    [ctx->expr(0)] names it. *)
Definition exprCtx (e : ExprContext) : Node :=
  match e with
  | Parenthesis ctx _ | ExprFunc ctx _ | Unary ctx _ _
  | Arithmetic ctx _ _ _ | Relational ctx _ _ _ | Logical ctx _ _ _
  | ArrayAccess ctx _ _ | Value ctx _ | ExprIdent ctx _ => ctx
  end.

(** [left_expr : ident ('[' expr ']')?] *)
Record Left_exprContext := {
  left_expr_ctx : Node;
  left_expr_ident : IdentContext;
  left_expr_expr : option ExprContext
}.

Inductive StatementContext :=
| AssignStmt (ctx : Node) (left_expr : Left_exprContext) (expr : ExprContext)
| IfStmt (ctx : Node) (expr : ExprContext)
    (statements0 : StatementsContext StatementContext)
    (statements1 : option (StatementsContext StatementContext))
| WhileStmt (ctx : Node) (expr : ExprContext)
    (statements : StatementsContext StatementContext)
| ProcCall (ctx : Node) (function_call : Function_callContext ExprContext)
| ReadStmt (ctx : Node) (left_expr : Left_exprContext)
| WriteExpr (ctx : Node) (expr : ExprContext)
| WriteString (ctx : Node) (STRING : string)
| ReturnStmt (ctx : Node) (expr : option ExprContext).

Abbreviation StatementsCtx := (StatementsContext StatementContext).
Abbreviation FunctionCtx := (FunctionContext StatementsCtx).
Abbreviation ProgramCtx := (ProgramContext StatementsCtx).

(* ------------------------------------------------------------------ *)
(** *** src/examen/asl/TypeCheckVisitor.cpp *)
(* ------------------------------------------------------------------ *)

Module TypeCheckVisitor.
Import TypesMgr TypeCheck.

Definition visitIdent (ctx : IdentContext) (v : TCState) : TCState :=
  let ident := ident_ID ctx in
  if (SymTable.findInStack ident (tc_Symbols v) =? -1)%Z then
    let v := withErrors (SemErrors.undeclaredIdent (AtToken (ident_ctx ctx) tID)) v in
    let te := createErrorTy in
    let v := putTypeDecor (ident_ctx ctx) te v in
    putIsLValueDecor (ident_ctx ctx) true v
  else
    let t1 := SymTable.getType ident (tc_Symbols v) in
    let v := putTypeDecor (ident_ctx ctx) t1 v in
    if SymTable.isFunctionClass ident (tc_Symbols v)
    then putIsLValueDecor (ident_ctx ctx) false v
    else putIsLValueDecor (ident_ctx ctx) true v.

Definition visitValue (ctx : Node) (tk : ValueToken) (v : TCState) : TCState :=
  let v :=
    match tk with
    | INTVAL _ => putTypeDecor ctx createIntegerTy v
    | FLOATVAL _ => putTypeDecor ctx createFloatTy v
    | BOOLVAL _ => putTypeDecor ctx createBooleanTy v
    | CHARVAL _ => putTypeDecor ctx createCharacterTy v
    end in
  putIsLValueDecor ctx false v.

Definition visitExprIdent (ctx : Node) (ident : IdentContext) (v : TCState) : TCState :=
  let v := visitIdent ident v in
  let t1 := getTypeDecor (ident_ctx ident) v in
  let v := putTypeDecor ctx t1 v in
  let b := getIsLValueDecor (ident_ctx ident) v in
  putIsLValueDecor ctx b v.

(** The second loop of [visitFunction_call]: argument [i] against the
    formal parameter [i]. *)
Fixpoint checkParameters (ctx : Node) (tFunc : TypeId) (i : nat)
    (exprs : list ExprContext) (v : TCState) : TCState :=
  match exprs with
  | [] => v
  | e :: exprs' =>
      let tExpr := getTypeDecor (exprCtx e) v in
      let tArg := getParameterType tFunc i in
      let v := errorIf (negb (isErrorTy tExpr) && negb (copyableTypes tArg tExpr))
                 (λ p, SemErrors.incompatibleParameter p (i + 1) ctx)
                 (AtNode (exprCtx e)) v in
      checkParameters ctx tFunc (S i) exprs' v
  end.

Section Visit.
(** [visit(ctx->expr())]: the dispatch on the kind of the child. *)
Variable visit : ExprContext → TCState → TCState.

Definition visitParenthesis (ctx : Node) (expr : ExprContext) (v : TCState) : TCState :=
  let v := visit expr v in
  let t1 := getTypeDecor (exprCtx expr) v in
  let v := putTypeDecor ctx t1 v in
  putIsLValueDecor ctx false v.

Definition visitFunction_call (ctx : Function_callContext ExprContext)
    (v : TCState) : TCState :=
  let ident := function_call_ident ctx in
  let v := visitIdent ident v in
  let tFunc := getTypeDecor (ident_ctx ident) v in
  let v := errorIf (negb (isFunctionTy tFunc) && negb (isErrorTy tFunc))
             SemErrors.isNotCallable (AtNode (ident_ctx ident)) v in
  let numOfExpr := length (function_call_expr ctx) in
  let v := fold_left (λ v e, visit e v) (function_call_expr ctx) v in
  let v :=
    if isFunctionTy tFunc && negb (isErrorTy tFunc) then
      let tRet := getFuncReturnType tFunc in
      let v := putTypeDecor (function_call_ctx ctx) tRet v in
      let numOfParams := getNumOfParameters tFunc in
      if negb (Nat.eqb numOfExpr numOfParams) then
        withErrors (SemErrors.numberOfParameters (AtNode (ident_ctx ident))) v
      else
        checkParameters (function_call_ctx ctx) tFunc 0 (function_call_expr ctx) v
    else v in
  let b := getIsLValueDecor (ident_ctx ident) v in
  putIsLValueDecor (function_call_ctx ctx) b v.

Definition visitExprFunc (ctx : Node) (function_call : Function_callContext ExprContext)
    (v : TCState) : TCState :=
  let v := visitFunction_call function_call v in
  let tFunc := getTypeDecor (function_call_ctx function_call) v in
  let b := getIsLValueDecor (function_call_ctx function_call) v in
  let '(v, tFunc, b) :=
    if isVoidTy tFunc then
      (withErrors (SemErrors.isNotFunction (AtNode (function_call_ctx function_call))) v,
       createErrorTy, false)
    else (v, tFunc, b) in
  let v := putTypeDecor ctx tFunc v in
  putIsLValueDecor ctx b v.

Definition visitUnary (ctx : Node) (op : UnaryOp) (expr : ExprContext)
    (v : TCState) : TCState :=
  let v := visit expr v in
  let t1 := getTypeDecor (exprCtx expr) v in
  let '(v, t1) :=
    match op with
    | NOT =>
        (errorIf (negb (isErrorTy t1) && negb (isBooleanTy t1))
           SemErrors.incompatibleOperator (AtToken ctx tOP) v,
         createBooleanTy)
    | _ =>
        (errorIf (negb (isErrorTy t1) && negb (isNumericTy t1))
           SemErrors.incompatibleOperator (AtToken ctx tOP) v,
         if isFloatTy t1 then createFloatTy else createIntegerTy)
    end in
  let v := putTypeDecor ctx t1 v in
  putIsLValueDecor ctx false v.

Definition visitArithmetic (ctx : Node) (op : ArithOp) (expr0 expr1 : ExprContext)
    (v : TCState) : TCState :=
  let v := visit expr0 v in
  let t1 := getTypeDecor (exprCtx expr0) v in
  let v := visit expr1 v in
  let t2 := getTypeDecor (exprCtx expr1) v in
  let t := createIntegerTy in
  let '(v, t) :=
    if String.eqb (arithText op) "%" then
      (errorIf ((negb (isErrorTy t1) && negb (isIntegerTy t1))
                || (negb (isErrorTy t2) && negb (isIntegerTy t2)))
         SemErrors.incompatibleOperator (AtToken ctx tOP) v,
       t)
    else
      (errorIf ((negb (isErrorTy t1) && negb (isNumericTy t1))
                || (negb (isErrorTy t2) && negb (isNumericTy t2)))
         SemErrors.incompatibleOperator (AtToken ctx tOP) v,
       getTypeCoercion t1 t2) in
  let v := putTypeDecor ctx t v in
  putIsLValueDecor ctx false v.

Definition visitRelational (ctx : Node) (op : RelOp) (expr0 expr1 : ExprContext)
    (v : TCState) : TCState :=
  let v := visit expr0 v in
  let t1 := getTypeDecor (exprCtx expr0) v in
  let v := visit expr1 v in
  let t2 := getTypeDecor (exprCtx expr1) v in
  let oper := relText op in
  let v := errorIf (negb (isErrorTy t1) && negb (isErrorTy t2)
                    && negb (comparableTypes t1 t2 oper))
             SemErrors.incompatibleOperator (AtToken ctx tOP) v in
  let t := createBooleanTy in
  let v := putTypeDecor ctx t v in
  putIsLValueDecor ctx false v.

Definition visitLogical (ctx : Node) (op : LogOp) (expr0 expr1 : ExprContext)
    (v : TCState) : TCState :=
  let v := visit expr0 v in
  let t1 := getTypeDecor (exprCtx expr0) v in
  let v := visit expr1 v in
  let t2 := getTypeDecor (exprCtx expr1) v in
  let v := errorIf ((negb (isErrorTy t1) && negb (isBooleanTy t1))
                    || (negb (isErrorTy t2) && negb (isBooleanTy t2)))
             SemErrors.incompatibleOperator (AtToken ctx tOP) v in
  let t := createBooleanTy in
  let v := putTypeDecor ctx t v in
  putIsLValueDecor ctx false v.

(** The index test, type and l-value of an indexed identifier: the
    branch [if (ctx->expr())] shared word for word by [visitLeft_expr]
    and [visitArrayAccess]. *)
Definition visitIndexed (ctx : Node) (t1 : TypeId) (expr : ExprContext)
    (v : TCState) : TCState :=
  let v := errorIf (negb (isErrorTy t1) && negb (isArrayTy t1))
             SemErrors.nonArrayInArrayAccess (AtNode ctx) v in
  let v := visit expr v in
  let t2 := getTypeDecor (exprCtx expr) v in
  let v := errorIf (negb (isErrorTy t2) && negb (isIntegerTy t2))
             SemErrors.nonIntegerIndexInArrayAccess (AtNode (exprCtx expr)) v in
  let t3 := createErrorTy in
  let isLValue := false in
  let '(t3, isLValue) :=
    if isArrayTy t1 then (getArrayElemType t1, true) else (t3, isLValue) in
  let v := putTypeDecor ctx t3 v in
  putIsLValueDecor ctx isLValue v.

(** In an [arrayAccess] node the index is always there, so only the
    first branch of the method can run. *)
Definition visitArrayAccess (ctx : Node) (ident : IdentContext) (expr : ExprContext)
    (v : TCState) : TCState :=
  let v := visitIdent ident v in
  let t1 := getTypeDecor (ident_ctx ident) v in
  visitIndexed ctx t1 expr v.

Definition visitLeft_expr (ctx : Left_exprContext) (v : TCState) : TCState :=
  let v := visitIdent (left_expr_ident ctx) v in
  let t1 := getTypeDecor (ident_ctx (left_expr_ident ctx)) v in
  match left_expr_expr ctx with
  | Some expr => visitIndexed (left_expr_ctx ctx) t1 expr v
  | None =>
      let isLValue := getIsLValueDecor (ident_ctx (left_expr_ident ctx)) v in
      let v := putTypeDecor (left_expr_ctx ctx) t1 v in
      putIsLValueDecor (left_expr_ctx ctx) isLValue v
  end.

Definition visitAssignStmt (ctx : Node) (left_expr : Left_exprContext)
    (expr : ExprContext) (v : TCState) : TCState :=
  let v := visitLeft_expr left_expr v in
  let t1 := getTypeDecor (left_expr_ctx left_expr) v in
  let v := visit expr v in
  let t2 := getTypeDecor (exprCtx expr) v in
  let v := errorIf (negb (isErrorTy t1) && negb (isErrorTy t2)
                    && negb (copyableTypes t1 t2))
             SemErrors.incompatibleAssignment (AtToken ctx tASSIGN) v in
  errorIf (negb (isErrorTy t1) && negb (getIsLValueDecor (left_expr_ctx left_expr) v))
    SemErrors.nonReferenceableLeftExpr (AtNode (left_expr_ctx left_expr)) v.

Definition visitProcCall (ctx : Node) (function_call : Function_callContext ExprContext)
    (v : TCState) : TCState :=
  visitFunction_call function_call v.

Definition visitReadStmt (ctx : Node) (left_expr : Left_exprContext)
    (v : TCState) : TCState :=
  let v := visitLeft_expr left_expr v in
  let t1 := getTypeDecor (left_expr_ctx left_expr) v in
  let v := errorIf (negb (isErrorTy t1) && negb (isPrimitiveTy t1)
                    && negb (isFunctionTy t1))
             SemErrors.readWriteRequireBasic (AtNode ctx) v in
  errorIf (negb (isErrorTy t1) && negb (getIsLValueDecor (left_expr_ctx left_expr) v))
    SemErrors.nonReferenceableExpression (AtNode ctx) v.

Definition visitWriteExpr (ctx : Node) (expr : ExprContext) (v : TCState) : TCState :=
  let v := visit expr v in
  let t1 := getTypeDecor (exprCtx expr) v in
  errorIf (negb (isErrorTy t1) && negb (isPrimitiveTy t1))
    SemErrors.readWriteRequireBasic (AtNode ctx) v.

Definition visitReturnStmt (ctx : Node) (expr : option ExprContext)
    (v : TCState) : TCState :=
  let t1 := createVoidTy in
  let '(v, t1) :=
    match expr with
    | Some e => let v := visit e v in (v, getTypeDecor (exprCtx e) v)
    | None => (v, t1)
    end in
  let t2 := getCurrentFunctionTy v in
  if negb (isErrorTy t2) then
    let ret := getFuncReturnType t2 in
    errorIf (negb (copyableTypes ret t1))
      SemErrors.incompatibleReturn (AtToken ctx tRETURN) v
  else v.


End Visit.


(** [visit] on an expression node. *)
Fixpoint visit_expr (e : ExprContext) : TCState → TCState :=
  match e with
  | Parenthesis ctx expr => visitParenthesis visit_expr ctx expr
  | ExprFunc ctx function_call => visitExprFunc visit_expr ctx function_call
  | Unary ctx op expr => visitUnary visit_expr ctx op expr
  | Arithmetic ctx op expr0 expr1 => visitArithmetic visit_expr ctx op expr0 expr1
  | Relational ctx op expr0 expr1 => visitRelational visit_expr ctx op expr0 expr1
  | Logical ctx op expr0 expr1 => visitLogical visit_expr ctx op expr0 expr1
  | ArrayAccess ctx ident expr => visitArrayAccess visit_expr ctx ident expr
  | Value ctx tk => visitValue ctx tk
  | ExprIdent ctx ident => visitExprIdent ctx ident
  end.

Section VisitStatements.
(** [visit(ctx->statements(i))]. *)
Variable visit : StatementsCtx → TCState → TCState.

Definition visitIfStmt (ctx : Node) (expr : ExprContext)
    (statements0 : StatementsCtx) (statements1 : option StatementsCtx)
    (v : TCState) : TCState :=
  let v := visit_expr expr v in
  let t1 := getTypeDecor (exprCtx expr) v in
  let v := errorIf (negb (isErrorTy t1) && negb (isBooleanTy t1))
             SemErrors.booleanRequired (AtNode ctx) v in
  let v := visit statements0 v in
  match statements1 with
  | Some s1 => visit s1 v
  | None => v
  end.

Definition visitWhileStmt (ctx : Node) (expr : ExprContext)
    (statements : StatementsCtx) (v : TCState) : TCState :=
  let v := visit_expr expr v in
  let t1 := getTypeDecor (exprCtx expr) v in
  let v := errorIf (negb (isErrorTy t1) && negb (isBooleanTy t1))
             SemErrors.booleanRequired (AtNode ctx) v in
  visit statements v.

End VisitStatements.

(** [visitStatements] is [visitChildren]: every statement in turn. *)
Definition visitStatements (visit : StatementContext → TCState → TCState)
    (ctx : StatementsCtx) (v : TCState) : TCState :=
  fold_left (λ v s, visit s v) (statements_statement ctx) v.

(** [visit] on a statement node.  [writeString] has no method in this
    visitor and no child to visit. *)
Fixpoint visit_statement (s : StatementContext) : TCState → TCState :=
  match s with
  | AssignStmt ctx left_expr expr => visitAssignStmt visit_expr ctx left_expr expr
  | IfStmt ctx expr statements0 statements1 =>
      visitIfStmt (visitStatements visit_statement) ctx expr statements0 statements1
  | WhileStmt ctx expr statements =>
      visitWhileStmt (visitStatements visit_statement) ctx expr statements
  | ProcCall ctx function_call => visitProcCall visit_expr ctx function_call
  | ReadStmt ctx left_expr => visitReadStmt visit_expr ctx left_expr
  | WriteExpr ctx expr => visitWriteExpr visit_expr ctx expr
  | WriteString ctx _ => λ v, v
  | ReturnStmt ctx expr => visitReturnStmt visit_expr ctx expr
  end.

Definition visitFunction (ctx : FunctionCtx) (v : TCState) : TCState :=
  let sc := getScopeDecor (function_ctx ctx) v in
  let v := withSymbols (SymTable.pushThisScope sc) v in
  let t1 := getTypeDecor (function_ctx ctx) v in
  let v := setCurrentFunctionTy t1 v in
  let v := visitStatements visit_statement (function_statements ctx) v in
  withSymbols SymTable.popScope v.

(** [Errors.print()] at the end of the method changes no field. *)
Definition visitProgram (ctx : ProgramCtx) (v : TCState) : TCState :=
  let sc := getScopeDecor (program_ctx ctx) v in
  let v := withSymbols (SymTable.pushThisScope sc) v in
  let v := fold_left (λ v ctxFunc, visitFunction ctxFunc v) (program_function ctx) v in
  let v := errorIf (SymTable.noMainProperlyDeclared (tc_Symbols v))
             SemErrors.noMainProperlyDeclared (AtNode (program_ctx ctx)) v in
  withSymbols SymTable.popScope v.

End TypeCheckVisitor.

(* ------------------------------------------------------------------ *)
(** *** src/examen/asl/CodeGenVisitor.cpp *)
(* ------------------------------------------------------------------ *)

Module CodeGenVisitor.
Import TypesMgr CodeGen.

Definition visitIdent (ctx : IdentContext) (v : CGState) : CodeAttribs * CGState :=
  ({| addr := ident_ID ctx; offs := ""; code := [] |}, v).

Definition visitValue (ctx : Node) (tk : ValueToken) (v : CGState)
    : CodeAttribs * CGState :=
  let '(n, v) := newTEMP v in
  let temp := "%" +:+ n in
  let code :=
    match tk with
    | INTVAL _ => [instruction.ILOAD temp (valueText tk)]
    | FLOATVAL _ => [instruction.FLOAD temp (valueText tk)]
    | CHARVAL _ =>
        let value := valueText tk in
        let value := substr value 1 (String.length value - 2) in
        [instruction.CHLOAD temp value]
    | BOOLVAL _ =>
        let value := "1" in
        let value := if String.eqb (valueText tk) "false" then "0" else value in
        [instruction.ILOAD temp value]
    end in
  ({| addr := temp; offs := ""; code := code |}, v).

(** The text that recurs wherever an address that stands for a
    parameter passed by reference is used as a base:
    [if (Symbols.isParameterClass(addr)) { temp = "%"+newTEMP();
    code = code || LOAD(temp, addr); addr = temp; }] *)
Definition porReferencia (addr : string) (code : instructionList) (v : CGState)
    : string * instructionList * CGState :=
  if SymTable.isParameterClass addr (cg_Symbols v) then
    let '(n, v) := newTEMP v in
    let temp := "%" +:+ n in
    (temp, code ++ [instruction.LOAD temp addr], v)
  else (addr, code, v).

(** The text that recurs in [visitUnary], [visitArithmetic],
    [visitRelational] and [visitLogical] for an operand that is an
    indexed value: [if (offs != "") { tempExpr = ...; addr = tempExpr; }] *)
Definition loadIndexed (addr offs : string) (code : instructionList) (v : CGState)
    : string * instructionList * CGState :=
  if nonEmpty offs then
    let '(n, v) := newTEMP v in
    let tempExpr := "%" +:+ n in
    if SymTable.isLocalVarClass addr (cg_Symbols v) then
      (tempExpr, code ++ [instruction.LOADX tempExpr addr offs], v)
    else
      let '(n, v) := newTEMP v in
      let tempTempExpr := "%" +:+ n in
      (tempExpr,
       code ++ [instruction.LOAD tempTempExpr addr;
                instruction.LOADX tempExpr tempTempExpr offs], v)
  else (addr, code, v).

(** The loop of the array assignment, [for (i = 0; i < arraySize; ++i)]. *)
Fixpoint copyArray (addr1 addr2 tempOffs tempRight : string) (i n : nat)
    (code : instructionList) : instructionList :=
  match n with
  | 0 => code
  | S n' =>
      let index := pretty i in
      copyArray addr1 addr2 tempOffs tempRight (S i) n'
        (code ++ [instruction.ILOAD tempOffs index;
                  instruction.LOADX tempRight addr2 tempOffs;
                  instruction.XLOAD addr1 tempOffs tempRight])
  end.

Section Visit.
(** [visit(ctx->expr())]. *)
Variable visit : ExprContext → CGState → CodeAttribs * CGState.

Definition visitParenthesis (ctx : Node) (expr : ExprContext) (v : CGState)
    : CodeAttribs * CGState :=
  visit expr v.

Definition visitExprIdent (ctx : Node) (ident : IdentContext) (v : CGState)
    : CodeAttribs * CGState :=
  visitIdent ident v.

Definition visitLeft_expr (ctx : Left_exprContext) (v : CGState)
    : CodeAttribs * CGState :=
  let name := ident_ID (left_expr_ident ctx) in
  let '(codAt1, v) := visitIdent (left_expr_ident ctx) v in
  let addr1 := addr codAt1 in
  let code1 := code codAt1 in
  let code := code1 in
  let offs := "" in
  let '(addr1, offs, code, v) :=
    match left_expr_expr ctx with
    | Some expr =>
        let '(codAt2, v) := visit expr v in
        let offs := addr codAt2 in
        let code2 := CodeGen.code codAt2 in
        let code := code ++ code2 in
        let '(addr1, code, v) := porReferencia addr1 code v in
        (addr1, offs, code, v)
    | None => (addr1, offs, code, v)
    end in
  ({| addr := addr1; offs := offs; code := code |}, v).

Definition visitUnary (ctx : Node) (op : UnaryOp) (expr : ExprContext) (v : CGState)
    : CodeAttribs * CGState :=
  let '(codAts1, v) := visit expr v in
  let '(addr, code, v) := loadIndexed (addr codAts1) (offs codAts1) (code codAts1) v in
  let t1 := getTypeDecor (exprCtx expr) v in
  let '(n, v) := newTEMP v in
  let temp := "%" +:+ n in
  let '(temp, code) :=
    match op with
    | NOT => (temp, code ++ [instruction.NOT temp addr])
    | UPLUS => (addr, code)
    | UMINUS =>
        if isFloatTy t1 then (temp, code ++ [instruction.FNEG temp addr])
        else (temp, code ++ [instruction.NEG temp addr])
    end in
  ({| addr := temp; offs := ""; code := code |}, v).

Definition visitArithmetic (ctx : Node) (op : ArithOp) (expr0 expr1 : ExprContext)
    (v : CGState) : CodeAttribs * CGState :=
  let '(codAt1, v) := visit expr0 v in
  let '(codAt2, v) := visit expr1 v in
  let code := code codAt1 ++ code codAt2 in
  let '(addr1, code, v) := loadIndexed (addr codAt1) (offs codAt1) code v in
  let '(addr2, code, v) := loadIndexed (addr codAt2) (offs codAt2) code v in
  let t1 := getTypeDecor (exprCtx expr0) v in
  let t2 := getTypeDecor (exprCtx expr1) v in
  let '(n, v) := newTEMP v in
  let temp := "%" +:+ n in
  if isIntegerTy t1 && isIntegerTy t2 then
    match op with
    | MUL => ({| addr := temp; offs := "";
                 code := code ++ [instruction.MUL temp addr1 addr2] |}, v)
    | DIV => ({| addr := temp; offs := "";
                 code := code ++ [instruction.DIV temp addr1 addr2] |}, v)
    | MOD =>
        let '(n, v) := newTEMP v in
        let temp2 := "%" +:+ n in
        let '(n, v) := newTEMP v in
        let temp3 := "%" +:+ n in
        ({| addr := temp; offs := "";
            code := code ++ [instruction.DIV temp2 addr1 addr2;
                             instruction.MUL temp3 addr2 temp2;
                             instruction.SUB temp addr1 temp3] |}, v)
    | PLUS => ({| addr := temp; offs := "";
                  code := code ++ [instruction.ADD temp addr1 addr2] |}, v)
    | MINUS => ({| addr := temp; offs := "";
                   code := code ++ [instruction.SUB temp addr1 addr2] |}, v)
    end
  else
    let tempAddr1 := addr1 in
    let tempAddr2 := addr2 in
    let '(tempAddr1, code, v) :=
      if isIntegerTy t1 then
        let '(n, v) := newTEMP v in
        let tempAddr1 := "%" +:+ n in
        (tempAddr1, code ++ [instruction.FLOAT tempAddr1 addr1], v)
      else (tempAddr1, code, v) in
    let '(tempAddr2, code, v) :=
      if isIntegerTy t2 then
        let '(n, v) := newTEMP v in
        let tempAddr2 := "%" +:+ n in
        (tempAddr2, code ++ [instruction.FLOAT tempAddr2 addr2], v)
      else (tempAddr2, code, v) in
    match op with
    | MUL => ({| addr := temp; offs := "";
                 code := code ++ [instruction.FMUL temp tempAddr1 tempAddr2] |}, v)
    | DIV => ({| addr := temp; offs := "";
                 code := code ++ [instruction.FDIV temp tempAddr1 tempAddr2] |}, v)
    | MOD =>
        let '(n, v) := newTEMP v in
        let temp2 := "%" +:+ n in
        let '(n, v) := newTEMP v in
        let temp3 := "%" +:+ n in
        ({| addr := temp; offs := "";
            code := code ++ [instruction.FDIV temp2 tempAddr1 tempAddr2;
                             instruction.FMUL temp3 tempAddr2 temp2;
                             instruction.FSUB temp tempAddr1 temp3] |}, v)
    | PLUS => ({| addr := temp; offs := "";
                  code := code ++ [instruction.FADD temp tempAddr1 tempAddr2] |}, v)
    | MINUS => ({| addr := temp; offs := "";
                   code := code ++ [instruction.FSUB temp tempAddr1 tempAddr2] |}, v)
    end.

Definition visitRelational (ctx : Node) (op : RelOp) (expr0 expr1 : ExprContext)
    (v : CGState) : CodeAttribs * CGState :=
  let '(codAt1, v) := visit expr0 v in
  let '(codAt2, v) := visit expr1 v in
  let code := code codAt1 ++ code codAt2 in
  let '(addr1, code, v) := loadIndexed (addr codAt1) (offs codAt1) code v in
  let '(addr2, code, v) := loadIndexed (addr codAt2) (offs codAt2) code v in
  let t1 := getTypeDecor (exprCtx expr0) v in
  let t2 := getTypeDecor (exprCtx expr1) v in
  let '(n, v) := newTEMP v in
  let temp := "%" +:+ n in
  if negb (isFloatTy t1) && negb (isFloatTy t2) then
    let code :=
      match op with
      | EQUAL => code ++ [instruction.EQ temp addr1 addr2]
      | DIFF => code ++ [instruction.EQ temp addr1 addr2; instruction.NOT temp temp]
      | GT => code ++ [instruction.LT temp addr2 addr1]
      | LT => code ++ [instruction.LT temp addr1 addr2]
      | GTE => code ++ [instruction.LE temp addr2 addr1]
      | LTE => code ++ [instruction.LE temp addr1 addr2]
      end in
    ({| addr := temp; offs := ""; code := code |}, v)
  else
    let tempAddr1 := addr1 in
    let tempAddr2 := addr2 in
    let '(tempAddr1, code, v) :=
      if negb (isFloatTy t1) then
        let '(n, v) := newTEMP v in
        let tempAddr1 := "%" +:+ n in
        (tempAddr1, code ++ [instruction.FLOAT tempAddr1 addr1], v)
      else (tempAddr1, code, v) in
    let '(tempAddr2, code, v) :=
      if negb (isFloatTy t2) then
        let '(n, v) := newTEMP v in
        let tempAddr2 := "%" +:+ n in
        (tempAddr2, code ++ [instruction.FLOAT tempAddr2 addr2], v)
      else (tempAddr2, code, v) in
    let code :=
      match op with
      | EQUAL => code ++ [instruction.FEQ temp tempAddr1 tempAddr2]
      | DIFF => code ++ [instruction.FEQ temp tempAddr1 tempAddr2;
                         instruction.NOT temp temp]
      | GT => code ++ [instruction.FLT temp tempAddr2 tempAddr1]
      | LT => code ++ [instruction.FLT temp tempAddr1 tempAddr2]
      | GTE => code ++ [instruction.FLE temp tempAddr2 tempAddr1]
      | LTE => code ++ [instruction.FLE temp tempAddr1 tempAddr2]
      end in
    ({| addr := temp; offs := ""; code := code |}, v).

Definition visitLogical (ctx : Node) (op : LogOp) (expr0 expr1 : ExprContext)
    (v : CGState) : CodeAttribs * CGState :=
  let '(codAt1, v) := visit expr0 v in
  let '(codAt2, v) := visit expr1 v in
  let code := code codAt1 ++ code codAt2 in
  let '(addr1, code, v) := loadIndexed (addr codAt1) (offs codAt1) code v in
  let '(addr2, code, v) := loadIndexed (addr codAt2) (offs codAt2) code v in
  let '(n, v) := newTEMP v in
  let temp := "%" +:+ n in
  let code :=
    match op with
    | AND => code ++ [instruction.AND temp addr1 addr2]
    | OR => code ++ [instruction.OR temp addr1 addr2]
    end in
  ({| addr := temp; offs := ""; code := code |}, v).

Definition visitArrayAccess (ctx : Node) (ident : IdentContext) (expr : ExprContext)
    (v : CGState) : CodeAttribs * CGState :=
  let name := ident_ID ident in
  let '(codAt1, v) := visitIdent ident v in
  let '(codAt2, v) := visit expr v in
  let addr2 := addr codAt2 in
  let code := code codAt1 ++ code codAt2 in
  ({| addr := name; offs := addr2; code := code |}, v).

(** The loop of [visitFunction_call] over the arguments; it carries
    [code], [pushCode] and [popCode]. *)
Fixpoint lowerArguments (tFunc : TypeId) (i : nat) (exprs : list ExprContext)
    (code pushCode popCode : instructionList) (v : CGState)
    : instructionList * instructionList * instructionList * CGState :=
  match exprs with
  | [] => (code, pushCode, popCode, v)
  | e :: exprs' =>
      let '(codAt1, v) := visit e v in
      let addr1 := addr codAt1 in
      let code1 := CodeGen.code codAt1 in
      let code := code ++ code1 in
      let tExpr := getTypeDecor (exprCtx e) v in
      let tParam := getParameterType tFunc i in
      let tempAddr1 := addr1 in
      let '(tempAddr1, code, v) :=
        if isIntegerTy tExpr && isFloatTy tParam then
          let '(n, v) := newTEMP v in
          let tempAddr1 := "%" +:+ n in
          (tempAddr1, code ++ [instruction.FLOAT tempAddr1 addr1], v)
        else if isArrayTy tParam && SymTable.isLocalVarClass addr1 (cg_Symbols v) then
          let '(n, v) := newTEMP v in
          let tempAddr1 := "%" +:+ n in
          (tempAddr1, code ++ [instruction.ALOAD tempAddr1 addr1], v)
        else (tempAddr1, code, v) in
      let pushCode := pushCode ++ [instruction.PUSH tempAddr1] in
      let popCode := popCode ++ [instruction.POP0] in
      lowerArguments tFunc (S i) exprs' code pushCode popCode v
  end.

Definition visitFunction_call (ctx : Function_callContext ExprContext) (v : CGState)
    : CodeAttribs * CGState :=
  let funcName := ident_ID (function_call_ident ctx) in
  let tFunc := getTypeDecor (ident_ctx (function_call_ident ctx)) v in
  let code := [] in
  let code := if negb (isVoidFunction tFunc) then code ++ [instruction.PUSH0] else code in
  let pushCode := [] in
  let popCode := [] in
  let '(code, pushCode, popCode, v) :=
    lowerArguments tFunc 0 (function_call_expr ctx) code pushCode popCode v in
  let code := code ++ pushCode ++ [instruction.CALL funcName] ++ popCode in
  let temp := "" in
  let '(temp, code, v) :=
    if negb (isVoidFunction tFunc) then
      let '(n, v) := newTEMP v in
      let temp := "%" +:+ n in
      (temp, code ++ [instruction.POP temp], v)
    else (temp, code, v) in
  ({| addr := temp; offs := ""; code := code |}, v).

Definition visitExprFunc (ctx : Node) (function_call : Function_callContext ExprContext)
    (v : CGState) : CodeAttribs * CGState :=
  visitFunction_call function_call v.

(** The factorial of the exam, over its [expr] child.  The trap code
    [code::INVALID_INTEGER_OPERAND] is a constant of [common/code.h]. *)
Definition visitFactorial (INVALID_INTEGER_OPERAND : string) (ctx : Node)
    (expr : ExprContext) (v : CGState) : CodeAttribs * CGState :=
  let '(codAts1, v) := visit expr v in
  let '(addr, code, v) := loadIndexed (addr codAts1) (offs codAts1) (code codAts1) v in
  let t1 := getTypeDecor (exprCtx expr) v in
  let '(n, v) := newTEMP v in let index := "%" +:+ n in
  let '(n, v) := newTEMP v in let zero := "%" +:+ n in
  let '(n, v) := newTEMP v in let one := "%" +:+ n in
  let '(n, v) := newTEMP v in let tempCondition := "%" +:+ n in
  let '(n, v) := newTEMP v in let tempAddr := "%" +:+ n in
  let '(n, v) := newTEMP v in let tempMult := "%" +:+ n in
  let '(label, v) := newLabelWHILE v in
  let labelFactorial := "factorial" +:+ label in
  let labelHalt := "halt" +:+ label in
  let labelZeroCase := "zeroCase" +:+ label in
  let labelEndFactorial := "endfactorial" +:+ label in
  let code :=
    if SymTable.isLocalVarClass addr (cg_Symbols v) then
      code ++ [instruction.LOAD tempMult addr; instruction.LOAD tempAddr addr]
    else
      code ++ [instruction.ILOAD tempMult addr; instruction.ILOAD tempAddr addr] in
  let code :=
    code ++ [instruction.ILOAD zero "0";
             instruction.ILOAD index "2";
             instruction.ILOAD one "1";
             instruction.EQ tempCondition zero tempAddr;
             instruction.NOT tempCondition tempCondition;
             instruction.FJUMP tempCondition labelZeroCase;
             instruction.LE tempCondition zero tempAddr;
             instruction.FJUMP tempCondition labelHalt;
             instruction.LABEL labelFactorial;
             instruction.LT tempCondition one tempAddr;
             instruction.FJUMP tempCondition labelEndFactorial;
             instruction.SUB tempAddr tempAddr one;
             instruction.MUL tempMult tempMult tempAddr;
             instruction.UJUMP labelFactorial;
             instruction.LABEL labelHalt;
             instruction.HALT INVALID_INTEGER_OPERAND;
             instruction.LABEL labelZeroCase;
             instruction.ILOAD tempMult "1";
             instruction.LABEL labelEndFactorial] in
  ({| addr := tempMult; offs := ""; code := code |}, v).

End Visit.

(** [visit] on an expression node. *)
Fixpoint visit_expr (e : ExprContext) : CGState → CodeAttribs * CGState :=
  match e with
  | Parenthesis ctx expr => visitParenthesis visit_expr ctx expr
  | ExprFunc ctx function_call => visitExprFunc visit_expr ctx function_call
  | Unary ctx op expr => visitUnary visit_expr ctx op expr
  | Arithmetic ctx op expr0 expr1 => visitArithmetic visit_expr ctx op expr0 expr1
  | Relational ctx op expr0 expr1 => visitRelational visit_expr ctx op expr0 expr1
  | Logical ctx op expr0 expr1 => visitLogical visit_expr ctx op expr0 expr1
  | ArrayAccess ctx ident expr => visitArrayAccess visit_expr ctx ident expr
  | Value ctx tk => visitValue ctx tk
  | ExprIdent ctx ident => visitExprIdent ctx ident
  end.

Definition visitAssignStmt (ctx : Node) (left_expr : Left_exprContext)
    (expr : ExprContext) (v : CGState) : instructionList * CGState :=
  let '(codAtsE1, v) := visitLeft_expr visit_expr left_expr v in
  let addr1 := addr codAtsE1 in
  let offs1 := offs codAtsE1 in
  let code1 := code codAtsE1 in
  let tLeft := getTypeDecor (left_expr_ctx left_expr) v in
  let '(codAtsE2, v) := visit_expr expr v in
  let addr2 := addr codAtsE2 in
  let offs2 := offs codAtsE2 in
  let code2 := code codAtsE2 in
  let tRight := getTypeDecor (exprCtx expr) v in
  let code := code1 ++ code2 in
  let tRight := if isFunctionTy tRight then getFuncReturnType tRight else tRight in
  let '(addr2, code, v) :=
    if isFloatTy tLeft && isIntegerTy tRight then
      let '(n, v) := newTEMP v in
      let temp := "%" +:+ n in
      (temp, code ++ [instruction.FLOAT temp addr2], v)
    else (addr2, code, v) in
  let tLeft :=
    match left_expr_expr left_expr with
    | Some _ => getTypeDecor (ident_ctx (left_expr_ident left_expr)) v
    | None => tLeft
    end in
  let exprIsArrayTy := nonEmpty offs2 in
  if isArrayTy tLeft && negb exprIsArrayTy then
    if nonEmpty offs1 then
      (code ++ [instruction.XLOAD addr1 offs1 addr2], v)
    else
      let '(addr1, code, v) := porReferencia addr1 code v in
      let '(addr2, code, v) := porReferencia addr2 code v in
      let arraySize := getArraySize tLeft in
      let '(n, v) := newTEMP v in
      let tempOffs := "%" +:+ n in
      let '(n, v) := newTEMP v in
      let tempRight := "%" +:+ n in
      (copyArray addr1 addr2 tempOffs tempRight 0 arraySize code, v)
  else if negb (isArrayTy tLeft) && exprIsArrayTy then
    let '(addr2, code, v) := porReferencia addr2 code v in
    (code ++ [instruction.LOADX addr1 addr2 offs2], v)
  else if isArrayTy tLeft && exprIsArrayTy then
    let '(addr1, code, v) := porReferencia addr1 code v in
    let '(addr2, code, v) := porReferencia addr2 code v in
    let '(n, v) := newTEMP v in
    let tempRight := "%" +:+ n in
    (code ++ [instruction.LOADX tempRight addr2 offs2;
              instruction.XLOAD addr1 offs1 tempRight], v)
  else if isFloatTy tRight then
    (code ++ [instruction.FLOAD addr1 addr2], v)
  else if isCharacterTy tRight then
    (code ++ [instruction.CHLOAD addr1 addr2], v)
  else
    (code ++ [instruction.ILOAD addr1 addr2], v).

Definition visitProcCall (ctx : Node) (function_call : Function_callContext ExprContext)
    (v : CGState) : instructionList * CGState :=
  let '(codAts, v) := visitFunction_call visit_expr function_call v in
  let addr := addr codAts in
  let code := code codAts in
  (code, v).

Definition visitReadStmt (ctx : Node) (left_expr : Left_exprContext) (v : CGState)
    : instructionList * CGState :=
  let '(codAtsE, v) := visitLeft_expr visit_expr left_expr v in
  let addr1 := addr codAtsE in
  let offs1 := offs codAtsE in
  let code1 := code codAtsE in
  let code := code1 in
  let tid := getTypeDecor (left_expr_ctx left_expr) v in
  let temp := addr1 in
  let '(temp, v) :=
    if nonEmpty offs1 then
      let '(n, v) := newTEMP v in ("%" +:+ n, v)
    else (temp, v) in
  let code :=
    if isFloatTy tid then code ++ [instruction.READF temp]
    else if isCharacterTy tid then code ++ [instruction.READC temp]
    else code ++ [instruction.READI temp] in
  let code :=
    if nonEmpty offs1 then code ++ [instruction.XLOAD addr1 offs1 temp] else code in
  (code, v).

Definition visitWriteExpr (ctx : Node) (expr : ExprContext) (v : CGState)
    : instructionList * CGState :=
  let '(codAt1, v) := visit_expr expr v in
  let addr1 := addr codAt1 in
  let offs1 := offs codAt1 in
  let code1 := code codAt1 in
  let code := code1 in
  let tid1 := getTypeDecor (exprCtx expr) v in
  let '(temp, code, v) := loadIndexed addr1 offs1 code v in
  let code :=
    if isFloatTy tid1 then code ++ [instruction.WRITEF temp]
    else if isCharacterTy tid1 then code ++ [instruction.WRITEC temp]
    else code ++ [instruction.WRITEI temp] in
  (code, v).

Definition visitWriteString (ctx : Node) (STRING : string) (v : CGState)
    : instructionList * CGState :=
  let code := [] in
  let s := STRING in
  (code ++ [instruction.WRITES s], v).

Definition visitReturnStmt (ctx : Node) (expr : option ExprContext) (v : CGState)
    : instructionList * CGState :=
  let code := [] in
  match expr with
  | Some e =>
      let '(codAt1, v) := visit_expr e v in
      let addr1 := addr codAt1 in
      let code1 := CodeGen.code codAt1 in
      (code ++ code1 ++ [instruction.LOAD "_result" addr1; instruction.RETURN], v)
  | None => ([instruction.RETURN], v)
  end.

Section VisitStatements.
(** [visit(ctx->statements(i))]. *)
Variable visit : StatementsCtx → CGState → instructionList * CGState.

Definition visitIfStmt (ctx : Node) (expr : ExprContext)
    (statements0 : StatementsCtx) (statements1 : option StatementsCtx)
    (v : CGState) : instructionList * CGState :=
  let code := [] in
  let '(codAtsE, v) := visit_expr expr v in
  let addr1 := addr codAtsE in
  let offs1 := offs codAtsE in
  let conditionCode := CodeGen.code codAtsE in
  let code := code ++ conditionCode in
  let '(addr1, code, v) :=
    if nonEmpty offs1 then
      let '(addr1, code, v) := porReferencia addr1 code v in
      (addr1, code ++ [instruction.LOADX addr1 addr1 offs1], v)
    else (addr1, code, v) in
  let '(thenCode, v) := visit statements0 v in
  let '(label, v) := newLabelIF v in
  let labelElse := "else" +:+ label in
  let labelEndIf := "endif" +:+ label in
  match statements1 with
  | Some s1 =>
      let '(elseCode, v) := visit s1 v in
      (code ++ [instruction.FJUMP addr1 labelElse]
            ++ thenCode ++ [instruction.UJUMP labelEndIf]
            ++ [instruction.LABEL labelElse] ++ elseCode
            ++ [instruction.LABEL labelEndIf], v)
  | None =>
      (code ++ [instruction.FJUMP addr1 labelEndIf] ++ thenCode
            ++ [instruction.LABEL labelEndIf], v)
  end.

Definition visitWhileStmt (ctx : Node) (expr : ExprContext)
    (statements : StatementsCtx) (v : CGState) : instructionList * CGState :=
  let '(codAtsE, v) := visit_expr expr v in
  let addr1 := addr codAtsE in
  let code1 := code codAtsE in
  let '(code2, v) := visit statements v in
  let '(label, v) := newLabelWHILE v in
  let labelWhile := "while" +:+ label in
  let labelEndWhile := "endwhile" +:+ label in
  ([instruction.LABEL labelWhile] ++ code1
     ++ [instruction.FJUMP addr1 labelEndWhile] ++ code2
     ++ [instruction.UJUMP labelWhile] ++ [instruction.LABEL labelEndWhile], v).

End VisitStatements.

(** [for (auto stCtx : ctx->statement()) code = code || visit(stCtx);] *)
Definition visitStatements
    (visit : StatementContext → CGState → instructionList * CGState)
    (ctx : StatementsCtx) (v : CGState) : instructionList * CGState :=
  fold_left (λ '(code, v) stCtx, let '(codeS, v) := visit stCtx v in (code ++ codeS, v))
    (statements_statement ctx) ([], v).

(** [visit] on a statement node. *)
Fixpoint visit_statement (s : StatementContext) : CGState → instructionList * CGState :=
  match s with
  | AssignStmt ctx left_expr expr => visitAssignStmt ctx left_expr expr
  | IfStmt ctx expr statements0 statements1 =>
      visitIfStmt (visitStatements visit_statement) ctx expr statements0 statements1
  | WhileStmt ctx expr statements =>
      visitWhileStmt (visitStatements visit_statement) ctx expr statements
  | ProcCall ctx function_call => visitProcCall ctx function_call
  | ReadStmt ctx left_expr => visitReadStmt ctx left_expr
  | WriteExpr ctx expr => visitWriteExpr ctx expr
  | WriteString ctx STRING => visitWriteString ctx STRING
  | ReturnStmt ctx expr => visitReturnStmt ctx expr
  end.

Section Subroutines.
(** [Types.to_string]: "the textual type tag written into TAC"; the tags
    are not in the sources. *)
Variable to_string : TypeId → string.

Definition visitParameter (ctx : ParameterContext) (v : CGState) : var * CGState :=
  let t1 := getTypeDecor (type_ctx (parameter_type ctx)) v in
  let size := getSizeOfType t1 in
  let t1 := if isArrayTy t1 then getArrayElemType t1 else t1 in
  ({| var_name := parameter_ID ctx; var_type := to_string t1; var_nelem := size |}, v).

Definition visitVariable_decl (ctx : Variable_declContext) (v : CGState)
    : list var * CGState :=
  let t1 := getTypeDecor (type_ctx (variable_decl_type ctx)) v in
  let size := getSizeOfType t1 in
  let variables := [] in
  let '(t1, variables) :=
    fold_left
      (λ '(t1, variables) id,
         let t1 := if isArrayTy t1 then getArrayElemType t1 else t1 in
         let variable := {| var_name := id; var_type := to_string t1; var_nelem := size |} in
         (t1, variables ++ [variable]))
      (variable_decl_ID ctx) (t1, variables) in
  (variables, v).

Definition visitDeclarations (ctx : DeclarationsContext) (v : CGState)
    : list var * CGState :=
  fold_left
    (λ '(lvars, v) varDeclCtx,
       let '(onevars, v) := visitVariable_decl varDeclCtx v in
       (lvars ++ onevars, v))
    (declarations_variable_decl ctx) ([], v).

Definition visitFunction (ctx : FunctionCtx) (v : CGState) : subroutine * CGState :=
  let sc := getScopeDecor (function_ctx ctx) v in
  let v := withSymbols (SymTable.pushThisScope sc) v in
  let subr := subroutine.new (function_ID ctx) in
  let v := resetCounters v in
  let subr :=
    match function_basic_type ctx with
    | Some basic_type =>
        let tRet := getTypeDecor (basic_ctx basic_type) v in
        subroutine.add_param "_result" (to_string tRet) false subr
    | None => subr
    end in
  let '(subr, v) :=
    fold_left
      (λ '(subr, v) ctxParam,
         let '(param, v) := visitParameter ctxParam v in
         let tParam := getTypeDecor (parameter_ctx ctxParam) v in
         let isArray := isArrayTy tParam in
         (subroutine.add_param (var_name param) (var_type param) isArray subr, v))
      (function_parameter ctx) (subr, v) in
  let '(lvars, v) := visitDeclarations (function_declarations ctx) v in
  let subr := fold_left (λ subr onevar, subroutine.add_var onevar subr) lvars subr in
  let '(code, v) := visitStatements visit_statement (function_statements ctx) v in
  let code := code ++ [instruction.RETURN] in
  let subr := subroutine.set_instructions code subr in
  let v := withSymbols SymTable.popScope v in
  (subr, v).

Definition visitProgram (ctx : ProgramCtx) (v : CGState) : code_t * CGState :=
  let my_code := [] in
  let sc := getScopeDecor (program_ctx ctx) v in
  let v := withSymbols (SymTable.pushThisScope sc) v in
  let '(my_code, v) :=
    fold_left
      (λ '(my_code, v) ctxFunc,
         let '(subr, v) := visitFunction ctxFunc v in (my_code ++ [subr], v))
      (program_function ctx) (my_code, v) in
  let v := withSymbols SymTable.popScope v in
  (my_code, v).

End Subroutines.

End CodeGenVisitor.

End Examen.

(* ================================================================== *)
(** ** src/practica/asl and src/CL-lab/practica/asl *)
(* ================================================================== *)

Module Practica.
Import AslParser.

(** [array : ident '[' expr ']'], over the type [E] of expressions. *)
Record ArrayContext (E : Type) := {
  array_ctx : Node;
  array_ident : IdentContext;
  array_expr : E
}.
Global Arguments array_ctx {E} _.
Global Arguments array_ident {E} _.
Global Arguments array_expr {E} _.

Inductive ExprContext :=
| Parenthesis (ctx : Node) (expr : ExprContext)
| ExprFunc (ctx : Node) (function_call : Function_callContext ExprContext)
| Unary (ctx : Node) (op : UnaryOp) (expr : ExprContext)
| Arithmetic (ctx : Node) (op : ArithOp) (expr0 expr1 : ExprContext)
| Relational (ctx : Node) (op : RelOp) (expr0 expr1 : ExprContext)
| Logical (ctx : Node) (op : LogOp) (expr0 expr1 : ExprContext)
| ArrayAccess (ctx : Node) (array : ArrayContext ExprContext)
| Value (ctx : Node) (tk : ValueToken)
| ExprIdent (ctx : Node) (ident : IdentContext).

Definition exprCtx (e : ExprContext) : Node :=
  match e with
  | Parenthesis ctx _ | ExprFunc ctx _ | Unary ctx _ _
  | Arithmetic ctx _ _ _ | Relational ctx _ _ _ | Logical ctx _ _ _
  | ArrayAccess ctx _ | Value ctx _ | ExprIdent ctx _ => ctx
  end.

Inductive Left_exprContext :=
| LeftExprIdent (ctx : Node) (ident : IdentContext)
| LeftArrayAccess (ctx : Node) (array : ArrayContext ExprContext).

Definition left_exprCtx (l : Left_exprContext) : Node :=
  match l with LeftExprIdent ctx _ | LeftArrayAccess ctx _ => ctx end.

Inductive StatementContext :=
| AssignStmt (ctx : Node) (left_expr : Left_exprContext) (expr : ExprContext)
| IfStmt (ctx : Node) (expr : ExprContext)
    (statements0 : StatementsContext StatementContext)
    (statements1 : option (StatementsContext StatementContext))
| WhileStmt (ctx : Node) (expr : ExprContext)
    (statements : StatementsContext StatementContext)
| ProcCall (ctx : Node) (function_call : Function_callContext ExprContext)
| ReadStmt (ctx : Node) (left_expr : Left_exprContext)
| WriteExpr (ctx : Node) (expr : ExprContext)
| WriteString (ctx : Node) (STRING : string)
| ReturnStmt (ctx : Node) (expr : option ExprContext).

Abbreviation StatementsCtx := (StatementsContext StatementContext).
Abbreviation FunctionCtx := (FunctionContext StatementsCtx).
Abbreviation ProgramCtx := (ProgramContext StatementsCtx).

(** [visit] on each element of a list in turn; [None] as soon as one
    visit does not return. *)
Fixpoint visitEach {A St : Type} (visit : A → St → option St) (l : list A) (v : St)
    : option St :=
  match l with
  | [] => Some v
  | x :: l' => v ← visit x v; visitEach visit l' v
  end.

(* ------------------------------------------------------------------ *)
(** *** src/CL-lab/practica/asl/TypeCheckVisitor.cpp *)
(* ------------------------------------------------------------------ *)

(** A visit of this snapshot can fail to return: [visitFunction_call]
    visits [ctx->expr(i)] for every formal parameter, and for a call with
    fewer arguments that child is a null pointer.  The methods are
    functions to [option]; [None] is the visit that does not return. *)
Module TypeCheckVisitor.
Import TypesMgr TypeCheck.

Definition visitIdent (ctx : IdentContext) (v : TCState) : TCState :=
  let ident := ident_ID ctx in
  if (SymTable.findInStack ident (tc_Symbols v) =? -1)%Z then
    let v := withErrors (SemErrors.undeclaredIdent (AtToken (ident_ctx ctx) tID)) v in
    let te := createErrorTy in
    let v := putTypeDecor (ident_ctx ctx) te v in
    putIsLValueDecor (ident_ctx ctx) true v
  else
    let t1 := SymTable.getType ident (tc_Symbols v) in
    let v := putTypeDecor (ident_ctx ctx) t1 v in
    if SymTable.isFunctionClass ident (tc_Symbols v)
    then putIsLValueDecor (ident_ctx ctx) false v
    else putIsLValueDecor (ident_ctx ctx) true v.

Definition visitValue (ctx : Node) (tk : ValueToken) (v : TCState) : TCState :=
  let v :=
    match tk with
    | INTVAL _ => putTypeDecor ctx createIntegerTy v
    | FLOATVAL _ => putTypeDecor ctx createFloatTy v
    | BOOLVAL _ => putTypeDecor ctx createBooleanTy v
    | CHARVAL _ => putTypeDecor ctx createCharacterTy v
    end in
  putIsLValueDecor ctx false v.

Definition visitExprIdent (ctx : Node) (ident : IdentContext) (v : TCState) : TCState :=
  let v := visitIdent ident v in
  let t1 := getTypeDecor (ident_ctx ident) v in
  let v := putTypeDecor ctx t1 v in
  let b := getIsLValueDecor (ident_ctx ident) v in
  putIsLValueDecor ctx b v.

Definition visitLeftExprIdent (ctx : Node) (ident : IdentContext) (v : TCState) : TCState :=
  let v := visitIdent ident v in
  let t1 := getTypeDecor (ident_ctx ident) v in
  let v := putTypeDecor ctx t1 v in
  let b := getIsLValueDecor (ident_ctx ident) v in
  putIsLValueDecor ctx b v.

Section Visit.
(** [visit(ctx->expr())]. *)
Variable visit : ExprContext → TCState → option TCState.

(** [for (i = 0; i < numOfExpr; ++i) visit(ctx->expr(i));] with
    [numOfExpr] the number of formal parameters: [ctx->expr(i)] is null
    once the arguments are used up. *)
Fixpoint visitParameters (numOfExpr : nat) (exprs : list ExprContext) (v : TCState)
    {struct exprs} : option TCState :=
  match exprs, numOfExpr with
  | _, 0 => Some v
  | [], S _ => None
  | e :: exprs', S n => v ← visit e v; visitParameters n exprs' v
  end.

Definition visitParenthesis (ctx : Node) (expr : ExprContext) (v : TCState)
    : option TCState :=
  v ← visit expr v;
  let t1 := getTypeDecor (exprCtx expr) v in
  let v := putTypeDecor ctx t1 v in
  Some (putIsLValueDecor ctx false v).

Definition visitFunction_call (ctx : Function_callContext ExprContext) (v : TCState)
    : option TCState :=
  let ident := function_call_ident ctx in
  let v := visitIdent ident v in
  let tFunc := getTypeDecor (ident_ctx ident) v in
  let v := errorIf (negb (isFunctionTy tFunc) && negb (isErrorTy tFunc))
             SemErrors.isNotCallable (AtNode (ident_ctx ident)) v in
  if isFunctionTy tFunc && negb (isErrorTy tFunc) then
    let tRet := getFuncReturnType tFunc in
    let v := putTypeDecor (function_call_ctx ctx) tRet v in
    let b := getIsLValueDecor (ident_ctx ident) v in
    let v := putIsLValueDecor (function_call_ctx ctx) b v in
    let numOfExpr := getNumOfParameters tFunc in
    visitParameters numOfExpr (function_call_expr ctx) v
  else Some v.

Definition visitExprFunc (ctx : Node) (function_call : Function_callContext ExprContext)
    (v : TCState) : option TCState :=
  v ← visitFunction_call function_call v;
  let tFunc := getTypeDecor (function_call_ctx function_call) v in
  let b := getIsLValueDecor (function_call_ctx function_call) v in
  let '(v, tFunc, b) :=
    if isVoidTy tFunc then
      (withErrors (SemErrors.isNotFunction (AtNode (function_call_ctx function_call))) v,
       createErrorTy, false)
    else (v, tFunc, b) in
  let v := putTypeDecor ctx tFunc v in
  Some (putIsLValueDecor ctx b v).

Definition visitUnary (ctx : Node) (op : UnaryOp) (expr : ExprContext) (v : TCState)
    : option TCState :=
  v ← visit expr v;
  let t1 := getTypeDecor (exprCtx expr) v in
  let v :=
    match op with
    | NOT =>
        errorIf (negb (isErrorTy t1) && negb (isBooleanTy t1))
          SemErrors.incompatibleOperator (AtToken ctx tOP) v
    | _ =>
        errorIf (negb (isErrorTy t1) && negb (isNumericTy t1))
          SemErrors.incompatibleOperator (AtToken ctx tOP) v
    end in
  let v := putTypeDecor ctx t1 v in
  Some (putIsLValueDecor ctx false v).

Definition visitArithmetic (ctx : Node) (op : ArithOp) (expr0 expr1 : ExprContext)
    (v : TCState) : option TCState :=
  v ← visit expr0 v;
  let t1 := getTypeDecor (exprCtx expr0) v in
  v ← visit expr1 v;
  let t2 := getTypeDecor (exprCtx expr1) v in
  let v := errorIf ((negb (isErrorTy t1) && negb (isNumericTy t1))
                    || (negb (isErrorTy t2) && negb (isNumericTy t2)))
             SemErrors.incompatibleOperator (AtToken ctx tOP) v in
  let t := getTypeCoercion t1 t2 in
  let v := putTypeDecor ctx t v in
  Some (putIsLValueDecor ctx false v).

Definition visitRelational (ctx : Node) (op : RelOp) (expr0 expr1 : ExprContext)
    (v : TCState) : option TCState :=
  v ← visit expr0 v;
  let t1 := getTypeDecor (exprCtx expr0) v in
  v ← visit expr1 v;
  let t2 := getTypeDecor (exprCtx expr1) v in
  let oper := relText op in
  let v := errorIf (negb (isErrorTy t1) && negb (isErrorTy t2)
                    && negb (comparableTypes t1 t2 oper))
             SemErrors.incompatibleOperator (AtToken ctx tOP) v in
  let t := createBooleanTy in
  let v := putTypeDecor ctx t v in
  Some (putIsLValueDecor ctx false v).

Definition visitLogical (ctx : Node) (op : LogOp) (expr0 expr1 : ExprContext)
    (v : TCState) : option TCState :=
  v ← visit expr0 v;
  let t1 := getTypeDecor (exprCtx expr0) v in
  v ← visit expr1 v;
  let t2 := getTypeDecor (exprCtx expr1) v in
  let v := errorIf ((negb (isErrorTy t1) && negb (isBooleanTy t1))
                    || (negb (isErrorTy t2) && negb (isBooleanTy t2)))
             SemErrors.incompatibleOperator (AtToken ctx tOP) v in
  let t := createBooleanTy in
  let v := putTypeDecor ctx t v in
  Some (putIsLValueDecor ctx false v).

Definition visitArray (ctx : ArrayContext ExprContext) (v : TCState) : option TCState :=
  let v := visitIdent (array_ident ctx) v in
  let t1 := getTypeDecor (ident_ctx (array_ident ctx)) v in
  let v := errorIf (negb (isErrorTy t1) && negb (isArrayTy t1))
             SemErrors.nonArrayInArrayAccess (AtNode (array_ctx ctx)) v in
  v ← visit (array_expr ctx) v;
  let t2 := getTypeDecor (exprCtx (array_expr ctx)) v in
  let v := errorIf (negb (isErrorTy t2) && negb (isIntegerTy t2))
             SemErrors.nonIntegerIndexInArrayAccess (AtNode (exprCtx (array_expr ctx))) v in
  let t3 := createErrorTy in
  let isLValue := false in
  let '(t3, isLValue) :=
    if isArrayTy t1 then (getArrayElemType t1, true) else (t3, isLValue) in
  let v := putTypeDecor (array_ctx ctx) t3 v in
  Some (putIsLValueDecor (array_ctx ctx) isLValue v).

Definition visitArrayAccess (ctx : Node) (array : ArrayContext ExprContext)
    (v : TCState) : option TCState :=
  v ← visitArray array v;
  let t1 := getTypeDecor (array_ctx array) v in
  let v := putTypeDecor ctx t1 v in
  let b := getIsLValueDecor (array_ctx array) v in
  Some (putIsLValueDecor ctx b v).

Definition visitLeftArrayAccess (ctx : Node) (array : ArrayContext ExprContext)
    (v : TCState) : option TCState :=
  v ← visitArray array v;
  let t1 := getTypeDecor (array_ctx array) v in
  let v := putTypeDecor ctx t1 v in
  let b := getIsLValueDecor (array_ctx array) v in
  Some (putIsLValueDecor ctx b v).

(** [visit(ctx->left_expr())]. *)
Definition visit_left_expr (l : Left_exprContext) (v : TCState) : option TCState :=
  match l with
  | LeftExprIdent ctx ident => Some (visitLeftExprIdent ctx ident v)
  | LeftArrayAccess ctx array => visitLeftArrayAccess ctx array v
  end.

Definition visitAssignStmt (ctx : Node) (left_expr : Left_exprContext)
    (expr : ExprContext) (v : TCState) : option TCState :=
  v ← visit_left_expr left_expr v;
  v ← visit expr v;
  let t1 := getTypeDecor (left_exprCtx left_expr) v in
  let t2 := getTypeDecor (exprCtx expr) v in
  let v := errorIf (negb (isErrorTy t1) && negb (isErrorTy t2)
                    && negb (copyableTypes t1 t2))
             SemErrors.incompatibleAssignment (AtToken ctx tASSIGN) v in
  Some (errorIf (negb (isErrorTy t1) && negb (getIsLValueDecor (left_exprCtx left_expr) v))
          SemErrors.nonReferenceableLeftExpr (AtNode (left_exprCtx left_expr)) v).

Definition visitReturnStmt (ctx : Node) (expr : option ExprContext) (v : TCState)
    : option TCState :=
  let t1 := createVoidTy in
  '(v, t1) ←
    match expr with
    | Some e => v ← visit e v; Some (v, getTypeDecor (exprCtx e) v)
    | None => Some (v, t1)
    end;
  let t2 := getCurrentFunctionTy v in
  if negb (isErrorTy t2) then
    let ret := getFuncReturnType t2 in
    Some (errorIf (negb (copyableTypes t1 ret))
            SemErrors.incompatibleReturn (AtToken ctx tRETURN) v)
  else Some v.

Definition visitProcCall (ctx : Node) (function_call : Function_callContext ExprContext)
    (v : TCState) : option TCState :=
  visitFunction_call function_call v.

Definition visitReadStmt (ctx : Node) (left_expr : Left_exprContext) (v : TCState)
    : option TCState :=
  v ← visit_left_expr left_expr v;
  let t1 := getTypeDecor (left_exprCtx left_expr) v in
  let v := errorIf (negb (isErrorTy t1) && negb (isPrimitiveTy t1)
                    && negb (isFunctionTy t1))
             SemErrors.readWriteRequireBasic (AtNode ctx) v in
  Some (errorIf (negb (isErrorTy t1) && negb (getIsLValueDecor (left_exprCtx left_expr) v))
          SemErrors.nonReferenceableExpression (AtNode ctx) v).

Definition visitWriteExpr (ctx : Node) (expr : ExprContext) (v : TCState)
    : option TCState :=
  v ← visit expr v;
  let t1 := getTypeDecor (exprCtx expr) v in
  Some (errorIf (negb (isErrorTy t1) && negb (isPrimitiveTy t1))
          SemErrors.readWriteRequireBasic (AtNode ctx) v).

End Visit.

(** [visit] on an expression node. *)
Fixpoint visit_expr (e : ExprContext) : TCState → option TCState :=
  match e with
  | Parenthesis ctx expr => visitParenthesis visit_expr ctx expr
  | ExprFunc ctx function_call => visitExprFunc visit_expr ctx function_call
  | Unary ctx op expr => visitUnary visit_expr ctx op expr
  | Arithmetic ctx op expr0 expr1 => visitArithmetic visit_expr ctx op expr0 expr1
  | Relational ctx op expr0 expr1 => visitRelational visit_expr ctx op expr0 expr1
  | Logical ctx op expr0 expr1 => visitLogical visit_expr ctx op expr0 expr1
  | ArrayAccess ctx array => visitArrayAccess visit_expr ctx array
  | Value ctx tk => λ v, Some (visitValue ctx tk v)
  | ExprIdent ctx ident => λ v, Some (visitExprIdent ctx ident v)
  end.

Section VisitStatements.
(** [visit(ctx->statements(i))]. *)
Variable visit : StatementsCtx → TCState → option TCState.

Definition visitIfStmt (ctx : Node) (expr : ExprContext)
    (statements0 : StatementsCtx) (statements1 : option StatementsCtx)
    (v : TCState) : option TCState :=
  v ← visit_expr expr v;
  let t1 := getTypeDecor (exprCtx expr) v in
  let v := errorIf (negb (isErrorTy t1) && negb (isBooleanTy t1))
             SemErrors.booleanRequired (AtNode ctx) v in
  v ← visit statements0 v;
  match statements1 with
  | Some s1 => visit s1 v
  | None => Some v
  end.

Definition visitWhileStmt (ctx : Node) (expr : ExprContext)
    (statements : StatementsCtx) (v : TCState) : option TCState :=
  v ← visit_expr expr v;
  let t1 := getTypeDecor (exprCtx expr) v in
  let v := errorIf (negb (isErrorTy t1) && negb (isBooleanTy t1))
             SemErrors.booleanRequired (AtNode ctx) v in
  visit statements v.

End VisitStatements.

(** [visitStatements] is [visitChildren]: every statement in turn. *)
Definition visitStatements (visit : StatementContext → TCState → option TCState)
    (ctx : StatementsCtx) (v : TCState) : option TCState :=
  visitEach visit (statements_statement ctx) v.

(** [visit] on a statement node. *)
Fixpoint visit_statement (s : StatementContext) : TCState → option TCState :=
  match s with
  | AssignStmt ctx left_expr expr => visitAssignStmt visit_expr ctx left_expr expr
  | IfStmt ctx expr statements0 statements1 =>
      visitIfStmt (visitStatements visit_statement) ctx expr statements0 statements1
  | WhileStmt ctx expr statements =>
      visitWhileStmt (visitStatements visit_statement) ctx expr statements
  | ProcCall ctx function_call => visitProcCall visit_expr ctx function_call
  | ReadStmt ctx left_expr => visitReadStmt visit_expr ctx left_expr
  | WriteExpr ctx expr => visitWriteExpr visit_expr ctx expr
  | WriteString ctx _ => λ v, Some v
  | ReturnStmt ctx expr => visitReturnStmt visit_expr ctx expr
  end.

Definition visitFunction (ctx : FunctionCtx) (v : TCState) : option TCState :=
  let sc := getScopeDecor (function_ctx ctx) v in
  let v := withSymbols (SymTable.pushThisScope sc) v in
  let t1 := getTypeDecor (function_ctx ctx) v in
  let v := setCurrentFunctionTy t1 v in
  v ← visitStatements visit_statement (function_statements ctx) v;
  Some (withSymbols SymTable.popScope v).

Definition visitProgram (ctx : ProgramCtx) (v : TCState) : option TCState :=
  let sc := getScopeDecor (program_ctx ctx) v in
  let v := withSymbols (SymTable.pushThisScope sc) v in
  v ← visitEach visitFunction (program_function ctx) v;
  let v := errorIf (SymTable.noMainProperlyDeclared (tc_Symbols v))
             SemErrors.noMainProperlyDeclared (AtNode (program_ctx ctx)) v in
  Some (withSymbols SymTable.popScope v).

End TypeCheckVisitor.

(* ------------------------------------------------------------------ *)
(** *** src/practica/asl/CodeGenVisitor.cpp *)
(* ------------------------------------------------------------------ *)

(** [visitArray] of this snapshot returns the integer [0], and its two
    callers read the result of [visit(ctx->array())] as a [CodeAttribs]:
    that conversion throws.  The methods are functions to [option];
    [None] is the visit that does not return. *)
Module CodeGenVisitor.
Import TypesMgr CodeGen.

Definition visitIdent (ctx : IdentContext) (v : CGState) : CodeAttribs * CGState :=
  ({| addr := ident_ID ctx; offs := ""; code := [] |}, v).

Definition visitValue (ctx : Node) (tk : ValueToken) (v : CGState)
    : CodeAttribs * CGState :=
  let '(n, v) := newTEMP v in
  let temp := "%" +:+ n in
  let code :=
    match tk with
    | INTVAL _ => [instruction.ILOAD temp (valueText tk)]
    | FLOATVAL _ => [instruction.FLOAD temp (valueText tk)]
    | CHARVAL _ => [instruction.CHLOAD temp (valueText tk)]
    | BOOLVAL _ =>
        let value := "1" in
        let value := if String.eqb (valueText tk) "false" then "0" else value in
        [instruction.ILOAD temp value]
    end in
  ({| addr := temp; offs := ""; code := code |}, v).

(** "return 0": no [CodeAttribs] comes back. *)
Definition visitArray {E : Type} (ctx : ArrayContext E) (v : CGState)
    : option (CodeAttribs * CGState) :=
  None.

Section Visit.
(** [visit(ctx->expr())]. *)
Variable visit : ExprContext → CGState → option (CodeAttribs * CGState).

Definition visitParenthesis (ctx : Node) (expr : ExprContext) (v : CGState)
    : option (CodeAttribs * CGState) :=
  visit expr v.

Definition visitExprIdent (ctx : Node) (ident : IdentContext) (v : CGState)
    : option (CodeAttribs * CGState) :=
  Some (visitIdent ident v).

Definition visitLeftExprIdent (ctx : Node) (ident : IdentContext) (v : CGState)
    : option (CodeAttribs * CGState) :=
  Some (visitIdent ident v).

Definition visitLeftArrayAccess (ctx : Node) (array : ArrayContext ExprContext)
    (v : CGState) : option (CodeAttribs * CGState) :=
  visitArray array v.

Definition visitArrayAccess (ctx : Node) (array : ArrayContext ExprContext)
    (v : CGState) : option (CodeAttribs * CGState) :=
  visitArray array v.

(** [visit(ctx->left_expr())]. *)
Definition visit_left_expr (l : Left_exprContext) (v : CGState)
    : option (CodeAttribs * CGState) :=
  match l with
  | LeftExprIdent ctx ident => visitLeftExprIdent ctx ident v
  | LeftArrayAccess ctx array => visitLeftArrayAccess ctx array v
  end.

Definition visitUnary (ctx : Node) (op : UnaryOp) (expr : ExprContext) (v : CGState)
    : option (CodeAttribs * CGState) :=
  '(codAts1, v) ← visit expr v;
  let addr := addr codAts1 in
  let code := code codAts1 in
  let t1 := getTypeDecor (exprCtx expr) v in
  let '(n, v) := newTEMP v in
  let temp := "%" +:+ n in
  let '(temp, code) :=
    match op with
    | NOT => (temp, code ++ [instruction.NOT temp addr])
    | UPLUS => (addr, code)
    | UMINUS =>
        if isFloatTy t1 then (temp, code ++ [instruction.FNEG temp addr])
        else (temp, code ++ [instruction.NEG temp addr])
    end in
  Some ({| addr := temp; offs := ""; code := code |}, v).

Definition visitArithmetic (ctx : Node) (op : ArithOp) (expr0 expr1 : ExprContext)
    (v : CGState) : option (CodeAttribs * CGState) :=
  '(codAt1, v) ← visit expr0 v;
  let addr1 := addr codAt1 in
  '(codAt2, v) ← visit expr1 v;
  let addr2 := addr codAt2 in
  let code := code codAt1 ++ code codAt2 in
  let t1 := getTypeDecor (exprCtx expr0) v in
  let t2 := getTypeDecor (exprCtx expr1) v in
  let '(n, v) := newTEMP v in
  let temp := "%" +:+ n in
  if isIntegerTy t1 && isIntegerTy t2 then
    match op with
    | MUL => Some ({| addr := temp; offs := "";
                      code := code ++ [instruction.MUL temp addr1 addr2] |}, v)
    | DIV => Some ({| addr := temp; offs := "";
                      code := code ++ [instruction.DIV temp addr1 addr2] |}, v)
    | MOD =>
        let '(n, v) := newTEMP v in
        let temp2 := "%" +:+ n in
        let '(n, v) := newTEMP v in
        let temp3 := "%" +:+ n in
        Some ({| addr := temp; offs := "";
                 code := code ++ [instruction.DIV temp2 addr1 addr2;
                                  instruction.MUL temp3 addr2 temp2;
                                  instruction.SUB temp addr1 temp3] |}, v)
    | PLUS => Some ({| addr := temp; offs := "";
                       code := code ++ [instruction.ADD temp addr1 addr2] |}, v)
    | MINUS => Some ({| addr := temp; offs := "";
                        code := code ++ [instruction.SUB temp addr1 addr2] |}, v)
    end
  else
    let tempAddr1 := addr1 in
    let tempAddr2 := addr2 in
    let '(tempAddr1, code, v) :=
      if isIntegerTy t1 then
        let '(n, v) := newTEMP v in
        let tempAddr1 := "%" +:+ n in
        (tempAddr1, code ++ [instruction.FLOAT tempAddr1 addr1], v)
      else (tempAddr1, code, v) in
    let '(tempAddr2, code, v) :=
      if isIntegerTy t2 then
        let '(n, v) := newTEMP v in
        let tempAddr2 := "%" +:+ n in
        (tempAddr2, code ++ [instruction.FLOAT tempAddr2 addr2], v)
      else (tempAddr2, code, v) in
    match op with
    | MUL => Some ({| addr := temp; offs := "";
                      code := code ++ [instruction.FMUL temp tempAddr1 tempAddr2] |}, v)
    | DIV => Some ({| addr := temp; offs := "";
                      code := code ++ [instruction.FDIV temp tempAddr1 tempAddr2] |}, v)
    | MOD =>
        let '(n, v) := newTEMP v in
        let temp2 := "%" +:+ n in
        let '(n, v) := newTEMP v in
        let temp3 := "%" +:+ n in
        Some ({| addr := temp; offs := "";
                 code := code ++ [instruction.FDIV temp2 tempAddr1 tempAddr2;
                                  instruction.FMUL temp3 tempAddr2 temp2;
                                  instruction.FSUB temp tempAddr1 temp3] |}, v)
    | PLUS => Some ({| addr := temp; offs := "";
                       code := code ++ [instruction.FADD temp tempAddr1 tempAddr2] |}, v)
    | MINUS => Some ({| addr := temp; offs := "";
                        code := code ++ [instruction.FSUB temp tempAddr1 tempAddr2] |}, v)
    end.

Definition visitRelational (ctx : Node) (op : RelOp) (expr0 expr1 : ExprContext)
    (v : CGState) : option (CodeAttribs * CGState) :=
  '(codAt1, v) ← visit expr0 v;
  let addr1 := addr codAt1 in
  '(codAt2, v) ← visit expr1 v;
  let addr2 := addr codAt2 in
  let code := code codAt1 ++ code codAt2 in
  let t1 := getTypeDecor (exprCtx expr0) v in
  let t2 := getTypeDecor (exprCtx expr1) v in
  let '(n, v) := newTEMP v in
  let temp := "%" +:+ n in
  if isIntegerTy t1 && isIntegerTy t2 then
    let code :=
      match op with
      | EQUAL => code ++ [instruction.EQ temp addr1 addr2]
      | DIFF => code ++ [instruction.EQ temp addr1 addr2; instruction.NOT temp temp]
      | GT => code ++ [instruction.LT temp addr2 addr1]
      | LT => code ++ [instruction.LT temp addr1 addr2]
      | GTE => code ++ [instruction.LE temp addr2 addr1]
      | LTE => code ++ [instruction.LE temp addr1 addr2]
      end in
    Some ({| addr := temp; offs := ""; code := code |}, v)
  else
    let code :=
      if isFloatTy t1 then code ++ [instruction.FLOAT addr1 addr1]
      else code ++ [instruction.FLOAT addr2 addr2] in
    let code :=
      match op with
      | EQUAL => code ++ [instruction.FEQ temp addr1 addr2]
      | DIFF => code ++ [instruction.FEQ temp addr1 addr2; instruction.NOT temp temp]
      | GT => code ++ [instruction.FLT temp addr2 addr1]
      | LT => code ++ [instruction.FLT temp addr1 addr2]
      | GTE => code ++ [instruction.FLE temp addr2 addr1]
      | LTE => code ++ [instruction.FLE temp addr1 addr2]
      end in
    Some ({| addr := temp; offs := ""; code := code |}, v).

Definition visitLogical (ctx : Node) (op : LogOp) (expr0 expr1 : ExprContext)
    (v : CGState) : option (CodeAttribs * CGState) :=
  '(codAt1, v) ← visit expr0 v;
  let addr1 := addr codAt1 in
  '(codAt2, v) ← visit expr1 v;
  let addr2 := addr codAt2 in
  let code := code codAt1 ++ code codAt2 in
  let '(n, v) := newTEMP v in
  let temp := "%" +:+ n in
  let code :=
    match op with
    | AND => code ++ [instruction.AND temp addr1 addr2]
    | OR => code ++ [instruction.OR temp addr1 addr2]
    end in
  Some ({| addr := temp; offs := ""; code := code |}, v).

(** The loop of [visitFunction_call] over the arguments.  The
    temporaries [tempAddr1] it computes are not the ones pushed. *)
Fixpoint lowerArguments (tFunc : TypeId) (i : nat) (exprs : list ExprContext)
    (code pushCode popCode : instructionList) (v : CGState)
    : option (instructionList * instructionList * instructionList * CGState) :=
  match exprs with
  | [] => Some (code, pushCode, popCode, v)
  | e :: exprs' =>
      '(codAt1, v) ← visit e v;
      let addr1 := addr codAt1 in
      let code1 := CodeGen.code codAt1 in
      let code := code ++ code1 in
      let tExpr := getTypeDecor (exprCtx e) v in
      let tParam := getParameterType tFunc i in
      let '(code, v) :=
        if isIntegerTy tExpr && isFloatTy tParam then
          let '(n, v) := newTEMP v in
          let tempAddr1 := "%" +:+ n in
          (code ++ [instruction.FLOAT tempAddr1 addr1], v)
        else if isArrayTy tParam then
          let '(n, v) := newTEMP v in
          let tempAddr1 := "%" +:+ n in
          (code ++ [instruction.ALOAD tempAddr1 addr1], v)
        else (code, v) in
      let pushCode := pushCode ++ [instruction.PUSH addr1] in
      let popCode := popCode ++ [instruction.POP0] in
      lowerArguments tFunc (S i) exprs' code pushCode popCode v
  end.

Definition visitFunction_call (ctx : Function_callContext ExprContext) (v : CGState)
    : option (CodeAttribs * CGState) :=
  let funcName := ident_ID (function_call_ident ctx) in
  let tFunc := getTypeDecor (ident_ctx (function_call_ident ctx)) v in
  let code := [] in
  let code := code ++ [instruction.PUSH0] in
  let pushCode := [] in
  let popCode := [] in
  '(code, pushCode, popCode, v) ←
    lowerArguments tFunc 0 (function_call_expr ctx) code pushCode popCode v;
  let code := code ++ pushCode ++ [instruction.CALL funcName] ++ popCode in
  let '(n, v) := newTEMP v in
  let temp := "%" +:+ n in
  let code := code ++ [instruction.POP temp] in
  Some ({| addr := temp; offs := ""; code := code |}, v).

Definition visitExprFunc (ctx : Node) (function_call : Function_callContext ExprContext)
    (v : CGState) : option (CodeAttribs * CGState) :=
  visitFunction_call function_call v.

End Visit.

(** [visit] on an expression node. *)
Fixpoint visit_expr (e : ExprContext) : CGState → option (CodeAttribs * CGState) :=
  match e with
  | Parenthesis ctx expr => visitParenthesis visit_expr ctx expr
  | ExprFunc ctx function_call => visitExprFunc visit_expr ctx function_call
  | Unary ctx op expr => visitUnary visit_expr ctx op expr
  | Arithmetic ctx op expr0 expr1 => visitArithmetic visit_expr ctx op expr0 expr1
  | Relational ctx op expr0 expr1 => visitRelational visit_expr ctx op expr0 expr1
  | Logical ctx op expr0 expr1 => visitLogical visit_expr ctx op expr0 expr1
  | ArrayAccess ctx array => visitArrayAccess ctx array
  | Value ctx tk => λ v, Some (visitValue ctx tk v)
  | ExprIdent ctx ident => visitExprIdent ctx ident
  end.

Definition visitAssignStmt (ctx : Node) (left_expr : Left_exprContext)
    (expr : ExprContext) (v : CGState) : option (instructionList * CGState) :=
  '(codAtsE1, v) ← visit_left_expr left_expr v;
  let addr1 := addr codAtsE1 in
  let code1 := code codAtsE1 in
  '(codAtsE2, v) ← visit_expr expr v;
  let addr2 := addr codAtsE2 in
  let code2 := code codAtsE2 in
  Some (code1 ++ code2 ++ [instruction.LOAD addr1 addr2], v).

(** The method builds an empty list and returns it; the lines that
    would emit the call are commented out in the source. *)
Definition visitProcCall (ctx : Node) (function_call : Function_callContext ExprContext)
    (v : CGState) : option (instructionList * CGState) :=
  let code : instructionList := [] in
  Some (code, v).

Definition visitReadStmt (ctx : Node) (left_expr : Left_exprContext) (v : CGState)
    : option (instructionList * CGState) :=
  '(codAtsE, v) ← visit_left_expr left_expr v;
  let addr1 := addr codAtsE in
  let code1 := code codAtsE in
  Some (code1 ++ [instruction.READI addr1], v).

Definition visitWriteExpr (ctx : Node) (expr : ExprContext) (v : CGState)
    : option (instructionList * CGState) :=
  '(codAt1, v) ← visit_expr expr v;
  let addr1 := addr codAt1 in
  let code1 := code codAt1 in
  let tid1 := getTypeDecor (exprCtx expr) v in
  let code :=
    if isFloatTy tid1 then code1 ++ [instruction.WRITEF addr1]
    else if isCharacterTy tid1 then code1 ++ [instruction.WRITEC addr1]
    else code1 ++ [instruction.WRITEI addr1] in
  Some (code, v).

Definition visitWriteString (ctx : Node) (STRING : string) (v : CGState)
    : option (instructionList * CGState) :=
  let code := [] in
  let s := STRING in
  Some (code ++ [instruction.WRITES s], v).

Definition visitReturnStmt (ctx : Node) (expr : option ExprContext) (v : CGState)
    : option (instructionList * CGState) :=
  let code := [] in
  match expr with
  | Some e =>
      '(codAt1, v) ← visit_expr e v;
      let addr1 := addr codAt1 in
      let code1 := CodeGen.code codAt1 in
      Some (code ++ code1 ++ [instruction.LOAD "_result" addr1; instruction.RETURN], v)
  | None => Some (code, v)
  end.

Section VisitStatements.
(** [visit(ctx->statements(i))]. *)
Variable visit : StatementsCtx → CGState → option (instructionList * CGState).

(** "TODO: MISSING 'ELSE' CODE": [ctx->statements(1)] is not visited. *)
Definition visitIfStmt (ctx : Node) (expr : ExprContext)
    (statements0 : StatementsCtx) (statements1 : option StatementsCtx)
    (v : CGState) : option (instructionList * CGState) :=
  '(codAtsE, v) ← visit_expr expr v;
  let addr1 := addr codAtsE in
  let code1 := code codAtsE in
  '(code2, v) ← visit statements0 v;
  let '(label, v) := newLabelIF v in
  let labelEndIf := "endif" +:+ label in
  Some (code1 ++ [instruction.FJUMP addr1 labelEndIf]
              ++ code2 ++ [instruction.LABEL labelEndIf], v).

Definition visitWhileStmt (ctx : Node) (expr : ExprContext)
    (statements : StatementsCtx) (v : CGState) : option (instructionList * CGState) :=
  '(codAtsE, v) ← visit_expr expr v;
  let addr1 := addr codAtsE in
  let code1 := code codAtsE in
  '(code2, v) ← visit statements v;
  let '(label, v) := newLabelWHILE v in
  let labelWhile := "while" +:+ label in
  let labelEndWhile := "endwhile" +:+ label in
  Some ([instruction.LABEL labelWhile] ++ code1
          ++ [instruction.FJUMP addr1 labelEndWhile] ++ code2
          ++ [instruction.UJUMP labelWhile] ++ [instruction.LABEL labelEndWhile], v).

End VisitStatements.

(** The loop of [visitStatements], carrying [code]. *)
Fixpoint visitStatementList
    (visit : StatementContext → CGState → option (instructionList * CGState))
    (l : list StatementContext) (code : instructionList) (v : CGState)
    : option (instructionList * CGState) :=
  match l with
  | [] => Some (code, v)
  | stCtx :: l' =>
      '(codeS, v) ← visit stCtx v;
      visitStatementList visit l' (code ++ codeS) v
  end.

Definition visitStatements
    (visit : StatementContext → CGState → option (instructionList * CGState))
    (ctx : StatementsCtx) (v : CGState) : option (instructionList * CGState) :=
  visitStatementList visit (statements_statement ctx) [] v.

(** [visit] on a statement node. *)
Fixpoint visit_statement (s : StatementContext)
    : CGState → option (instructionList * CGState) :=
  match s with
  | AssignStmt ctx left_expr expr => visitAssignStmt ctx left_expr expr
  | IfStmt ctx expr statements0 statements1 =>
      visitIfStmt (visitStatements visit_statement) ctx expr statements0 statements1
  | WhileStmt ctx expr statements =>
      visitWhileStmt (visitStatements visit_statement) ctx expr statements
  | ProcCall ctx function_call => visitProcCall ctx function_call
  | ReadStmt ctx left_expr => visitReadStmt ctx left_expr
  | WriteExpr ctx expr => visitWriteExpr ctx expr
  | WriteString ctx STRING => visitWriteString ctx STRING
  | ReturnStmt ctx expr => visitReturnStmt ctx expr
  end.

Section Subroutines.
(** [Types.to_string], as in [Examen]. *)
Variable to_string : TypeId → string.

Definition visitParameter (ctx : ParameterContext) (v : CGState) : var * CGState :=
  let t1 := getTypeDecor (type_ctx (parameter_type ctx)) v in
  let size := getSizeOfType t1 in
  ({| var_name := parameter_ID ctx; var_type := to_string t1; var_nelem := size |}, v).

Definition visitVariable_decl (ctx : Variable_declContext) (v : CGState)
    : list var * CGState :=
  let t1 := getTypeDecor (type_ctx (variable_decl_type ctx)) v in
  let size := getSizeOfType t1 in
  let variables :=
    fold_left
      (λ variables id,
         variables ++ [{| var_name := id; var_type := to_string t1; var_nelem := size |}])
      (variable_decl_ID ctx) [] in
  (variables, v).

Definition visitDeclarations (ctx : DeclarationsContext) (v : CGState)
    : list var * CGState :=
  fold_left
    (λ '(lvars, v) varDeclCtx,
       let '(onevars, v) := visitVariable_decl varDeclCtx v in
       (lvars ++ onevars, v))
    (declarations_variable_decl ctx) ([], v).

Definition visitFunction (ctx : FunctionCtx) (v : CGState)
    : option (subroutine * CGState) :=
  let sc := getScopeDecor (function_ctx ctx) v in
  let v := withSymbols (SymTable.pushThisScope sc) v in
  let subr := subroutine.new (function_ID ctx) in
  let v := resetCounters v in
  let subr :=
    match function_basic_type ctx with
    | Some basic_type =>
        let tRet := getTypeDecor (basic_ctx basic_type) v in
        subroutine.add_param "_result" (to_string tRet) false subr
    | None => subr
    end in
  let '(subr, v) :=
    fold_left
      (λ '(subr, v) ctxParam,
         let '(param, v) := visitParameter ctxParam v in
         (subroutine.add_param (var_name param) (var_type param) false subr, v))
      (function_parameter ctx) (subr, v) in
  let '(lvars, v) := visitDeclarations (function_declarations ctx) v in
  let subr := fold_left (λ subr onevar, subroutine.add_var onevar subr) lvars subr in
  '(code, v) ← visitStatements visit_statement (function_statements ctx) v;
  let code := code ++ [instruction.RETURN] in
  let subr := subroutine.set_instructions code subr in
  let v := withSymbols SymTable.popScope v in
  Some (subr, v).

(** The loop of [visitProgram], carrying [my_code]. *)
Fixpoint visitFunctions (l : list FunctionCtx) (my_code : code_t) (v : CGState)
    : option (code_t * CGState) :=
  match l with
  | [] => Some (my_code, v)
  | ctxFunc :: l' =>
      '(subr, v) ← visitFunction ctxFunc v;
      visitFunctions l' (my_code ++ [subr]) v
  end.

Definition visitProgram (ctx : ProgramCtx) (v : CGState) : option (code_t * CGState) :=
  let my_code := [] in
  let sc := getScopeDecor (program_ctx ctx) v in
  let v := withSymbols (SymTable.pushThisScope sc) v in
  '(my_code, v) ← visitFunctions (program_function ctx) my_code v;
  let v := withSymbols SymTable.popScope v in
  Some (my_code, v).

End Subroutines.

End CodeGenVisitor.

End Practica.

(* ================================================================== *)
(** ** src/examen-2022/asl/SymbolsVisitor.cpp *)
(* ================================================================== *)

Module Examen2022.
Import AslParser.

Module SymbolsVisitor.
Import TypesMgr.

Definition withSymbols (f : SymTable → SymTable) (v : SVState) : SVState :=
  {| sv_Symbols := f (sv_Symbols v); sv_Decorations := sv_Decorations v;
     sv_Errors := sv_Errors v |}.

Definition withDecorations (f : TreeDecoration → TreeDecoration) (v : SVState) : SVState :=
  {| sv_Symbols := sv_Symbols v; sv_Decorations := f (sv_Decorations v);
     sv_Errors := sv_Errors v |}.

Definition withErrors (f : SemErrors → SemErrors) (v : SVState) : SVState :=
  {| sv_Symbols := sv_Symbols v; sv_Decorations := sv_Decorations v;
     sv_Errors := f (sv_Errors v) |}.

(** [sc = Symbols.pushNewScope(name)] *)
Definition pushNewScope (name : string) (v : SVState) : ScopeId * SVState :=
  let '(sc, Sy) := SymTable.pushNewScope name (sv_Symbols v) in
  (sc, withSymbols (λ _, Sy) v).

Definition getScopeDecor (ctx : Node) (v : SVState) : ScopeId :=
  getScope (sv_Decorations v) ctx.
Definition getTypeDecor (ctx : Node) (v : SVState) : TypeId :=
  getType (sv_Decorations v) ctx.
Definition putScopeDecor (ctx : Node) (s : ScopeId) : SVState → SVState :=
  withDecorations (TreeDecoration.putScope ctx s).
Definition putTypeDecor (ctx : Node) (t : TypeId) : SVState → SVState :=
  withDecorations (TreeDecoration.putType ctx t).

(** A visit of this pass returns or throws.  [std::stoi] throws
    [std::out_of_range] on a number that is not an [int], and nothing in
    the sources catches an exception: the throw ends the visit of the
    node and of every node above it.  [Symbols], [Decorations] and
    [Errors] are objects the pass shares with its caller; [Throws v] has
    them as they are when the exception leaves the visit. *)
Inductive Outcome (A : Type) :=
| Returns (a : A) (v : SVState)
| Throws (v : SVState).
Global Arguments Returns {A} _ _.
Global Arguments Throws {A} _.

(** The largest [int], for an [int] of 32 bits. *)
Definition INT_MAX : N := 2147483647%N.

(** [std::stoi(ctx->INTVAL(i)->getText())], over the number the digits of
    the token denote: that number when it is at most [INT_MAX], and
    [None], the throw of [std::out_of_range], above it. *)
Definition stoi (n : nat) : option nat :=
  if (N.of_nat n <=? INT_MAX)%N then Some n else None.

Definition visitBasic_type (ctx : Basic_typeContext) (v : SVState) : SVState :=
  match basic_kind ctx with
  | INT => putTypeDecor (basic_ctx ctx) createIntegerTy v
  | FLOAT => putTypeDecor (basic_ctx ctx) createFloatTy v
  | BOOL => putTypeDecor (basic_ctx ctx) createBooleanTy v
  | CHAR => putTypeDecor (basic_ctx ctx) createCharacterTy v
  end.

Definition visitType (ctx : TypeContext) (v : SVState) : Outcome unit :=
  match type_shape ctx with
  | ARRAY size =>
      let v := visitBasic_type (type_basic_type ctx) v in
      let tElem := getTypeDecor (basic_ctx (type_basic_type ctx)) v in
      match stoi size with
      | Some size =>
          let tArr := createArrayTy size tElem in
          Returns tt (putTypeDecor (type_ctx ctx) tArr v)
      | None => Throws v
      end
  | MATRIX rows cols =>
      let v := visitBasic_type (type_basic_type ctx) v in
      let tElem := getTypeDecor (basic_ctx (type_basic_type ctx)) v in
      match stoi rows with
      | Some rows =>
          match stoi cols with
          | Some cols =>
              let tMatrix := createMatrixTy rows cols tElem in
              Returns tt (putTypeDecor (type_ctx ctx) tMatrix v)
          | None => Throws v
          end
      | None => Throws v
      end
  | BASIC =>
      let v := visitBasic_type (type_basic_type ctx) v in
      let t := getTypeDecor (basic_ctx (type_basic_type ctx)) v in
      Returns tt (putTypeDecor (type_ctx ctx) t v)
  end.

Definition visitParameter (ctx : ParameterContext) (v : SVState) : Outcome unit :=
  let ident := parameter_ID ctx in
  if SymTable.findInCurrentScope ident (sv_Symbols v) then
    Returns tt (withErrors (SemErrors.declaredIdent (AtToken (parameter_ctx ctx) tID)) v)
  else
    match visitType (parameter_type ctx) v with
    | Returns _ v =>
        let t1 := getTypeDecor (type_ctx (parameter_type ctx)) v in
        let v := putTypeDecor (parameter_ctx ctx) t1 v in
        Returns tt (withSymbols (SymTable.addParameter ident t1) v)
    | Throws v => Throws v
    end.

(** The loop of [visitVariable_decl] over [ctx->ID(i)]. *)
Fixpoint declareIds (ctx : Node) (t1 : TypeId) (i : nat) (ids : list string)
    (v : SVState) : SVState :=
  match ids with
  | [] => v
  | ident :: ids' =>
      let v :=
        if SymTable.findInCurrentScope ident (sv_Symbols v) then
          withErrors (SemErrors.declaredIdent (AtToken ctx (tIDi i))) v
        else
          withSymbols (SymTable.addLocalVar ident t1) v in
      declareIds ctx t1 (S i) ids' v
  end.

Definition visitVariable_decl (ctx : Variable_declContext) (v : SVState)
    : Outcome unit :=
  match visitType (variable_decl_type ctx) v with
  | Returns _ v =>
      let t1 := getTypeDecor (type_ctx (variable_decl_type ctx)) v in
      Returns tt (declareIds (variable_decl_ctx ctx) t1 0 (variable_decl_ID ctx) v)
  | Throws v => Throws v
  end.

(** [visitChildren]: every [variable_decl] in turn. *)
Fixpoint visitChildren (l : list Variable_declContext) (v : SVState) : Outcome unit :=
  match l with
  | [] => Returns tt v
  | d :: l' =>
      match visitVariable_decl d v with
      | Returns _ v => visitChildren l' v
      | Throws v => Throws v
      end
  end.

Definition visitDeclarations (ctx : DeclarationsContext) (v : SVState) : Outcome unit :=
  visitChildren (declarations_variable_decl ctx) v.

(** The loop of [visitFunction] over the parameters; it carries
    [lParamsTy]. *)
Fixpoint visitParameters (params : list ParameterContext)
    (lParamsTy : list TypeId) (v : SVState) : Outcome (list TypeId) :=
  match params with
  | [] => Returns lParamsTy v
  | p :: params' =>
      match visitParameter p v with
      | Returns _ v =>
          let tParam := getTypeDecor (parameter_ctx p) v in
          visitParameters params' (lParamsTy ++ [tParam]) v
      | Throws v => Throws v
      end
  end.

Section Function.
(** The statements of a function are not visited by this pass. *)
Context {Stmts : Type}.

(** The first half of [visitFunction], up to and including
    [Symbols.popScope()]: the part between the two dashed lines of the
    source. *)
Definition visitFunction_scope (ctx : FunctionContext Stmts) (v : SVState)
    : Outcome (list TypeId) :=
  let funcName := function_ID ctx in
  let '(sc, v) := pushNewScope funcName v in
  let v := putScopeDecor (function_ctx ctx) sc v in
  let lParamsTy := [] in
  match visitParameters (function_parameter ctx) lParamsTy v with
  | Returns lParamsTy v =>
      match visitDeclarations (function_declarations ctx) v with
      | Returns _ v =>
          let v := withSymbols SymTable.popScope v in
          Returns lParamsTy v
      | Throws v => Throws v
      end
  | Throws v => Throws v
  end.

Definition visitFunction (ctx : FunctionContext Stmts) (v : SVState) : Outcome unit :=
  let funcName := function_ID ctx in
  match visitFunction_scope ctx v with
  | Returns lParamsTy v =>
      if SymTable.findInCurrentScope funcName (sv_Symbols v) then
        Returns tt
          (withErrors (SemErrors.declaredIdent (AtToken (function_ctx ctx) tID)) v)
      else
        let tRet := createVoidTy in
        let '(tRet, v) :=
          match function_basic_type ctx with
          | Some basic_type =>
              let v := visitBasic_type basic_type v in
              (getTypeDecor (basic_ctx basic_type) v, v)
          | None => (tRet, v)
          end in
        let tFunc := createFunctionTy lParamsTy tRet in
        let v := putTypeDecor (function_ctx ctx) tFunc v in
        Returns tt (withSymbols (SymTable.addFunction funcName tFunc) v)
  | Throws v => Throws v
  end.

(** The loop of [visitProgram] over [ctx->function()]. *)
Fixpoint visitFunctions (l : list (FunctionContext Stmts)) (v : SVState)
    : Outcome unit :=
  match l with
  | [] => Returns tt v
  | ctxFunc :: l' =>
      match visitFunction ctxFunc v with
      | Returns _ v => visitFunctions l' v
      | Throws v => Throws v
      end
  end.

Definition visitProgram (ctx : ProgramContext Stmts) (v : SVState) : Outcome unit :=
  let '(sc, v) := pushNewScope SymTable.GLOBAL_SCOPE_NAME v in
  let v := putScopeDecor (program_ctx ctx) sc v in
  match visitFunctions (program_function ctx) v with
  | Returns _ v => Returns tt (withSymbols SymTable.popScope v)
  | Throws v => Throws v
  end.

End Function.

(** The fields a visit hands on when it returns: every method below is
    the method of the same name above along the run on which each
    [std::stoi] returns, as a function of the fields, so that what a
    returning visit leaves can be computed and reasoned about
    ([visitProgram_returns] and its companions prove that a visit which
    returns, returns these fields, and that it returns when the sizes it
    reads are at most [INT_MAX]). *)
Module Returned.

Definition visitType (ctx : TypeContext) (v : SVState) : SVState :=
  match type_shape ctx with
  | ARRAY size =>
      let v := visitBasic_type (type_basic_type ctx) v in
      let tElem := getTypeDecor (basic_ctx (type_basic_type ctx)) v in
      let tArr := createArrayTy size tElem in
      putTypeDecor (type_ctx ctx) tArr v
  | MATRIX rows cols =>
      let v := visitBasic_type (type_basic_type ctx) v in
      let tElem := getTypeDecor (basic_ctx (type_basic_type ctx)) v in
      let tMatrix := createMatrixTy rows cols tElem in
      putTypeDecor (type_ctx ctx) tMatrix v
  | BASIC =>
      let v := visitBasic_type (type_basic_type ctx) v in
      let t := getTypeDecor (basic_ctx (type_basic_type ctx)) v in
      putTypeDecor (type_ctx ctx) t v
  end.

Definition visitParameter (ctx : ParameterContext) (v : SVState) : SVState :=
  let ident := parameter_ID ctx in
  if SymTable.findInCurrentScope ident (sv_Symbols v) then
    withErrors (SemErrors.declaredIdent (AtToken (parameter_ctx ctx) tID)) v
  else
    let v := visitType (parameter_type ctx) v in
    let t1 := getTypeDecor (type_ctx (parameter_type ctx)) v in
    let v := putTypeDecor (parameter_ctx ctx) t1 v in
    withSymbols (SymTable.addParameter ident t1) v.

Definition visitVariable_decl (ctx : Variable_declContext) (v : SVState) : SVState :=
  let v := visitType (variable_decl_type ctx) v in
  let t1 := getTypeDecor (type_ctx (variable_decl_type ctx)) v in
  declareIds (variable_decl_ctx ctx) t1 0 (variable_decl_ID ctx) v.

Definition visitDeclarations (ctx : DeclarationsContext) (v : SVState) : SVState :=
  fold_left (λ v d, visitVariable_decl d v) (declarations_variable_decl ctx) v.

Fixpoint visitParameters (params : list ParameterContext)
    (lParamsTy : list TypeId) (v : SVState) : list TypeId * SVState :=
  match params with
  | [] => (lParamsTy, v)
  | p :: params' =>
      let v := visitParameter p v in
      let tParam := getTypeDecor (parameter_ctx p) v in
      visitParameters params' (lParamsTy ++ [tParam]) v
  end.

Section Function.
Context {Stmts : Type}.

Definition visitFunction_scope (ctx : FunctionContext Stmts) (v : SVState)
    : list TypeId * SVState :=
  let funcName := function_ID ctx in
  let '(sc, v) := pushNewScope funcName v in
  let v := putScopeDecor (function_ctx ctx) sc v in
  let lParamsTy := [] in
  let '(lParamsTy, v) := visitParameters (function_parameter ctx) lParamsTy v in
  let v := visitDeclarations (function_declarations ctx) v in
  let v := withSymbols SymTable.popScope v in
  (lParamsTy, v).

Definition visitFunction (ctx : FunctionContext Stmts) (v : SVState) : SVState :=
  let funcName := function_ID ctx in
  let '(lParamsTy, v) := visitFunction_scope ctx v in
  if SymTable.findInCurrentScope funcName (sv_Symbols v) then
    withErrors (SemErrors.declaredIdent (AtToken (function_ctx ctx) tID)) v
  else
    let tRet := createVoidTy in
    let '(tRet, v) :=
      match function_basic_type ctx with
      | Some basic_type =>
          let v := visitBasic_type basic_type v in
          (getTypeDecor (basic_ctx basic_type) v, v)
      | None => (tRet, v)
      end in
    let tFunc := createFunctionTy lParamsTy tRet in
    let v := putTypeDecor (function_ctx ctx) tFunc v in
    withSymbols (SymTable.addFunction funcName tFunc) v.

Definition visitProgram (ctx : ProgramContext Stmts) (v : SVState) : SVState :=
  let '(sc, v) := pushNewScope SymTable.GLOBAL_SCOPE_NAME v in
  let v := putScopeDecor (program_ctx ctx) sc v in
  let v := fold_left (λ v ctxFunc, visitFunction ctxFunc v) (program_function ctx) v in
  withSymbols SymTable.popScope v.

End Function.

End Returned.

End SymbolsVisitor.

End Examen2022.

(* ================================================================== *)
(** ** Vocabulary of the statements *)
(* ================================================================== *)

Module Spec.
Import TypesMgr.

(** A visitor emits the error [e] exactly when [c] holds: the errors
    after are the errors before, followed by [e] when [c] holds. *)
Definition emitsIff (c : bool) (e : ErrorInfo) (before after : SemErrors) : Prop :=
  after = before ++ (if c then [e] else []).

(** The type [t] is neither [ErrorTy] nor of the kind [isKind]. *)
Definition neitherErrorNor (isKind : TypeId → bool) (t : TypeId) : bool :=
  negb (isErrorTy t) && negb (isKind t).

Definition incompatibleOperatorAt (ctx : Node) : ErrorInfo :=
  {| errKind := IncompatibleOperator; errPlace := AtToken ctx tOP |}.

Definition incompatibleReturnAt (ctx : Node) : ErrorInfo :=
  {| errKind := IncompatibleReturn; errPlace := AtToken ctx tRETURN |}.

Definition readWriteRequireBasicAt (ctx : Node) : ErrorInfo :=
  {| errKind := ReadWriteRequireBasic; errPlace := AtNode ctx |}.

Definition nonReferenceableExpressionAt (ctx : Node) : ErrorInfo :=
  {| errKind := NonReferenceableExpression; errPlace := AtNode ctx |}.

(** "Float if either operand is Float and Integer otherwise". *)
Definition floatIfEither (t1 t2 : TypeId) : TypeId :=
  if isFloatTy t1 || isFloatTy t2 then TFloat else TInteger.

(** A symbol table with two functions and two variables, and visitor
    fields over it, for the examples. *)
Definition sampleSymbols : SymTable :=
  let '(_, Sy) := SymTable.pushNewScope SymTable.GLOBAL_SCOPE_NAME SymTable.empty in
  let Sy := SymTable.addFunction "p" (TFunction [] TVoid) Sy in
  let Sy := SymTable.addFunction "f" (TFunction [TFloat] TInteger) Sy in
  let Sy := SymTable.addLocalVar "x" TFloat Sy in
  SymTable.addLocalVar "a" (TArray 3 TBoolean) Sy.

Definition sampleTC (currFunctionType : TypeId) : TCState :=
  {| tc_Symbols := sampleSymbols; tc_Decorations := TreeDecoration.blank;
     tc_Errors := []; tc_currFunctionType := currFunctionType |}.

Definition sampleCG (D : TreeDecoration) : CGState :=
  {| cg_Symbols := sampleSymbols; cg_Decorations := D;
     cg_codeCounters := {| cTEMP := 1; cLabelIF := 1; cLabelWHILE := 1 |};
     cg_currFunctionType := TVoid |}.

(** The identifier [p] at node 3, and decorations that give that node
    the type of the procedure [p], of the function [f], and the nodes of
    [if true then write 1; else write 2; endif] their types: Boolean at
    node 5, Integer at nodes 8 and 11. *)
Definition identAt3 (name : string) : AslParser.IdentContext :=
  {| AslParser.ident_ctx := 3; AslParser.ident_ID := name |}.

Definition decorProcedure : TreeDecoration :=
  TreeDecoration.putType 3 (TFunction [] TVoid) TreeDecoration.blank.

Definition decorFunction : TreeDecoration :=
  TreeDecoration.putType 4 TInteger
    (TreeDecoration.putType 3 (TFunction [TFloat] TInteger) TreeDecoration.blank).

Definition decorIfElse : TreeDecoration :=
  TreeDecoration.putType 11 TInteger
    (TreeDecoration.putType 8 TInteger
       (TreeDecoration.putType 5 TBoolean TreeDecoration.blank)).

(** *** The symbols pass *)

(** [Sy'] has the scope stack and the scopes of [Sy], except that the
    innermost scope of the stack may hold more symbols. *)
Definition extendsTop (Sy Sy' : SymTable) : Prop :=
  stack Sy' = stack Sy
  ∧ length (scopes Sy') = length (scopes Sy)
  ∧ (∀ sc, head (stack Sy) ≠ Some sc → scopes Sy' !! sc = scopes Sy !! sc)
  ∧ (∀ sc ident, is_Some (SymTable.lookupIn sc ident Sy) →
                 is_Some (SymTable.lookupIn sc ident Sy')).

(** The type a [basic_type] or [type] node denotes. *)
Definition typeOfBasic (b : AslParser.Basic_typeContext) : TypeId :=
  match AslParser.basic_kind b with
  | AslParser.INT => TInteger
  | AslParser.FLOAT => TFloat
  | AslParser.BOOL => TBoolean
  | AslParser.CHAR => TCharacter
  end.

Definition typeOfType (t : AslParser.TypeContext) : TypeId :=
  match AslParser.type_shape t with
  | AslParser.ARRAY size => TArray size (typeOfBasic (AslParser.type_basic_type t))
  | AslParser.MATRIX rows cols =>
      TMatrix rows cols (typeOfBasic (AslParser.type_basic_type t))
  | AslParser.BASIC => typeOfBasic (AslParser.type_basic_type t)
  end.

(** The symbols a function declares, in source order: its parameters,
    then its local variables. *)
Definition declaredParameters (params : list AslParser.ParameterContext)
    : list (string * SymInfo) :=
  map (λ p, (AslParser.parameter_ID p,
             {| symClass := ParameterClass;
                symType := typeOfType (AslParser.parameter_type p) |})) params.

Definition declaredIds (t : TypeId) (ids : list string) : list (string * SymInfo) :=
  map (λ ident, (ident, {| symClass := LocalVarClass; symType := t |})) ids.

Definition declaredLocals (ds : list AslParser.Variable_declContext)
    : list (string * SymInfo) :=
  concat (map (λ d, declaredIds (typeOfType (AslParser.variable_decl_type d))
                      (AslParser.variable_decl_ID d)) ds).

(** The first entry for [ident], if any: a redeclaration is rejected,
    so the first declaration of a name is the one that stays. *)
Fixpoint firstDeclared (ident : string) (l : list (string * SymInfo)) : option SymInfo :=
  match l with
  | [] => None
  | (k, x) :: l' => if decide (k = ident) then Some x else firstDeclared ident l'
  end.

(** [a], or [b] when [a] is absent. *)
Definition orElse {A} (a b : option A) : option A :=
  match a with Some x => Some x | None => b end.

Definition sampleSV : SVState :=
  {| sv_Symbols := sampleSymbols; sv_Decorations := TreeDecoration.blank;
     sv_Errors := [] |}.

(** [func g(x : int, b : float) : bool  var y, x : char  endfunc], at
    node 10. *)
Definition sampleFunction : AslParser.FunctionContext unit :=
  let basic n k := {| AslParser.basic_ctx := n; AslParser.basic_kind := k |} in
  let type n k := {| AslParser.type_ctx := n; AslParser.type_shape := AslParser.BASIC;
                     AslParser.type_basic_type := basic (S n) k |} in
  {| AslParser.function_ctx := 10;
     AslParser.function_ID := "g";
     AslParser.function_parameter :=
       [ {| AslParser.parameter_ctx := 11; AslParser.parameter_ID := "x";
            AslParser.parameter_type := type 12 AslParser.INT |};
         {| AslParser.parameter_ctx := 14; AslParser.parameter_ID := "b";
            AslParser.parameter_type := type 15 AslParser.FLOAT |} ];
     AslParser.function_basic_type := Some (basic 17 AslParser.BOOL);
     AslParser.function_declarations :=
       {| AslParser.declarations_ctx := 18;
          AslParser.declarations_variable_decl :=
            [ {| AslParser.variable_decl_ctx := 19;
                 AslParser.variable_decl_type := type 20 AslParser.CHAR;
                 AslParser.variable_decl_ID := ["y"; "x"] |} ] |};
     AslParser.function_statements := tt |}.

(** *** The sizes the symbols pass reads *)

(** [std::stoi] returns on the number [n]. *)
Definition sizeFits (n : nat) : bool :=
  (N.of_nat n <=? Examen2022.SymbolsVisitor.INT_MAX)%N.

(** It returns on every size of the [type] node, of the parameters and
    declarations of a function, of the functions of a program. *)
Definition typeFits (t : AslParser.TypeContext) : bool :=
  match AslParser.type_shape t with
  | AslParser.ARRAY size => sizeFits size
  | AslParser.MATRIX rows cols => sizeFits rows && sizeFits cols
  | AslParser.BASIC => true
  end.

Definition functionFits {Stmts} (f : AslParser.FunctionContext Stmts) : Prop :=
  Forall (λ p, typeFits (AslParser.parameter_type p) = true)
    (AslParser.function_parameter f)
  ∧ Forall (λ d, typeFits (AslParser.variable_decl_type d) = true)
      (AslParser.declarations_variable_decl (AslParser.function_declarations f)).

Definition programFits {Stmts} (ctx : AslParser.ProgramContext Stmts) : Prop :=
  Forall functionFits (AslParser.program_function ctx).

(** [func h()  var t : array [size] of int  endfunc], at node 30, and the
    program of that one function, at node 29. *)
Definition functionWithArray (size : nat) : AslParser.FunctionContext unit :=
  {| AslParser.function_ctx := 30;
     AslParser.function_ID := "h";
     AslParser.function_parameter := [];
     AslParser.function_basic_type := None;
     AslParser.function_declarations :=
       {| AslParser.declarations_ctx := 31;
          AslParser.declarations_variable_decl :=
            [ {| AslParser.variable_decl_ctx := 32;
                 AslParser.variable_decl_type :=
                   {| AslParser.type_ctx := 33;
                      AslParser.type_shape := AslParser.ARRAY size;
                      AslParser.type_basic_type :=
                        {| AslParser.basic_ctx := 34;
                           AslParser.basic_kind := AslParser.INT |} |};
                 AslParser.variable_decl_ID := ["t"] |} ] |};
     AslParser.function_statements := tt |}.

Definition programWithArray (size : nat) : AslParser.ProgramContext unit :=
  {| AslParser.program_ctx := 29;
     AslParser.program_function := [functionWithArray size] |}.



(** The program of [sampleFunction] and of a function [h] with an array
    of three elements, at node 9. *)
Definition sampleProgram : AslParser.ProgramContext unit :=
  {| AslParser.program_ctx := 9;
     AslParser.program_function := [sampleFunction; functionWithArray 3] |}.

End Spec.

(* ================================================================== *)
(** * Vocabulary of the invariants *)
(* ================================================================== *)

Module Properties.

(** *** Generated code: labels, jumps and counters *)

(** The labels a list of instructions defines, and the labels its jumps
    go to, in the order of the list. *)
Definition labelsOf (c : instructionList) : list string :=
  c ≫= λ i, match i with instruction.LABEL l => [l] | _ => [] end.

Definition targetsOf (c : instructionList) : list string :=
  c ≫= λ i, match i with
            | instruction.UJUMP l | instruction.FJUMP _ l => [l]
            | _ => []
            end.

(** Code without labels and without jumps. *)
Definition straightLine (c : instructionList) : Prop :=
  labelsOf c = [] ∧ targetsOf c = [].

(** No counter of [c'] is below the one of [c]. *)
Definition countersLe (c c' : counters) : Prop :=
  (cTEMP c ≤ cTEMP c' ∧ cLabelIF c ≤ cLabelIF c' ∧ cLabelWHILE c ≤ cLabelWHILE c')%nat.

(** What a visit of the code generator may change: the counters, and
    they only grow.  For an expression, only the one of the
    temporaries. *)
Definition onlyCounters (v v' : CGState) : Prop :=
  cg_Symbols v' = cg_Symbols v
  ∧ cg_Decorations v' = cg_Decorations v
  ∧ cg_currFunctionType v' = cg_currFunctionType v
  ∧ countersLe (cg_codeCounters v) (cg_codeCounters v').

Definition onlyTemporaries (v v' : CGState) : Prop :=
  onlyCounters v v'
  ∧ cLabelIF (cg_codeCounters v') = cLabelIF (cg_codeCounters v)
  ∧ cLabelWHILE (cg_codeCounters v') = cLabelWHILE (cg_codeCounters v).

(** The labels of the if and while statements: a kind followed by the
    number the counter of the statement gave. *)
Inductive labelKind := kElse | kEndif | kWhile | kEndwhile.

Definition labelText (k : labelKind) (n : nat) : string :=
  match k with
  | kElse => "else" | kEndif => "endif" | kWhile => "while" | kEndwhile => "endwhile"
  end +:+ pretty n.

(** The labels taken between the counters [c] and [c']. *)
Definition ownLabels (c c' : counters) (l : string) : Prop :=
  ∃ k n, l = labelText k n
         ∧ match k with
           | kElse | kEndif => (cLabelIF c ≤ n < cLabelIF c')%nat
           | kWhile | kEndwhile => (cLabelWHILE c ≤ n < cLabelWHILE c')%nat
           end.

(** The code [fst r] that a visit from the fields [v] returns with the
    fields [snd r]: only the counters moved; no label is defined twice;
    every label was taken from the counters during the visit; and every
    jump goes to a label of the code. *)
Definition wellLabelled (v : CGState) (r : instructionList * CGState) : Prop :=
  onlyCounters v (snd r)
  ∧ NoDup (labelsOf (fst r))
  ∧ Forall (ownLabels (cg_codeCounters v) (cg_codeCounters (snd r))) (labelsOf (fst r))
  ∧ targetsOf (fst r) ⊆ labelsOf (fst r).


(** The number of values a list of instructions pushes, less the number
    it pops, counted over the text of the list. *)
Definition stackEffect (c : instructionList) : Z :=
  foldr (λ i z,
           (match i with
            | instruction.PUSH0 | instruction.PUSH _ => 1
            | instruction.POP0 | instruction.POP _ => -1
            | _ => 0
            end + z)%Z) 0%Z c.

(** *** Subroutines *)

(** The type of the elements of an array type, and the type itself when
    it is not an array. *)
Definition elemTy (t : TypeId) : TypeId :=
  if TypesMgr.isArrayTy t then TypesMgr.getArrayElemType t else t.

(** The formal parameters of the subroutine of a function, as
    [visitFunction] adds them: the slot of the result first, when the
    function has a [basic_type]. *)
Definition paramsOf (to_string : TypeId → string) (D : TreeDecoration)
    (ctx : Examen.FunctionCtx) : list param :=
  match AslParser.function_basic_type ctx with
  | Some basic_type =>
      [{| param_name := "_result";
          param_type := to_string (getType D (AslParser.basic_ctx basic_type));
          param_isArray := false |}]
  | None => []
  end
  ++ map (λ p, {| param_name := AslParser.parameter_ID p;
                  param_type :=
                    to_string (elemTy (getType D (AslParser.type_ctx
                                                    (AslParser.parameter_type p))));
                  param_isArray :=
                    TypesMgr.isArrayTy (getType D (AslParser.parameter_ctx p)) |})
       (AslParser.function_parameter ctx).

(** The local variables one declaration adds to the subroutine. *)
Definition varsOf (to_string : TypeId → string) (D : TreeDecoration)
    (d : AslParser.Variable_declContext) : list var :=
  let t1 := getType D (AslParser.type_ctx (AslParser.variable_decl_type d)) in
  map (λ ident, {| var_name := ident; var_type := to_string (elemTy t1);
                   var_nelem := TypesMgr.getSizeOfType t1 |})
    (AslParser.variable_decl_ID d).

(** [func f(v : array [3] of int) : float  var a : array [2] of char; i, j : int
    endfunc], at node 10. *)
Definition sampleSubroutine : AslParser.FunctionContext Examen.StatementsCtx :=
  let basic n k := {| AslParser.basic_ctx := n; AslParser.basic_kind := k |} in
  {| AslParser.function_ctx := 10;
     AslParser.function_ID := "f";
     AslParser.function_parameter :=
       [ {| AslParser.parameter_ctx := 11; AslParser.parameter_ID := "v";
            AslParser.parameter_type :=
              {| AslParser.type_ctx := 12; AslParser.type_shape := AslParser.ARRAY 3;
                 AslParser.type_basic_type := basic 13 AslParser.INT |} |} ];
     AslParser.function_basic_type := Some (basic 14 AslParser.FLOAT);
     AslParser.function_declarations :=
       {| AslParser.declarations_ctx := 15;
          AslParser.declarations_variable_decl :=
            [ {| AslParser.variable_decl_ctx := 16;
                 AslParser.variable_decl_type :=
                   {| AslParser.type_ctx := 17; AslParser.type_shape := AslParser.ARRAY 2;
                      AslParser.type_basic_type := basic 18 AslParser.CHAR |};
                 AslParser.variable_decl_ID := ["a"] |};
              {| AslParser.variable_decl_ctx := 19;
                 AslParser.variable_decl_type :=
                   {| AslParser.type_ctx := 20; AslParser.type_shape := AslParser.BASIC;
                      AslParser.type_basic_type := basic 21 AslParser.INT |};
                 AslParser.variable_decl_ID := ["i"; "j"] |} ] |};
     AslParser.function_statements :=
       {| AslParser.statements_ctx := 22; AslParser.statements_statement := [] |} |}.

(** The decorations of [sampleSubroutine]. *)
Definition decorSubroutine : TreeDecoration :=
  TreeDecoration.putType 20 TInteger
    (TreeDecoration.putType 17 (TArray 2 TCharacter)
       (TreeDecoration.putType 14 TFloat
          (TreeDecoration.putType 12 (TArray 3 TInteger)
             (TreeDecoration.putType 11 (TArray 3 TInteger) TreeDecoration.blank)))).

(** A choice of type tags for the examples. *)
Definition sampleTags (t : TypeId) : string :=
  match t with
  | TInteger => "int" | TFloat => "float" | TBoolean => "bool" | TCharacter => "char"
  | _ => "?"
  end.

(** *** Type check *)

(** What a visit of the type check may change: it appends to the errors
    and writes types and l-value flags; the symbol table and the scope
    decorations stay. *)
Definition checksOnly (v v' : TCState) : Prop :=
  tc_Symbols v' = tc_Symbols v
  ∧ getScope (tc_Decorations v') = getScope (tc_Decorations v)
  ∧ tc_Errors v `prefix_of` tc_Errors v'.

(** The errors the second loop of [visitFunction_call] reports for the
    arguments [exprs], the first of them being argument number [i]
    (counted from 0): one for each argument whose type is neither ErrorTy
    nor copyable to the type of its formal parameter. *)
Definition incompatibleParameters (call : Node) (tFunc : TypeId) (D : TreeDecoration)
    (i : nat) (exprs : list Examen.ExprContext) : SemErrors :=
  concat (imap (λ k e,
            let tExpr := getType D (Examen.exprCtx e) in
            if negb (TypesMgr.isErrorTy tExpr)
               && negb (TypesMgr.copyableTypes (TypesMgr.getParameterType tFunc (i + k)) tExpr)
            then [ {| errKind := IncompatibleParameter (i + k + 1) call;
                      errPlace := AtNode (Examen.exprCtx e) |} ]
            else []) exprs).

(** *** Redeclarations *)

(** One [DeclaredIdent] for every declaration of [sites] whose name is
    among [seen] or is declared earlier in [sites]; each at the token of
    the later declaration. *)
Definition redeclared (seen : list string) (sites : list (string * Place)) : SemErrors :=
  concat (imap (λ k site,
            if bool_decide (site.1 ∈ seen ++ take k (sites.*1))
            then [ {| errKind := DeclaredIdent; errPlace := site.2 |} ]
            else []) sites).

(** The names a function declares in its scope with the token each one
    is reported at, in source order: [ID()] of every parameter, then
    [ID(i)] of every variable declaration. *)
Definition parameterSites (params : list AslParser.ParameterContext)
    : list (string * Place) :=
  map (λ p, (AslParser.parameter_ID p, AtToken (AslParser.parameter_ctx p) tID)) params.

Definition idSites (ctx : Node) (i : nat) (ids : list string) : list (string * Place) :=
  imap (λ j ident, (ident, AtToken ctx (tIDi (i + j)))) ids.

Definition localSites (ds : list AslParser.Variable_declContext) : list (string * Place) :=
  concat (map (λ d, idSites (AslParser.variable_decl_ctx d) 0
                      (AslParser.variable_decl_ID d)) ds).

Definition declarationSites {Stmts} (f : AslParser.FunctionContext Stmts)
    : list (string * Place) :=
  parameterSites (AslParser.function_parameter f)
  ++ localSites (AslParser.declarations_variable_decl (AslParser.function_declarations f)).

(** The errors of the symbols pass over the functions [fs]: for every
    function in turn, the redeclarations inside it, then its own name
    when an earlier function has that name. *)
Definition symbolsErrors {Stmts} (fs : list (AslParser.FunctionContext Stmts)) : SemErrors :=
  concat (imap (λ k f,
            redeclared [] (declarationSites f)
            ++ (if bool_decide (AslParser.function_ID f
                                ∈ take k (map AslParser.function_ID fs))
                then [ {| errKind := DeclaredIdent;
                          errPlace := AtToken (AslParser.function_ctx f) tID |} ]
                else [])) fs).

(** The innermost scope is [top], a scope of the table, and the names
    it holds are those of [seen]. *)
Definition currentScopeHolds (top : ScopeId) (rest : list ScopeId) (seen : list string)
    (Sy : SymTable) : Prop :=
  stack Sy = top :: rest ∧ top < length (scopes Sy)
  ∧ ∀ ident, is_Some (SymTable.lookupIn top ident Sy) ↔ ident ∈ seen.

(** *** The practica snapshot *)

(** The expression has an array access somewhere in it. *)
Fixpoint usesArrayAccess (e : Practica.ExprContext) : bool :=
  match e with
  | Practica.Parenthesis _ expr | Practica.Unary _ _ expr => usesArrayAccess expr
  | Practica.ExprFunc _ function_call =>
      existsb usesArrayAccess (AslParser.function_call_expr function_call)
  | Practica.Arithmetic _ _ expr0 expr1 | Practica.Relational _ _ expr0 expr1
  | Practica.Logical _ _ expr0 expr1 => usesArrayAccess expr0 || usesArrayAccess expr1
  | Practica.ArrayAccess _ _ => true
  | Practica.Value _ _ | Practica.ExprIdent _ _ => false
  end.

End Properties.

(* ================================================================== *)
(** ** Type check: arithmetic, return, read *)
(* ================================================================== *)

Section TypeCheckFacts.
Import TypesMgr TypeCheck Spec AslParser.

Lemma errorIf_Errors c f p v :
  tc_Errors (errorIf c f p v) = if c then f p (tc_Errors v) else tc_Errors v.
Proof. by destruct c. Qed.

Lemma errorIf_Decorations c f p v :
  tc_Decorations (errorIf c f p v) = tc_Decorations v.
Proof. by destruct c. Qed.


Lemma upd_same {A} (f : Node → A) ctx a : TreeDecoration.upd f ctx a ctx = a.
Proof. unfold TreeDecoration.upd. by rewrite Nat.eqb_refl. Qed.

Lemma emitsIff_report (c : bool) k p E :
  emitsIff c {| errKind := k; errPlace := p |} E
    (if c then SemErrors.report k p E else E).
Proof. unfold emitsIff. destruct c; [reflexivity | by rewrite app_nil_r]. Qed.

Lemma floatIfEither_cases t1 t2 :
  (floatIfEither t1 t2 = TInteger ∨ floatIfEither t1 t2 = TFloat)
  ∧ isErrorTy (floatIfEither t1 t2) = false
  ∧ (isFloatTy t1 || isFloatTy t2 = false → floatIfEither t1 t2 = TInteger).
Proof.
  unfold floatIfEither. destruct (isFloatTy t1 || isFloatTy t2); naive_solver.
Qed.

(** [visitArithmetic] of [src/examen]: what it adds to the fields once
    the two operands are visited. *)
Lemma examen_visitArithmetic ctx op expr0 expr1 v :
  let v1 := Examen.TypeCheckVisitor.visit_expr expr0 v in
  let t1 := getTypeDecor (Examen.exprCtx expr0) v1 in
  let v2 := Examen.TypeCheckVisitor.visit_expr expr1 v1 in
  let t2 := getTypeDecor (Examen.exprCtx expr1) v2 in
  let v' := Examen.TypeCheckVisitor.visit_expr (Examen.Arithmetic ctx op expr0 expr1) v in
  emitsIff
    (match op with
     | MOD => neitherErrorNor isIntegerTy t1 || neitherErrorNor isIntegerTy t2
     | _ => neitherErrorNor isNumericTy t1 || neitherErrorNor isNumericTy t2
     end)
    (incompatibleOperatorAt ctx) (tc_Errors v2) (tc_Errors v')
  ∧ getTypeDecor ctx v' =
      match op with MOD => TInteger | _ => floatIfEither t1 t2 end
  ∧ getIsLValueDecor ctx v' = false.
Proof.
  intros v1 t1 v2 t2 v'. subst v'. cbn [Examen.TypeCheckVisitor.visit_expr].
  unfold Examen.TypeCheckVisitor.visitArithmetic.
  fold v1. fold t1. fold v2. fold t2.
  unfold neitherErrorNor, getTypeDecor, getIsLValueDecor.
  destruct op; cbn -[isErrorTy isIntegerTy isNumericTy getTypeCoercion emitsIff];
    rewrite ?errorIf_Errors, ?upd_same; (split_and!; [|done..]);
    apply emitsIff_report.
Qed.

(** [visitArithmetic] of [src/CL-lab/practica], when both operand
    visits return. *)
Lemma practica_visitArithmetic ctx op expr0 expr1 v v1 v2 :
  Practica.TypeCheckVisitor.visit_expr expr0 v = Some v1 →
  Practica.TypeCheckVisitor.visit_expr expr1 v1 = Some v2 →
  let t1 := getTypeDecor (Practica.exprCtx expr0) v1 in
  let t2 := getTypeDecor (Practica.exprCtx expr1) v2 in
  ∃ v',
    Practica.TypeCheckVisitor.visit_expr (Practica.Arithmetic ctx op expr0 expr1) v
      = Some v'
    ∧ emitsIff (neitherErrorNor isNumericTy t1 || neitherErrorNor isNumericTy t2)
        (incompatibleOperatorAt ctx) (tc_Errors v2) (tc_Errors v')
    ∧ getTypeDecor ctx v' = floatIfEither t1 t2
    ∧ getIsLValueDecor ctx v' = false.
Proof.
  intros H0 H1 t1 t2. cbn [Practica.TypeCheckVisitor.visit_expr].
  unfold Practica.TypeCheckVisitor.visitArithmetic.
  rewrite H0. cbn [mbind option_bind]. rewrite H1. cbn [mbind option_bind].
  eexists; split; [reflexivity|].
  fold t1. fold t2. unfold getTypeDecor, getIsLValueDecor.
  cbn -[isErrorTy isNumericTy getTypeCoercion emitsIff].
  rewrite errorIf_Errors, !upd_same. split_and!; [|done..].
  apply emitsIff_report.
Qed.

(** C3, as stated, fails: in [src/examen] the node of [1.5 % 2] is
    decorated Integer although its first operand is Float; in
    [src/CL-lab/practica] the same expression raises no
    IncompatibleOperator although that operand is neither ErrorTy nor
    Integer. *)
Lemma arithmetic_mod_float_operand :
  let v := sampleTC TVoid in
  (let e0 := Examen.Value 1 (FLOATVAL "1.5") in
   let e1 := Examen.Value 2 (INTVAL "2") in
   let v' := Examen.TypeCheckVisitor.visit_expr (Examen.Arithmetic 0 MOD e0 e1) v in
   getTypeDecor 1 v' = TFloat ∧ getTypeDecor 0 v' = TInteger)
  ∧
  (let e0 := Practica.Value 1 (FLOATVAL "1.5") in
   let e1 := Practica.Value 2 (INTVAL "2") in
   let r := Practica.TypeCheckVisitor.visit_expr (Practica.Arithmetic 0 MOD e0 e1) v in
   (getTypeDecor 1 <$> r) = Some TFloat
   ∧ neitherErrorNor isIntegerTy TFloat = true
   ∧ (tc_Errors <$> r) = Some []).
Proof. vm_compute. split_and!; reflexivity. Qed.

(** C3 (amended).  [src/examen]: for [%] the type checker emits
    IncompatibleOperator if and only if some operand's decorated type is
    neither ErrorTy nor Integer, and decorates the node Integer whatever
    the operands are; for [+ - * /] it emits IncompatibleOperator if and
    only if some operand's type is neither ErrorTy nor numeric, and
    decorates the node Float if either operand is Float and Integer
    otherwise.  [src/CL-lab/practica]: all five operators, [%] included,
    are treated as [+ - * /] are above.  In both the node gets
    isLValue = false. *)
Theorem arithmetic_check_and_type :
  (∀ ctx op expr0 expr1 v,
     let v1 := Examen.TypeCheckVisitor.visit_expr expr0 v in
     let t1 := getTypeDecor (Examen.exprCtx expr0) v1 in
     let v2 := Examen.TypeCheckVisitor.visit_expr expr1 v1 in
     let t2 := getTypeDecor (Examen.exprCtx expr1) v2 in
     let v' := Examen.TypeCheckVisitor.visit_expr
                 (Examen.Arithmetic ctx op expr0 expr1) v in
     emitsIff
       (match op with
        | MOD => neitherErrorNor isIntegerTy t1 || neitherErrorNor isIntegerTy t2
        | _ => neitherErrorNor isNumericTy t1 || neitherErrorNor isNumericTy t2
        end)
       (incompatibleOperatorAt ctx) (tc_Errors v2) (tc_Errors v')
     ∧ getTypeDecor ctx v' =
         match op with MOD => TInteger | _ => floatIfEither t1 t2 end
     ∧ getIsLValueDecor ctx v' = false)
  ∧
  (∀ ctx op expr0 expr1 v v1 v2,
     Practica.TypeCheckVisitor.visit_expr expr0 v = Some v1 →
     Practica.TypeCheckVisitor.visit_expr expr1 v1 = Some v2 →
     let t1 := getTypeDecor (Practica.exprCtx expr0) v1 in
     let t2 := getTypeDecor (Practica.exprCtx expr1) v2 in
     ∃ v',
       Practica.TypeCheckVisitor.visit_expr
         (Practica.Arithmetic ctx op expr0 expr1) v = Some v'
       ∧ emitsIff (neitherErrorNor isNumericTy t1 || neitherErrorNor isNumericTy t2)
           (incompatibleOperatorAt ctx) (tc_Errors v2) (tc_Errors v')
       ∧ getTypeDecor ctx v' = floatIfEither t1 t2
       ∧ getIsLValueDecor ctx v' = false).
Proof.
  split.
  - intros. apply examen_visitArithmetic.
  - intros. by apply practica_visitArithmetic.
Qed.

Lemma arithmetic_check_and_type_witness :
  let v := sampleTC TVoid in
  let e0 := Practica.Value 1 (FLOATVAL "1.5") in
  let e1 := Practica.Value 2 (BOOLVAL "true") in
  let v1 := Practica.TypeCheckVisitor.visitValue 1 (FLOATVAL "1.5") v in
  let v2 := Practica.TypeCheckVisitor.visitValue 2 (BOOLVAL "true") v1 in
  ∃ v',
    Practica.TypeCheckVisitor.visit_expr (Practica.Arithmetic 0 PLUS e0 e1) v = Some v'
    ∧ emitsIff (neitherErrorNor isNumericTy TFloat || neitherErrorNor isNumericTy TBoolean)
        (incompatibleOperatorAt 0) (tc_Errors v2) (tc_Errors v')
    ∧ getTypeDecor 0 v' = floatIfEither TFloat TBoolean
    ∧ getIsLValueDecor 0 v' = false.
Proof.
  exact (proj2 arithmetic_check_and_type 0 PLUS
           (Practica.Value 1 (FLOATVAL "1.5")) (Practica.Value 2 (BOOLVAL "true"))
           (sampleTC TVoid) _ _ eq_refl eq_refl).
Defined.

(** C10.  In both snapshots the node of a binary arithmetic expression
    is decorated Integer or Float, never ErrorTy, whatever the types of
    its operands (ErrorTy included), and Integer when neither operand is
    Float. *)
Theorem arithmetic_never_decorated_error :
  (∀ ctx op expr0 expr1 v,
     let v1 := Examen.TypeCheckVisitor.visit_expr expr0 v in
     let t1 := getTypeDecor (Examen.exprCtx expr0) v1 in
     let v2 := Examen.TypeCheckVisitor.visit_expr expr1 v1 in
     let t2 := getTypeDecor (Examen.exprCtx expr1) v2 in
     let v' := Examen.TypeCheckVisitor.visit_expr
                 (Examen.Arithmetic ctx op expr0 expr1) v in
     let t := getTypeDecor ctx v' in
     (t = TInteger ∨ t = TFloat)
     ∧ isErrorTy t = false
     ∧ (isFloatTy t1 || isFloatTy t2 = false → t = TInteger))
  ∧
  (∀ ctx op expr0 expr1 v v1 v2,
     Practica.TypeCheckVisitor.visit_expr expr0 v = Some v1 →
     Practica.TypeCheckVisitor.visit_expr expr1 v1 = Some v2 →
     let t1 := getTypeDecor (Practica.exprCtx expr0) v1 in
     let t2 := getTypeDecor (Practica.exprCtx expr1) v2 in
     ∃ v',
       Practica.TypeCheckVisitor.visit_expr
         (Practica.Arithmetic ctx op expr0 expr1) v = Some v'
       ∧ let t := getTypeDecor ctx v' in
         (t = TInteger ∨ t = TFloat)
         ∧ isErrorTy t = false
         ∧ (isFloatTy t1 || isFloatTy t2 = false → t = TInteger)).
Proof.
  split.
  - intros ctx op expr0 expr1 v v1 t1 v2 t2 v' t.
    destruct (examen_visitArithmetic ctx op expr0 expr1 v) as (_ & Ht & _).
    fold v1 t1 v2 t2 v' t in Ht. rewrite Ht.
    destruct op; try apply floatIfEither_cases. naive_solver.
  - intros ctx op expr0 expr1 v v1 v2 H0 H1 t1 t2.
    destruct (practica_visitArithmetic ctx op expr0 expr1 v v1 v2 H0 H1)
      as (v' & Hv' & _ & Ht & _).
    exists v'. split; [done|]. cbn zeta. fold t1 t2 in Ht. rewrite Ht.
    apply floatIfEither_cases.
Qed.

Lemma arithmetic_never_decorated_error_witness :
  let v := sampleTC TVoid in
  (let e0 := Examen.ExprIdent 1 {| ident_ctx := 3; ident_ID := "undeclared" |} in
   let e1 := Examen.Value 2 (BOOLVAL "true") in
   let v1 := Examen.TypeCheckVisitor.visit_expr e0 v in
   let v' := Examen.TypeCheckVisitor.visit_expr (Examen.Arithmetic 0 MOD e0 e1) v in
   getTypeDecor 1 v1 = TError ∧ getTypeDecor 0 v' = TInteger)
  ∧
  (let e0 := Practica.ExprIdent 1 {| ident_ctx := 3; ident_ID := "undeclared" |} in
   let e1 := Practica.Value 2 (BOOLVAL "true") in
   ∃ v', Practica.TypeCheckVisitor.visit_expr (Practica.Arithmetic 0 MOD e0 e1) v = Some v'
         ∧ getTypeDecor 0 v' = TInteger).
Proof.
  split.
  - split; [reflexivity|].
    exact (proj2 (proj2 (proj1 arithmetic_never_decorated_error 0 MOD
             (Examen.ExprIdent 1 {| ident_ctx := 3; ident_ID := "undeclared" |})
             (Examen.Value 2 (BOOLVAL "true")) (sampleTC TVoid))) eq_refl).
  - destruct (proj2 arithmetic_never_decorated_error 0 MOD
             (Practica.ExprIdent 1 {| ident_ctx := 3; ident_ID := "undeclared" |})
             (Practica.Value 2 (BOOLVAL "true")) (sampleTC TVoid) _ _ eq_refl eq_refl)
      as (v' & Hv' & _ & _ & Ht).
    exists v'. split; [exact Hv' | exact (Ht eq_refl)].
Defined.

End TypeCheckFacts.

Section ReturnAndRead.
Import TypesMgr TypeCheck Spec AslParser.

(** [visitReturnStmt] of [src/examen]: the declared return type is the
    first argument of [copyableTypes], the type of the expression (Void
    when there is none) the second. *)
Lemma examen_visitReturnStmt ctx expr v :
  let v1 := match expr with
            | Some e => Examen.TypeCheckVisitor.visit_expr e v
            | None => v
            end in
  let t := match expr with
           | Some e => getTypeDecor (Examen.exprCtx e) v1
           | None => TVoid
           end in
  let t2 := getCurrentFunctionTy v1 in
  let v' := Examen.TypeCheckVisitor.visit_statement (Examen.ReturnStmt ctx expr) v in
  if isErrorTy t2 then tc_Errors v' = tc_Errors v1
  else emitsIff (negb (copyableTypes (getFuncReturnType t2) t))
         (incompatibleReturnAt ctx) (tc_Errors v1) (tc_Errors v').
Proof.
  intros v1 t t2 v'. subst v'. cbn [Examen.TypeCheckVisitor.visit_statement].
  unfold Examen.TypeCheckVisitor.visitReturnStmt.
  destruct expr as [e|]; cbn zeta iota beta; fold v1; fold t2;
    (destruct (isErrorTy t2); [reflexivity|]); cbn [negb];
    rewrite errorIf_Errors; fold t; apply emitsIff_report.
Qed.

(** [visitReturnStmt] of [src/CL-lab/practica] passes the two types the
    other way round. *)
Lemma practica_visitReturnStmt ctx e v v1 :
  Practica.TypeCheckVisitor.visit_expr e v = Some v1 →
  let t := getTypeDecor (Practica.exprCtx e) v1 in
  let t2 := getCurrentFunctionTy v1 in
  ∃ v',
    Practica.TypeCheckVisitor.visit_statement (Practica.ReturnStmt ctx (Some e)) v
      = Some v'
    ∧ if isErrorTy t2 then tc_Errors v' = tc_Errors v1
      else emitsIff (negb (copyableTypes t (getFuncReturnType t2)))
             (incompatibleReturnAt ctx) (tc_Errors v1) (tc_Errors v').
Proof.
  intros H t t2. cbn [Practica.TypeCheckVisitor.visit_statement].
  unfold Practica.TypeCheckVisitor.visitReturnStmt.
  rewrite H. cbn [mbind option_bind]. fold t2.
  destruct (isErrorTy t2); cbn [negb]; eexists; (split; [reflexivity|]);
    [reflexivity|].
  rewrite errorIf_Errors. apply emitsIff_report.
Qed.

(** C1, where the code departs from it.  In [src/CL-lab/practica],
    [return 3] in a function declared to return Float raises
    IncompatibleReturn although copyable(Float, Integer) holds, and
    [return 1.5] in a function declared to return Integer raises nothing
    although copyable(Integer, Float) does not hold.  [src/examen] gives
    the answers of the claim on both. *)
Theorem practica_return_copyable_arguments_swapped :
  let returnInt := Some (Practica.Value 2 (INTVAL "3")) in
  let returnFloat := Some (Practica.Value 2 (FLOATVAL "1.5")) in
  let returnInt' := Some (Examen.Value 2 (INTVAL "3")) in
  let returnFloat' := Some (Examen.Value 2 (FLOATVAL "1.5")) in
  (copyableTypes TFloat TInteger = true
   ∧ (tc_Errors <$> Practica.TypeCheckVisitor.visit_statement
                      (Practica.ReturnStmt 1 returnInt) (sampleTC (TFunction [] TFloat)))
     = Some [incompatibleReturnAt 1]
   ∧ tc_Errors (Examen.TypeCheckVisitor.visit_statement
                  (Examen.ReturnStmt 1 returnInt') (sampleTC (TFunction [] TFloat)))
     = [])
  ∧
  (copyableTypes TInteger TFloat = false
   ∧ (tc_Errors <$> Practica.TypeCheckVisitor.visit_statement
                      (Practica.ReturnStmt 1 returnFloat) (sampleTC (TFunction [] TInteger)))
     = Some []
   ∧ tc_Errors (Examen.TypeCheckVisitor.visit_statement
                  (Examen.ReturnStmt 1 returnFloat') (sampleTC (TFunction [] TInteger)))
     = [incompatibleReturnAt 1]).
Proof. vm_compute. split_and!; reflexivity. Qed.

(** [visitReadStmt] of [src/examen], once the target is visited. *)
Lemma examen_visitReadStmt ctx left_expr v :
  let v1 := Examen.TypeCheckVisitor.visitLeft_expr
              Examen.TypeCheckVisitor.visit_expr left_expr v in
  let t1 := getTypeDecor (Examen.left_expr_ctx left_expr) v1 in
  let lv := getIsLValueDecor (Examen.left_expr_ctx left_expr) v1 in
  let v' := Examen.TypeCheckVisitor.visit_statement (Examen.ReadStmt ctx left_expr) v in
  ∃ E,
    emitsIff (negb (isErrorTy t1) && negb (isPrimitiveTy t1) && negb (isFunctionTy t1))
      (readWriteRequireBasicAt ctx) (tc_Errors v1) E
    ∧ emitsIff (negb (isErrorTy t1) && negb lv)
        (nonReferenceableExpressionAt ctx) E (tc_Errors v').
Proof.
  intros v1 t1 lv v'. subst v'. cbn [Examen.TypeCheckVisitor.visit_statement].
  unfold Examen.TypeCheckVisitor.visitReadStmt. fold v1. fold t1.
  eexists. split; [apply emitsIff_report|].
  rewrite errorIf_Errors. unfold getIsLValueDecor. rewrite errorIf_Decorations.
  rewrite errorIf_Errors. apply emitsIff_report.
Qed.

(** [visitReadStmt] of [src/CL-lab/practica], when the visit of the
    target returns. *)
Lemma practica_visitReadStmt ctx left_expr v v1 :
  Practica.TypeCheckVisitor.visit_left_expr
    Practica.TypeCheckVisitor.visit_expr left_expr v = Some v1 →
  let t1 := getTypeDecor (Practica.left_exprCtx left_expr) v1 in
  let lv := getIsLValueDecor (Practica.left_exprCtx left_expr) v1 in
  ∃ v' E,
    Practica.TypeCheckVisitor.visit_statement (Practica.ReadStmt ctx left_expr) v
      = Some v'
    ∧ emitsIff (negb (isErrorTy t1) && negb (isPrimitiveTy t1) && negb (isFunctionTy t1))
        (readWriteRequireBasicAt ctx) (tc_Errors v1) E
    ∧ emitsIff (negb (isErrorTy t1) && negb lv)
        (nonReferenceableExpressionAt ctx) E (tc_Errors v').
Proof.
  intros H t1 lv. cbn [Practica.TypeCheckVisitor.visit_statement].
  unfold Practica.TypeCheckVisitor.visitReadStmt.
  rewrite H. cbn [mbind option_bind]. fold t1.
  eexists. eexists. split; [reflexivity|].
  split; [apply emitsIff_report|].
  rewrite errorIf_Errors. unfold getIsLValueDecor. rewrite errorIf_Decorations.
  rewrite errorIf_Errors. apply emitsIff_report.
Qed.

(** C6, as stated, fails: [read p] with [p] a function.  The type of the
    target is neither ErrorTy nor primitive, and no ReadWriteRequireBasic
    is raised (only NonReferenceableExpression), in both snapshots. *)
Lemma read_function_name_not_require_basic :
  let v := sampleTC TVoid in
  let p := {| ident_ctx := 3; ident_ID := "p" |} in
  (let target := {| Examen.left_expr_ctx := 2; Examen.left_expr_ident := p;
                    Examen.left_expr_expr := None |} in
   let v' := Examen.TypeCheckVisitor.visit_statement (Examen.ReadStmt 1 target) v in
   getTypeDecor 2 v' = TFunction [] TVoid
   ∧ isPrimitiveTy (TFunction [] TVoid) = false
   ∧ tc_Errors v' = [nonReferenceableExpressionAt 1])
  ∧
  (let r := Practica.TypeCheckVisitor.visit_statement
              (Practica.ReadStmt 1 (Practica.LeftExprIdent 2 p)) v in
   (getTypeDecor 2 <$> r) = Some (TFunction [] TVoid)
   ∧ (tc_Errors <$> r) = Some [nonReferenceableExpressionAt 1]).
Proof. vm_compute. split_and!; reflexivity. Qed.

(** C6 (amended).  For every read statement whose target has a decorated
    type that is not ErrorTy, the type checker emits
    ReadWriteRequireBasic if and only if the target's type is neither
    primitive nor a function type, and then emits
    NonReferenceableExpression if and only if the target's isLValue
    decoration is false. *)
Theorem read_target_checks :
  (∀ ctx left_expr v,
     let v1 := Examen.TypeCheckVisitor.visitLeft_expr
                 Examen.TypeCheckVisitor.visit_expr left_expr v in
     let t1 := getTypeDecor (Examen.left_expr_ctx left_expr) v1 in
     let lv := getIsLValueDecor (Examen.left_expr_ctx left_expr) v1 in
     let v' := Examen.TypeCheckVisitor.visit_statement
                 (Examen.ReadStmt ctx left_expr) v in
     isErrorTy t1 = false →
     ∃ E,
       emitsIff (negb (isPrimitiveTy t1) && negb (isFunctionTy t1))
         (readWriteRequireBasicAt ctx) (tc_Errors v1) E
       ∧ emitsIff (negb lv) (nonReferenceableExpressionAt ctx) E (tc_Errors v'))
  ∧
  (∀ ctx left_expr v v1,
     Practica.TypeCheckVisitor.visit_left_expr
       Practica.TypeCheckVisitor.visit_expr left_expr v = Some v1 →
     let t1 := getTypeDecor (Practica.left_exprCtx left_expr) v1 in
     let lv := getIsLValueDecor (Practica.left_exprCtx left_expr) v1 in
     isErrorTy t1 = false →
     ∃ v' E,
       Practica.TypeCheckVisitor.visit_statement
         (Practica.ReadStmt ctx left_expr) v = Some v'
       ∧ emitsIff (negb (isPrimitiveTy t1) && negb (isFunctionTy t1))
           (readWriteRequireBasicAt ctx) (tc_Errors v1) E
       ∧ emitsIff (negb lv) (nonReferenceableExpressionAt ctx) E (tc_Errors v')).
Proof.
  split.
  - intros ctx left_expr v v1 t1 lv v' Ht.
    destruct (examen_visitReadStmt ctx left_expr v) as (E & H1 & H2).
    fold v1 t1 lv v' in H1, H2. rewrite Ht in H1, H2. by exists E.
  - intros ctx left_expr v v1 Hv t1 lv Ht.
    destruct (practica_visitReadStmt ctx left_expr v v1 Hv) as (v' & E & H0 & H1 & H2).
    fold t1 lv in H1, H2. rewrite Ht in H1, H2. by exists v', E.
Qed.

Lemma read_target_checks_witness :
  let v := sampleTC TVoid in
  let a := {| ident_ctx := 3; ident_ID := "a" |} in
  (let target := {| Examen.left_expr_ctx := 2; Examen.left_expr_ident := a;
                    Examen.left_expr_expr := None |} in
   let v1 := Examen.TypeCheckVisitor.visitLeft_expr
               Examen.TypeCheckVisitor.visit_expr target v in
   let v' := Examen.TypeCheckVisitor.visit_statement (Examen.ReadStmt 1 target) v in
   isErrorTy (getTypeDecor 2 v1) = false
   ∧ ∃ E, emitsIff true (readWriteRequireBasicAt 1) (tc_Errors v1) E
          ∧ emitsIff false (nonReferenceableExpressionAt 1) E (tc_Errors v'))
  ∧
  (let target := Practica.LeftExprIdent 2 a in
   ∃ v' E, Practica.TypeCheckVisitor.visit_statement (Practica.ReadStmt 1 target) v
             = Some v'
           ∧ emitsIff true (readWriteRequireBasicAt 1) [] E
           ∧ emitsIff false (nonReferenceableExpressionAt 1) E (tc_Errors v')).
Proof.
  split.
  - split; [reflexivity|].
    exact (proj1 read_target_checks 1
             {| Examen.left_expr_ctx := 2;
                Examen.left_expr_ident := {| ident_ctx := 3; ident_ID := "a" |};
                Examen.left_expr_expr := None |} (sampleTC TVoid) eq_refl).
  - exact (proj2 read_target_checks 1
             (Practica.LeftExprIdent 2 {| ident_ctx := 3; ident_ID := "a" |})
             (sampleTC TVoid) _ eq_refl eq_refl).
Defined.

(** In an expression, [src/practica] admits no call of a callee without
    a result: when the call node is decorated with the void type,
    [visitExprFunc] of the type check reports IsNotFunction. *)
Lemma practica_void_callee_is_reported ctx function_call v v1 :
  Practica.TypeCheckVisitor.visitFunction_call Practica.TypeCheckVisitor.visit_expr
    function_call v = Some v1 →
  isVoidTy (getTypeDecor (function_call_ctx function_call) v1) = true →
  ∃ v', Practica.TypeCheckVisitor.visit_expr (Practica.ExprFunc ctx function_call) v
        = Some v'
        ∧ tc_Errors v'
          = tc_Errors v1
            ++ [ {| errKind := IsNotFunction;
                    errPlace := AtNode (function_call_ctx function_call) |} ].
Proof.
  intros Hcall Hvoid. cbn [Practica.TypeCheckVisitor.visit_expr].
  unfold Practica.TypeCheckVisitor.visitExprFunc. rewrite Hcall.
  cbn [mbind option_bind]. rewrite Hvoid. eexists. split; reflexivity.
Qed.

End ReturnAndRead.

(* ================================================================== *)
(** ** Code generation: literals, calls, if *)
(* ================================================================== *)

Section CodeGenFacts.
Import TypesMgr CodeGen Spec AslParser.

Lemma substring_prefix (c x : string) :
  String.substring 0 (String.length c) (c +:+ x) = c.
Proof. induction c as [|a c IH]; simpl; [by destruct x | by f_equal]. Qed.

Lemma length_app_string (c x : string) :
  String.length (c +:+ x) = String.length c + String.length x.
Proof. induction c as [|a c IH]; simpl; [done | by f_equal]. Qed.

Lemma substr_strips_quotes (c : string) :
  let value := valueText (CHARVAL c) in
  substr value 1 (String.length value - 2) = c.
Proof.
  unfold substr, valueText. rewrite !length_app_string.
  replace (String.length "'" + (String.length c + String.length "'") - 2)
    with (String.length c) by (cbn; lia).
  exact (substring_prefix c "'").
Qed.

(** C8, where the code departs from it.  For the character literal
    with text ['c'], [src/examen] emits CHLOAD of a fresh temporary with
    [c], the text without its first and last character;
    [src/practica] emits CHLOAD with the whole text, quotes included. *)
Theorem charval_chload_operand ctx c v :
  let temp := "%" +:+ fst (newTEMP v) in
  Examen.CodeGenVisitor.visit_expr (Examen.Value ctx (CHARVAL c)) v
    = ({| addr := temp; offs := ""; code := [instruction.CHLOAD temp c] |},
       snd (newTEMP v))
  ∧ Practica.CodeGenVisitor.visit_expr (Practica.Value ctx (CHARVAL c)) v
    = Some ({| addr := temp; offs := "";
               code := [instruction.CHLOAD temp ("'" +:+ c +:+ "'")] |},
            snd (newTEMP v)).
Proof.
  split.
  - cbn [Examen.CodeGenVisitor.visit_expr].
    unfold Examen.CodeGenVisitor.visitValue.
    cbn -[substr valueText String.length].
    by rewrite substr_strips_quotes.
  - reflexivity.
Qed.

Section ExamenCalls.
Variable visit : Examen.ExprContext → CGState → CodeAttribs * CGState.

Lemma examen_lowerArguments_app tFunc exprs :
  ∀ i code pushCode popCode c0 p0 q0 v,
    Examen.CodeGenVisitor.lowerArguments visit tFunc i exprs
      (code ++ c0) (pushCode ++ p0) (popCode ++ q0) v =
    let '(c, p, q, v') :=
      Examen.CodeGenVisitor.lowerArguments visit tFunc i exprs c0 p0 q0 v in
    (code ++ c, pushCode ++ p, popCode ++ q, v').
Proof.
  induction exprs as [|e exprs IH]; intros i code pushCode popCode c0 p0 q0 v.
  - reflexivity.
  - cbn [Examen.CodeGenVisitor.lowerArguments].
    destruct (visit e v) as [codAt1 v1].
    destruct (isIntegerTy _ && isFloatTy _); [|destruct (isArrayTy _ && _)];
      cbn -[app]; rewrite <- !app_assoc; apply IH.
Qed.

Lemma examen_lowerArguments_acc tFunc exprs i code pushCode popCode v :
  Examen.CodeGenVisitor.lowerArguments visit tFunc i exprs code pushCode popCode v =
  let '(c, p, q, v') :=
    Examen.CodeGenVisitor.lowerArguments visit tFunc i exprs [] [] [] v in
  (code ++ c, pushCode ++ p, popCode ++ q, v').
Proof.
  rewrite <- (examen_lowerArguments_app tFunc exprs i code pushCode popCode [] [] [] v).
  by rewrite !app_nil_r.
Qed.

Lemma examen_lowerArguments_shape tFunc exprs :
  ∀ i v, ∃ argCode addrs v',
    Examen.CodeGenVisitor.lowerArguments visit tFunc i exprs [] [] [] v
      = (argCode, map instruction.PUSH addrs, repeat instruction.POP0 (length exprs), v')
    ∧ length addrs = length exprs.
Proof.
  induction exprs as [|e exprs IH]; intros i v.
  - by exists [], [], v.
  - cbn [Examen.CodeGenVisitor.lowerArguments].
    destruct (visit e v) as [codAt1 v1].
    destruct (isIntegerTy _ && isFloatTy _); [|destruct (isArrayTy _ && _)];
    cbn -[app]; rewrite examen_lowerArguments_acc;
    match goal with
    | |- context [Examen.CodeGenVisitor.lowerArguments visit tFunc (S i) exprs [] [] [] ?w] =>
        destruct (IH (S i) w) as (c & a & v' & -> & Hlen)
    end;
    eexists _, (_ :: a), _; (split; [reflexivity | by cbn; rewrite Hlen]).
Qed.

Lemma examen_visitFunction_call function_call v :
  let funcName := ident_ID (function_call_ident function_call) in
  let tFunc := getTypeDecor (ident_ctx (function_call_ident function_call)) v in
  let n := length (function_call_expr function_call) in
  let nonVoid := negb (isVoidFunction tFunc) in
  ∃ argCode addrs v1,
    Examen.CodeGenVisitor.lowerArguments visit tFunc 0
      (function_call_expr function_call) [] [] [] v
      = (argCode, map instruction.PUSH addrs, repeat instruction.POP0 n, v1)
    ∧ length addrs = n
    ∧ let temp := "%" +:+ fst (newTEMP v1) in
      Examen.CodeGenVisitor.visitFunction_call visit function_call v =
        ({| addr := if nonVoid then temp else "";
            offs := "";
            code := (if nonVoid then [instruction.PUSH0] else [])
                    ++ argCode ++ map instruction.PUSH addrs
                    ++ [instruction.CALL funcName]
                    ++ repeat instruction.POP0 n
                    ++ (if nonVoid then [instruction.POP temp] else []) |},
         if nonVoid then snd (newTEMP v1) else v1).
Proof.
  intros funcName tFunc n nonVoid.
  destruct (examen_lowerArguments_shape tFunc (function_call_expr function_call) 0 v)
    as (argCode & addrs & v1 & Hargs & Hlen).
  exists argCode, addrs, v1. split; [exact Hargs|]. split; [exact Hlen|].
  unfold Examen.CodeGenVisitor.visitFunction_call.
  fold funcName tFunc nonVoid.
  destruct nonVoid.
  - cbn -[app]. rewrite examen_lowerArguments_acc, Hargs. cbn -[app].
    by rewrite <- !app_assoc.
  - cbn -[app]. rewrite Hargs. cbn -[app]. by rewrite !app_nil_r, <- ?app_assoc.
Qed.

End ExamenCalls.

Section PracticaCalls.
Variable visit : Practica.ExprContext → CGState → option (CodeAttribs * CGState).

Lemma practica_lowerArguments_app tFunc exprs :
  ∀ i code pushCode popCode c0 p0 q0 v,
    Practica.CodeGenVisitor.lowerArguments visit tFunc i exprs
      (code ++ c0) (pushCode ++ p0) (popCode ++ q0) v =
    '(c, p, q, v') ←
      Practica.CodeGenVisitor.lowerArguments visit tFunc i exprs c0 p0 q0 v;
    Some (code ++ c, pushCode ++ p, popCode ++ q, v').
Proof.
  induction exprs as [|e exprs IH]; intros i code pushCode popCode c0 p0 q0 v.
  - reflexivity.
  - cbn [Practica.CodeGenVisitor.lowerArguments].
    destruct (visit e v) as [[codAt1 v1]|]; [|reflexivity].
    cbn [mbind option_bind].
    destruct (isIntegerTy _ && isFloatTy _); [|destruct (isArrayTy _)];
      cbn -[app]; rewrite <- !app_assoc; apply IH.
Qed.

Lemma practica_lowerArguments_shape tFunc exprs :
  ∀ i c0 p0 q0 v argCode pushCode popCode v',
    Practica.CodeGenVisitor.lowerArguments visit tFunc i exprs c0 p0 q0 v
      = Some (argCode, pushCode, popCode, v') →
    ∃ addrs, pushCode = p0 ++ map instruction.PUSH addrs
             ∧ length addrs = length exprs
             ∧ popCode = q0 ++ repeat instruction.POP0 (length exprs).
Proof.
  induction exprs as [|e exprs IH]; intros i c0 p0 q0 v argCode pushCode popCode v'.
  - cbn. intros [= <- <- <- <-]. exists []. by rewrite !app_nil_r.
  - cbn [Practica.CodeGenVisitor.lowerArguments].
    destruct (visit e v) as [[codAt1 v1]|]; [|done].
    cbn [mbind option_bind].
    destruct (isIntegerTy _ && isFloatTy _); [|destruct (isArrayTy _)];
      cbn -[app]; intros H; apply IH in H as (addrs & -> & Hlen & ->);
      exists (addr codAt1 :: addrs); cbn; rewrite <- !app_assoc, Hlen; done.
Qed.

Lemma practica_visitFunction_call function_call v argCode pushCode popCode v1 :
  let funcName := ident_ID (function_call_ident function_call) in
  let tFunc := getTypeDecor (ident_ctx (function_call_ident function_call)) v in
  let n := length (function_call_expr function_call) in
  Practica.CodeGenVisitor.lowerArguments visit tFunc 0
    (function_call_expr function_call) [] [] [] v
    = Some (argCode, pushCode, popCode, v1) →
  let temp := "%" +:+ fst (newTEMP v1) in
  Practica.CodeGenVisitor.visitFunction_call visit function_call v =
    Some ({| addr := temp;
             offs := "";
             code := [instruction.PUSH0] ++ argCode ++ pushCode
                     ++ [instruction.CALL funcName] ++ popCode
                     ++ [instruction.POP temp] |},
          snd (newTEMP v1))
  ∧ popCode = repeat instruction.POP0 n
  ∧ ∃ addrs, pushCode = map instruction.PUSH addrs ∧ length addrs = n.
Proof.
  intros funcName tFunc n Hargs temp.
  destruct (practica_lowerArguments_shape _ _ _ _ _ _ _ _ _ _ _ Hargs)
    as (addrs & Hp & Hlen & Hq).
  split; [|split; [exact Hq | by exists addrs]].
  unfold Practica.CodeGenVisitor.visitFunction_call. fold funcName tFunc.
  change ([] ++ [instruction.PUSH0]) with [instruction.PUSH0].
  pose proof (practica_lowerArguments_app tFunc (function_call_expr function_call)
                0 [instruction.PUSH0] [] [] [] [] [] v) as Happ.
  rewrite Hargs in Happ. cbn in Happ. rewrite Happ. cbn -[app newTEMP].
  subst temp. destruct (newTEMP v1) as [n0 v0]. cbn.
  by rewrite <- !app_assoc.
Qed.

End PracticaCalls.

(** [visitProcCall] of [src/examen] returns the code of the call lowered
    as an expression, and that code contains the CALL. *)
Lemma examen_visitProcCall ctx ctx' function_call v :
  let r := Examen.CodeGenVisitor.visit_expr (Examen.ExprFunc ctx' function_call) v in
  Examen.CodeGenVisitor.visit_statement (Examen.ProcCall ctx function_call) v
    = (code (fst r), snd r)
  ∧ instruction.CALL (ident_ID (function_call_ident function_call)) ∈ code (fst r).
Proof.
  cbn [Examen.CodeGenVisitor.visit_statement Examen.CodeGenVisitor.visit_expr].
  unfold Examen.CodeGenVisitor.visitProcCall, Examen.CodeGenVisitor.visitExprFunc.
  destruct (examen_visitFunction_call Examen.CodeGenVisitor.visit_expr function_call v)
    as (argCode & addrs & v1 & _ & _ & ->).
  split; [reflexivity|]. cbn [fst code]. set_solver.
Qed.

(** C2, where the code departs from it.  [visitProcCall] of
    [src/practica] returns the empty instruction list for every
    procedure call and leaves the fields as they were: for [p()] it
    emits nothing, while the same call lowered as an expression gives
    PUSH, CALL p, POP; [src/examen] gives CALL p for the statement and
    for the expression. *)
Theorem practica_proccall_emits_nothing :
  (∀ ctx function_call v,
     Practica.CodeGenVisitor.visit_statement (Practica.ProcCall ctx function_call) v
       = Some ([], v))
  ∧
  (let v := sampleCG decorProcedure in
   (fst <$> Practica.CodeGenVisitor.visit_statement
              (Practica.ProcCall 1 {| function_call_ctx := 2;
                                      function_call_ident := identAt3 "p";
                                      function_call_expr := [] |}) v)
     = Some []
   ∧ (code ∘ fst <$> Practica.CodeGenVisitor.visit_expr
              (Practica.ExprFunc 1 {| function_call_ctx := 2;
                                      function_call_ident := identAt3 "p";
                                      function_call_expr := [] |}) v)
     = Some [instruction.PUSH0; instruction.CALL "p"; instruction.POP "%1"]
   ∧ fst (Examen.CodeGenVisitor.visit_statement
            (Examen.ProcCall 1 {| function_call_ctx := 2;
                                  function_call_ident := identAt3 "p";
                                  function_call_expr := [] |}) v)
     = [instruction.CALL "p"]
   ∧ code (fst (Examen.CodeGenVisitor.visit_expr
            (Examen.ExprFunc 1 {| function_call_ctx := 2;
                                  function_call_ident := identAt3 "p";
                                  function_call_expr := [] |}) v))
     = [instruction.CALL "p"]).
Proof. split; [reflexivity|]. vm_compute. split_and!; reflexivity. Qed.

(** C4.  The code of a call to a callee of type Function(params, ret)
    is: an argumentless PUSH if and only if [ret] is not void; the code
    of the arguments; one PUSH per argument; CALL; one argumentless POP
    per argument; and a POP into a fresh temporary, which is the address
    of the call, if and only if [ret] is not void (the address is empty
    otherwise).  In [src/examen] this holds of every call.  In
    [src/practica] a call is lowered only as an expression
    ([visitProcCall] does not visit its call), where the type check
    admits only a callee whose return type is not void
    ([practica_void_callee_is_reported]); for such a callee, whenever
    the arguments are lowered, the code is that sequence, with the
    leading PUSH and the final POP into a fresh temporary. *)
Theorem function_call_result_slot :
  (∀ ctx function_call v params ret,
     let funcName := ident_ID (function_call_ident function_call) in
     let n := length (function_call_expr function_call) in
     getTypeDecor (ident_ctx (function_call_ident function_call)) v
       = TFunction params ret →
     let nonVoid := negb (isVoidTy ret) in
     ∃ argCode addrs v1,
       Examen.CodeGenVisitor.lowerArguments Examen.CodeGenVisitor.visit_expr
         (TFunction params ret) 0 (function_call_expr function_call) [] [] [] v
         = (argCode, map instruction.PUSH addrs, repeat instruction.POP0 n, v1)
       ∧ length addrs = n
       ∧ let temp := "%" +:+ fst (newTEMP v1) in
         Examen.CodeGenVisitor.visit_expr (Examen.ExprFunc ctx function_call) v =
           ({| addr := if nonVoid then temp else "";
               offs := "";
               code := (if nonVoid then [instruction.PUSH0] else [])
                       ++ argCode ++ map instruction.PUSH addrs
                       ++ [instruction.CALL funcName]
                       ++ repeat instruction.POP0 n
                       ++ (if nonVoid then [instruction.POP temp] else []) |},
            if nonVoid then snd (newTEMP v1) else v1))
  ∧
  (∀ ctx function_call v params ret argCode pushCode popCode v1,
     let funcName := ident_ID (function_call_ident function_call) in
     let n := length (function_call_expr function_call) in
     getTypeDecor (ident_ctx (function_call_ident function_call)) v
       = TFunction params ret →
     isVoidTy ret = false →
     Practica.CodeGenVisitor.lowerArguments Practica.CodeGenVisitor.visit_expr
       (TFunction params ret) 0 (function_call_expr function_call) [] [] [] v
       = Some (argCode, pushCode, popCode, v1) →
     let nonVoid := negb (isVoidTy ret) in
     let temp := "%" +:+ fst (newTEMP v1) in
     Practica.CodeGenVisitor.visit_expr (Practica.ExprFunc ctx function_call) v =
       Some ({| addr := if nonVoid then temp else "";
                offs := "";
                code := (if nonVoid then [instruction.PUSH0] else [])
                        ++ argCode ++ pushCode
                        ++ [instruction.CALL funcName] ++ popCode
                        ++ (if nonVoid then [instruction.POP temp] else []) |},
             if nonVoid then snd (newTEMP v1) else v1)
     ∧ popCode = repeat instruction.POP0 n
     ∧ ∃ addrs, pushCode = map instruction.PUSH addrs ∧ length addrs = n).
Proof.
  split.
  - intros ctx function_call v params ret funcName n Ht nonVoid.
    pose proof (examen_visitFunction_call Examen.CodeGenVisitor.visit_expr
                  function_call v) as H.
    cbn zeta in H. rewrite Ht in H. exact H.
  - intros ctx function_call v params ret argCode pushCode popCode v1 funcName n
      Ht Hret Hargs nonVoid temp.
    subst nonVoid. rewrite Hret. cbn [negb]. rewrite <- Ht in Hargs.
    by apply (practica_visitFunction_call Practica.CodeGenVisitor.visit_expr).
Qed.

Lemma function_call_result_slot_witness :
  (let v := sampleCG decorFunction in
   let call := {| function_call_ctx := 2; function_call_ident := identAt3 "f";
                  function_call_expr := [Examen.Value 4 (INTVAL "7")] |} in
   ∃ argCode addrs v1,
     Examen.CodeGenVisitor.lowerArguments Examen.CodeGenVisitor.visit_expr
       (TFunction [TFloat] TInteger) 0 (function_call_expr call) [] [] [] v
       = (argCode, map instruction.PUSH addrs, [instruction.POP0], v1)
     ∧ length addrs = 1
     ∧ let temp := "%" +:+ fst (newTEMP v1) in
       Examen.CodeGenVisitor.visit_expr (Examen.ExprFunc 1 call) v =
         ({| addr := temp; offs := "";
             code := [instruction.PUSH0] ++ argCode ++ map instruction.PUSH addrs
                     ++ [instruction.CALL "f"] ++ [instruction.POP0]
                     ++ [instruction.POP temp] |},
          snd (newTEMP v1)))
  ∧
  (let v := sampleCG decorFunction in
   let call := {| function_call_ctx := 2; function_call_ident := identAt3 "f";
                  function_call_expr := [Practica.Value 4 (INTVAL "7")] |} in
   getTypeDecor 3 v = TFunction [TFloat] TInteger
   ∧ isVoidTy TInteger = false
   ∧ Practica.CodeGenVisitor.visit_expr (Practica.ExprFunc 1 call) v =
       Some ({| addr := "%3"; offs := "";
                code := [instruction.PUSH0; instruction.ILOAD "%1" "7";
                         instruction.FLOAT "%2" "%1"; instruction.PUSH "%1";
                         instruction.CALL "f"; instruction.POP0;
                         instruction.POP "%3"] |},
             snd (newTEMP (snd (newTEMP (snd (newTEMP v))))))).
Proof.
  split.
  - exact (proj1 function_call_result_slot 1
             {| function_call_ctx := 2; function_call_ident := identAt3 "f";
                function_call_expr := [Examen.Value 4 (INTVAL "7")] |}
             (sampleCG decorFunction) [TFloat] TInteger eq_refl).
  - split; [reflexivity|]. split; [reflexivity|].
    exact (proj1 (proj2 function_call_result_slot 1
             {| function_call_ctx := 2; function_call_ident := identAt3 "f";
                function_call_expr := [Practica.Value 4 (INTVAL "7")] |}
             (sampleCG decorFunction) [TFloat] TInteger
             [instruction.ILOAD "%1" "7"; instruction.FLOAT "%2" "%1"]
             [instruction.PUSH "%1"] [instruction.POP0]
             (snd (newTEMP (snd (newTEMP (sampleCG decorFunction)))))
             eq_refl eq_refl eq_refl)).
Defined.


Lemma porReferencia_acc addr code v :
  Examen.CodeGenVisitor.porReferencia addr code v =
  let '(a, c, w) := Examen.CodeGenVisitor.porReferencia addr [] v in (a, code ++ c, w).
Proof.
  unfold Examen.CodeGenVisitor.porReferencia.
  destruct (SymTable.isParameterClass _ _); cbn; [done | by rewrite app_nil_r].
Qed.

(** [visitIfStmt] of [src/examen].  The code is the code of the
    condition, what brings an indexed condition into an address (a LOADX,
    after the LOAD of the base when the base is a parameter; nothing for
    a condition that is not indexed), the FJUMP on that address, and the
    branches with their labels. *)
Lemma examen_visitIfStmt visit ctx expr statements0 statements1 v :
  let '(codAtsE, v1) := Examen.CodeGenVisitor.visit_expr expr v in
  let '(cond, indexed, v2) :=
    if nonEmpty (offs codAtsE) then
      let '(a, c, w) := Examen.CodeGenVisitor.porReferencia (addr codAtsE) [] v1 in
      (a, c ++ [instruction.LOADX a a (offs codAtsE)], w)
    else (addr codAtsE, [], v1) in
  let '(thenCode, v3) := visit statements0 v2 in
  let '(label, v4) := newLabelIF v3 in
  let elseLabel := "else" +:+ label in
  let endifLabel := "endif" +:+ label in
  Examen.CodeGenVisitor.visitIfStmt visit ctx expr statements0 statements1 v =
    match statements1 with
    | Some s1 =>
        let '(elseCode, v5) := visit s1 v4 in
        (code codAtsE ++ indexed
           ++ [instruction.FJUMP cond elseLabel] ++ thenCode
           ++ [instruction.UJUMP endifLabel; instruction.LABEL elseLabel]
           ++ elseCode ++ [instruction.LABEL endifLabel], v5)
    | None =>
        (code codAtsE ++ indexed
           ++ [instruction.FJUMP cond endifLabel] ++ thenCode
           ++ [instruction.LABEL endifLabel], v4)
    end.
Proof.
  unfold Examen.CodeGenVisitor.visitIfStmt.
  destruct (Examen.CodeGenVisitor.visit_expr expr v) as [codAtsE v1].
  cbn [app].
  destruct (nonEmpty (offs codAtsE)).
  - rewrite (porReferencia_acc (addr codAtsE) (code codAtsE) v1).
    destruct (Examen.CodeGenVisitor.porReferencia (addr codAtsE) [] v1) as [[a c] w].
    destruct (visit statements0 w) as [thenCode v3].
    destruct (newLabelIF v3) as [label v4].
    destruct statements1 as [s1|].
    + destruct (visit s1 v4) as [elseCode v5]. by rewrite <- ?app_assoc.
    + by rewrite <- ?app_assoc.
  - destruct (visit statements0 v1) as [thenCode v3].
    destruct (newLabelIF v3) as [label v4].
    destruct statements1 as [s1|].
    + destruct (visit s1 v4) as [elseCode v5]. by rewrite <- ?app_assoc.
    + by rewrite <- ?app_assoc.
Qed.

(** C5, where the code departs from it.  [visitIfStmt] of
    [src/practica] does not look at the else branch: an [if] with an
    else branch is lowered exactly as the same [if] without it.  For
    [if true then write 1; else write 2; endif] the code has no jump to
    an else label and none of the code of the else branch;
    [src/examen] lowers the same statement as the claim says. *)
Theorem practica_if_ignores_else :
  (∀ visit ctx expr statements0 statements1 v,
     Practica.CodeGenVisitor.visitIfStmt visit ctx expr statements0 (Some statements1) v
     = Practica.CodeGenVisitor.visitIfStmt visit ctx expr statements0 None v)
  ∧
  (let v := sampleCG decorIfElse in
   (fst <$> Practica.CodeGenVisitor.visit_statement
      (Practica.IfStmt 1 (Practica.Value 5 (BOOLVAL "true"))
         {| statements_ctx := 6;
            statements_statement :=
              [Practica.WriteExpr 7 (Practica.Value 8 (INTVAL "1"))] |}
         (Some {| statements_ctx := 9;
                  statements_statement :=
                    [Practica.WriteExpr 10 (Practica.Value 11 (INTVAL "2"))] |})) v)
   = Some [instruction.ILOAD "%1" "1"; instruction.FJUMP "%1" "endif1";
           instruction.ILOAD "%2" "1"; instruction.WRITEI "%2";
           instruction.LABEL "endif1"]
   ∧
   fst (Examen.CodeGenVisitor.visit_statement
      (Examen.IfStmt 1 (Examen.Value 5 (BOOLVAL "true"))
         {| statements_ctx := 6;
            statements_statement :=
              [Examen.WriteExpr 7 (Examen.Value 8 (INTVAL "1"))] |}
         (Some {| statements_ctx := 9;
                  statements_statement :=
                    [Examen.WriteExpr 10 (Examen.Value 11 (INTVAL "2"))] |})) v)
   = [instruction.ILOAD "%1" "1"; instruction.FJUMP "%1" "else1";
      instruction.ILOAD "%2" "1"; instruction.WRITEI "%2";
      instruction.UJUMP "endif1"; instruction.LABEL "else1";
      instruction.ILOAD "%3" "2"; instruction.WRITEI "%3";
      instruction.LABEL "endif1"]).
Proof. split; [reflexivity|]. vm_compute. split; reflexivity. Qed.

End CodeGenFacts.

(* ================================================================== *)
(** ** Induction over the parse trees *)
(* ================================================================== *)

Section Induction.
Import AslParser Examen.

Lemma ExprContext_ind' (P : ExprContext → Prop) :
  (∀ ctx expr, P expr → P (Parenthesis ctx expr)) →
  (∀ ctx function_call,
     Forall P (function_call_expr function_call) → P (ExprFunc ctx function_call)) →
  (∀ ctx op expr, P expr → P (Unary ctx op expr)) →
  (∀ ctx op expr0 expr1, P expr0 → P expr1 → P (Arithmetic ctx op expr0 expr1)) →
  (∀ ctx op expr0 expr1, P expr0 → P expr1 → P (Relational ctx op expr0 expr1)) →
  (∀ ctx op expr0 expr1, P expr0 → P expr1 → P (Logical ctx op expr0 expr1)) →
  (∀ ctx ident expr, P expr → P (ArrayAccess ctx ident expr)) →
  (∀ ctx tk, P (Value ctx tk)) →
  (∀ ctx ident, P (ExprIdent ctx ident)) →
  ∀ e, P e.
Proof.
  intros HPar HFun HUn HAr HRel HLog HArr HVal HId.
  fix IH 1. intros [ctx e|ctx [c i l]|ctx op e|ctx op e0 e1|ctx op e0 e1|ctx op e0 e1
                   |ctx i e|ctx tk|ctx i].
  - apply HPar, IH.
  - apply HFun. cbn.
    revert l. fix IHl 1. intros [|x l]; constructor; [apply IH | apply IHl].
  - apply HUn, IH.
  - apply HAr; apply IH.
  - apply HRel; apply IH.
  - apply HLog; apply IH.
  - apply HArr, IH.
  - apply HVal.
  - apply HId.
Qed.

Lemma StatementContext_ind' (P : StatementContext → Prop) :
  (∀ ctx left_expr expr, P (AssignStmt ctx left_expr expr)) →
  (∀ ctx expr statements0 statements1,
     Forall P (statements_statement statements0) →
     (∀ s1, statements1 = Some s1 → Forall P (statements_statement s1)) →
     P (IfStmt ctx expr statements0 statements1)) →
  (∀ ctx expr statements,
     Forall P (statements_statement statements) → P (WhileStmt ctx expr statements)) →
  (∀ ctx function_call, P (ProcCall ctx function_call)) →
  (∀ ctx left_expr, P (ReadStmt ctx left_expr)) →
  (∀ ctx expr, P (WriteExpr ctx expr)) →
  (∀ ctx s, P (WriteString ctx s)) →
  (∀ ctx expr, P (ReturnStmt ctx expr)) →
  ∀ s, P s.
Proof.
  intros HAs HIf HWh HPc HRd HWe HWs HRet.
  fix IH 1. intros [ctx l e|ctx e [c0 l0] s1|ctx e [c l]|ctx fc|ctx l|ctx e|ctx s|ctx e].
  - apply HAs.
  - assert (Forall P l0) as H0.
    { revert l0. fix IHl 1. intros [|x l]; constructor; [apply IH | apply IHl]. }
    destruct s1 as [[c1 l1]|]; apply HIf; cbn; try exact H0.
    + intros s [= <-]. cbn.
      revert l1. fix IHl 1. intros [|x l]; constructor; [apply IH | apply IHl].
    + intros s [=].
  - apply HWh; cbn.
    revert l. fix IHl 1. intros [|x l]; constructor; [apply IH | apply IHl].
  - apply HPc.
  - apply HRd.
  - apply HWe.
  - apply HWs.
  - apply HRet.
Qed.
End Induction.

(* ================================================================== *)
(** ** The type check and the code generation leave the symbol table alone *)
(* ================================================================== *)

Section TypeCheckSymbols.
Import TypesMgr TypeCheck AslParser.











Lemma popScope_pushThisScope sc Sy :
  SymTable.popScope (SymTable.pushThisScope sc Sy) = Sy.
Proof. by destruct Sy. Qed.



End TypeCheckSymbols.

Section CodeGenSymbols.
Import TypesMgr CodeGen AslParser.


















End CodeGenSymbols.

(* ================================================================== *)
(** ** The symbol table under declarations *)
(* ================================================================== *)

Section SymTableFacts.
Import Spec.

Lemma extendsTop_refl Sy : extendsTop Sy Sy.
Proof. by split_and!. Qed.

Lemma extendsTop_trans Sy1 Sy2 Sy3 :
  extendsTop Sy1 Sy2 → extendsTop Sy2 Sy3 → extendsTop Sy1 Sy3.
Proof.
  intros (Hs & Hl & Ho & Hm) (Hs' & Hl' & Ho' & Hm'). split_and!.
  - congruence.
  - congruence.
  - intros sc Hsc. rewrite Ho' by (by rewrite Hs). by apply Ho.
  - intros sc ident H. by apply Hm', Hm.
Qed.

Lemma lookupIn_addSymbol cls ident t Sy top rest sc ident' :
  stack Sy = top :: rest → top < length (scopes Sy) →
  SymTable.lookupIn sc ident' (SymTable.addSymbol cls ident t Sy) =
    if decide (sc = top ∧ ident' = ident)
    then Some {| symClass := cls; symType := t |}
    else SymTable.lookupIn sc ident' Sy.
Proof.
  intros Hst Htop. unfold SymTable.addSymbol. rewrite Hst.
  destruct (lookup_lt_is_Some_2 _ _ Htop) as [s Hs]. rewrite Hs.
  unfold SymTable.lookupIn, SymTable.symsOf. cbn [scopes].
  destruct (decide (sc = top)) as [->|Hne].
  - rewrite list_lookup_insert_eq by done. rewrite Hs. cbn.
    destruct (decide (ident' = ident)) as [->|Hid].
    + destruct (decide (top = top ∧ ident = ident)) as [_|Hn]; [|naive_solver].
      by rewrite lookup_insert_eq.
    + destruct (decide (top = top ∧ ident' = ident)) as [[_ ?]|_]; [done|].
      by rewrite lookup_insert_ne by done.
  - rewrite list_lookup_insert_ne by done.
    destruct (decide (sc = top ∧ ident' = ident)) as [[? _]|_]; done.
Qed.

Lemma addSymbol_extendsTop cls ident t Sy :
  extendsTop Sy (SymTable.addSymbol cls ident t Sy).
Proof.
  unfold SymTable.addSymbol.
  destruct (stack Sy) as [|top rest] eqn:Hst; [apply extendsTop_refl|].
  destruct (scopes Sy !! top) as [s|] eqn:Hs; [|apply extendsTop_refl].
  unfold extendsTop. cbn [stack scopes]. rewrite Hst. split_and!.
  - done.
  - by rewrite length_insert.
  - intros sc Hsc. rewrite list_lookup_insert_ne; [done|]. cbn in Hsc. congruence.
  - intros sc id. unfold SymTable.lookupIn, SymTable.symsOf. cbn [scopes].
    destruct (decide (sc = top)) as [->|Hne].
    + rewrite list_lookup_insert_eq by (by eapply lookup_lt_Some). rewrite Hs. cbn.
      destruct (decide (id = ident)) as [->|Hid].
      * by rewrite lookup_insert_eq.
      * by rewrite lookup_insert_ne.
    + by rewrite list_lookup_insert_ne.
Qed.


Lemma findInCurrentScope_top ident Sy top rest :
  stack Sy = top :: rest →
  SymTable.findInCurrentScope ident Sy
  = bool_decide (is_Some (SymTable.lookupIn top ident Sy)).
Proof. intros H. unfold SymTable.findInCurrentScope. by rewrite H. Qed.

End SymTableFacts.


(* ================================================================== *)
(** ** The symbols pass (2022 exam) *)
(* ================================================================== *)

Section SymbolsPass.
Import TypesMgr AslParser Spec Examen2022.SymbolsVisitor
  Examen2022.SymbolsVisitor.Returned.

(** The lemmas of this part and of the next are about [Returned]: the
    fields a visit hands on when it returns.  [SymbolsReturns] carries
    them over to the visits themselves. *)

Lemma visitBasic_type_Symbols b v :
  sv_Symbols (visitBasic_type b v) = sv_Symbols v.
Proof. unfold visitBasic_type. by destruct (basic_kind b). Qed.

Lemma visitBasic_type_type b v :
  getTypeDecor (basic_ctx b) (visitBasic_type b v) = typeOfBasic b.
Proof.
  unfold visitBasic_type, typeOfBasic, getTypeDecor.
  destruct (basic_kind b); cbn; apply upd_same.
Qed.

Lemma visitType_Symbols t v : sv_Symbols (visitType t v) = sv_Symbols v.
Proof.
  unfold visitType. destruct (type_shape t); cbn [sv_Symbols putTypeDecor withDecorations];
    apply visitBasic_type_Symbols.
Qed.

Lemma visitType_type t v :
  getTypeDecor (type_ctx t) (visitType t v) = typeOfType t.
Proof.
  unfold visitType, typeOfType.
  destruct (type_shape t); unfold getTypeDecor at 1; cbn; rewrite upd_same;
    by rewrite ?visitBasic_type_type.
Qed.

Lemma visitParameter_extendsTop p v :
  extendsTop (sv_Symbols v) (sv_Symbols (visitParameter p v)).
Proof.
  unfold visitParameter. destruct (SymTable.findInCurrentScope _ _); cbn.
  - apply extendsTop_refl.
  - rewrite visitType_Symbols. apply addSymbol_extendsTop.
Qed.

Lemma declareIds_extendsTop ctx t1 ids :
  ∀ i v, extendsTop (sv_Symbols v) (sv_Symbols (declareIds ctx t1 i ids v)).
Proof.
  induction ids as [|id ids IH]; intros i v; cbn [declareIds].
  - apply extendsTop_refl.
  - eapply extendsTop_trans; [|apply IH].
    destruct (SymTable.findInCurrentScope _ _); cbn;
      [apply extendsTop_refl | apply addSymbol_extendsTop].
Qed.

Lemma visitVariable_decl_extendsTop d v :
  extendsTop (sv_Symbols v) (sv_Symbols (visitVariable_decl d v)).
Proof.
  unfold visitVariable_decl.
  eapply extendsTop_trans; [|apply declareIds_extendsTop].
  rewrite visitType_Symbols. apply extendsTop_refl.
Qed.

Lemma visitDeclarations_extendsTop ds v :
  extendsTop (sv_Symbols v) (sv_Symbols (visitDeclarations ds v)).
Proof.
  unfold visitDeclarations. revert v.
  induction (declarations_variable_decl ds) as [|d l IH]; intros v; cbn [fold_left].
  - apply extendsTop_refl.
  - eapply extendsTop_trans; [apply visitVariable_decl_extendsTop | apply IH].
Qed.

Lemma visitParameters_extendsTop params :
  ∀ acc v, extendsTop (sv_Symbols v) (sv_Symbols (snd (visitParameters params acc v))).
Proof.
  induction params as [|p params IH]; intros acc v; cbn [visitParameters].
  - apply extendsTop_refl.
  - eapply extendsTop_trans; [apply visitParameter_extendsTop | apply IH].
Qed.

(** The fields after [pushNewScope]: a fresh, empty scope, innermost. *)
Lemma pushNewScope_spec name v :
  let new := length (scopes (sv_Symbols v)) in
  let r := pushNewScope name v in
  fst r = new
  ∧ stack (sv_Symbols (snd r)) = new :: stack (sv_Symbols v)
  ∧ length (scopes (sv_Symbols (snd r))) = S new
  ∧ (∀ sc, sc < new → scopes (sv_Symbols (snd r)) !! sc = scopes (sv_Symbols v) !! sc)
  ∧ (∀ ident, SymTable.lookupIn new ident (sv_Symbols (snd r)) = None)
  ∧ sv_Decorations (snd r) = sv_Decorations v
  ∧ sv_Errors (snd r) = sv_Errors v.
Proof.
  cbn. split_and!; try done.
  - rewrite length_app. cbn. lia.
  - intros sc Hsc. by rewrite lookup_app_l.
  - intros ident. unfold SymTable.lookupIn, SymTable.symsOf. cbn.
    rewrite lookup_app_r by done. by rewrite Nat.sub_diag.
Qed.

Lemma visitParameter_registered p v top rest :
  stack (sv_Symbols v) = top :: rest → top < length (scopes (sv_Symbols v)) →
  is_Some (SymTable.lookupIn top (parameter_ID p) (sv_Symbols (visitParameter p v))).
Proof.
  intros Hst Htop. unfold visitParameter.
  rewrite (findInCurrentScope_top _ _ _ _ Hst).
  case_bool_decide as Hin; [exact Hin|].
  cbn [sv_Symbols withSymbols putTypeDecor withDecorations].
  unfold SymTable.addParameter.
  rewrite (lookupIn_addSymbol _ _ _ _ top rest) by (by rewrite visitType_Symbols).
  by rewrite decide_True.
Qed.

Lemma declareIds_registered ctx t1 ids :
  ∀ i v top rest,
    stack (sv_Symbols v) = top :: rest → top < length (scopes (sv_Symbols v)) →
    ∀ ident, ident ∈ ids →
      is_Some (SymTable.lookupIn top ident (sv_Symbols (declareIds ctx t1 i ids v))).
Proof.
  induction ids as [|id ids IH]; intros i v top rest Hst Htop ident Hin;
    [by apply elem_of_nil in Hin|].
  cbn [declareIds].
  set (v' := if SymTable.findInCurrentScope id (sv_Symbols v) then _ else _).
  assert (extendsTop (sv_Symbols v) (sv_Symbols v')) as Hext.
  { subst v'. destruct (SymTable.findInCurrentScope _ _); cbn;
      [apply extendsTop_refl | apply addSymbol_extendsTop]. }
  assert (is_Some (SymTable.lookupIn top id (sv_Symbols v'))) as Hid.
  { subst v'. rewrite (findInCurrentScope_top _ _ _ _ Hst).
    case_bool_decide as Hfound; [exact Hfound|]. cbn.
    unfold SymTable.addLocalVar.
    rewrite (lookupIn_addSymbol _ _ _ _ top rest) by done. by rewrite decide_True. }
  destruct Hext as (Hs & Hl & _ & _).
  apply elem_of_cons in Hin as [->|Hin].
  - eapply declareIds_extendsTop, Hid.
  - eapply IH; [by rewrite Hs | by rewrite Hl | done].
Qed.

Lemma visitParameters_registered params :
  ∀ acc v top rest,
    stack (sv_Symbols v) = top :: rest → top < length (scopes (sv_Symbols v)) →
    ∀ p, p ∈ params →
      is_Some (SymTable.lookupIn top (parameter_ID p)
                 (sv_Symbols (snd (visitParameters params acc v)))).
Proof.
  induction params as [|q params IH]; intros acc v top rest Hst Htop p Hin;
    [by apply elem_of_nil in Hin|].
  cbn [visitParameters].
  destruct (visitParameter_extendsTop q v) as (Hs & Hl & _ & _).
  apply elem_of_cons in Hin as [->|Hin].
  - eapply visitParameters_extendsTop. by eapply visitParameter_registered.
  - eapply IH; [by rewrite Hs | by rewrite Hl | done].
Qed.

Lemma visitDeclarations_registered ds v top rest :
  stack (sv_Symbols v) = top :: rest → top < length (scopes (sv_Symbols v)) →
  ∀ d ident, d ∈ declarations_variable_decl ds → ident ∈ variable_decl_ID d →
    is_Some (SymTable.lookupIn top ident (sv_Symbols (visitDeclarations ds v))).
Proof.
  unfold visitDeclarations. revert v.
  induction (declarations_variable_decl ds) as [|d0 l IH];
    intros v Hst Htop d ident Hd Hid; [by apply elem_of_nil in Hd|].
  cbn [fold_left].
  destruct (visitVariable_decl_extendsTop d0 v) as (Hs & Hl & _ & _).
  apply elem_of_cons in Hd as [->|Hd].
  - eapply (visitDeclarations_extendsTop {| declarations_ctx := 0;
                                            declarations_variable_decl := l |}).
    unfold visitVariable_decl.
    eapply declareIds_registered; rewrite ?visitType_Symbols; done.
  - eapply IH; [by rewrite Hs | by rewrite Hl | done..].
Qed.

Lemma visitParameters_length params :
  ∀ acc v, length (fst (visitParameters params acc v)) = length acc + length params.
Proof.
  induction params as [|p params IH]; intros acc v; cbn [visitParameters].
  - cbn. lia.
  - rewrite IH, length_app. cbn. lia.
Qed.

Lemma visitParameter_fresh q v top rest :
  stack (sv_Symbols v) = top :: rest →
  SymTable.lookupIn top (parameter_ID q) (sv_Symbols v) = None →
  visitParameter q v =
    withSymbols (SymTable.addParameter (parameter_ID q) (typeOfType (parameter_type q)))
      (putTypeDecor (parameter_ctx q) (typeOfType (parameter_type q))
         (visitType (parameter_type q) v)).
Proof.
  intros Hst Hfree. unfold visitParameter.
  rewrite (findInCurrentScope_top _ _ _ _ Hst), Hfree.
  rewrite bool_decide_eq_false_2 by (by intros [? [=]]).
  by rewrite visitType_type.
Qed.

Lemma visitParameters_types params :
  ∀ acc v top rest,
    stack (sv_Symbols v) = top :: rest → top < length (scopes (sv_Symbols v)) →
    NoDup (map parameter_ID params) →
    (∀ p, p ∈ params → SymTable.lookupIn top (parameter_ID p) (sv_Symbols v) = None) →
    fst (visitParameters params acc v)
    = acc ++ map (λ p, typeOfType (parameter_type p)) params.
Proof.
  induction params as [|q params IH]; intros acc v top rest Hst Htop Hnd Hfree;
    cbn [visitParameters map].
  - by rewrite app_nil_r.
  - apply NoDup_cons in Hnd as [Hq Hnd].
    assert (q ∈ q :: params) as Hhere by (apply elem_of_cons; by left).
    rewrite (visitParameter_fresh q v top rest Hst (Hfree q Hhere)).
    destruct (addSymbol_extendsTop ParameterClass (parameter_ID q)
                (typeOfType (parameter_type q)) (sv_Symbols v)) as (Hs & Hl & _ & _).
    rewrite (IH _ _ top rest).
    + unfold getTypeDecor at 1. cbn. rewrite upd_same. by rewrite <- app_assoc.
    + cbn. rewrite visitType_Symbols. unfold SymTable.addParameter.
      by rewrite Hs.
    + cbn. rewrite visitType_Symbols. unfold SymTable.addParameter.
      by rewrite Hl.
    + done.
    + intros p Hp. cbn. rewrite visitType_Symbols. unfold SymTable.addParameter.
      rewrite (lookupIn_addSymbol _ _ _ _ top rest) by done.
      destruct (decide (top = top ∧ parameter_ID p = parameter_ID q)) as [[_ Heq]|_].
      * exfalso. apply Hq. rewrite <- Heq. apply list_elem_of_fmap. by exists p.
      * apply Hfree, elem_of_cons. by right.
Qed.

Lemma visitBasic_type_getScope b v :
  getScope (sv_Decorations (visitBasic_type b v)) = getScope (sv_Decorations v).
Proof. unfold visitBasic_type. by destruct (basic_kind b). Qed.

Lemma visitType_getScope t v :
  getScope (sv_Decorations (visitType t v)) = getScope (sv_Decorations v).
Proof.
  unfold visitType. destruct (type_shape t); cbn; apply visitBasic_type_getScope.
Qed.

Lemma visitParameter_getScope p v :
  getScope (sv_Decorations (visitParameter p v)) = getScope (sv_Decorations v).
Proof.
  unfold visitParameter. destruct (SymTable.findInCurrentScope _ _); cbn; [done|].
  apply visitType_getScope.
Qed.

Lemma visitParameters_getScope params :
  ∀ acc v, getScope (sv_Decorations (snd (visitParameters params acc v)))
           = getScope (sv_Decorations v).
Proof.
  induction params as [|p params IH]; intros acc v; cbn [visitParameters]; [done|].
  by rewrite IH, visitParameter_getScope.
Qed.

Lemma declareIds_Decorations ctx t1 ids :
  ∀ i v, sv_Decorations (declareIds ctx t1 i ids v) = sv_Decorations v.
Proof.
  induction ids as [|id ids IH]; intros i v; cbn [declareIds]; [done|].
  rewrite IH. by destruct (SymTable.findInCurrentScope _ _).
Qed.

Lemma visitDeclarations_getScope ds v :
  getScope (sv_Decorations (visitDeclarations ds v)) = getScope (sv_Decorations v).
Proof.
  unfold visitDeclarations. revert v.
  induction (declarations_variable_decl ds) as [|d l IH]; intros v; cbn [fold_left];
    [done|].
  rewrite IH. unfold visitVariable_decl.
  by rewrite declareIds_Decorations, visitType_getScope.
Qed.

Lemma lookupIn_scopes sc ident Sy Sy' :
  scopes Sy' !! sc = scopes Sy !! sc →
  SymTable.lookupIn sc ident Sy' = SymTable.lookupIn sc ident Sy.
Proof. intros H. unfold SymTable.lookupIn, SymTable.symsOf. by rewrite H. Qed.

Lemma firstDeclared_app ident l1 l2 :
  firstDeclared ident (l1 ++ l2)
  = orElse (firstDeclared ident l1) (firstDeclared ident l2).
Proof.
  induction l1 as [|[k x] l1 IH]; cbn; [done|]. by destruct (decide (k = ident)).
Qed.

Lemma orElse_assoc {A} (a b c : option A) :
  orElse (orElse a b) c = orElse a (orElse b c).
Proof. by destruct a. Qed.

(** A declaration guarded by [findInCurrentScope] never replaces a
    symbol of the current scope. *)
Lemma guarded_addSymbol_lookup cls ident t Sy top rest ident' :
  stack Sy = top :: rest → top < length (scopes Sy) →
  SymTable.lookupIn top ident'
    (if SymTable.findInCurrentScope ident Sy then Sy
     else SymTable.addSymbol cls ident t Sy)
  = orElse (SymTable.lookupIn top ident' Sy)
      (firstDeclared ident' [(ident, {| symClass := cls; symType := t |})]).
Proof.
  intros Hst Htop. rewrite (findInCurrentScope_top _ _ _ _ Hst). cbn.
  case_bool_decide as Hfound.
  - destruct (decide (ident = ident')) as [->|Hne].
    + by destruct Hfound as [x ->].
    + by destruct (SymTable.lookupIn top ident' Sy).
  - rewrite (lookupIn_addSymbol _ _ _ _ top rest) by done.
    destruct (decide (ident = ident')) as [->|Hne].
    + destruct (decide (top = top ∧ ident' = ident')) as [_|[]]; [|done].
      destruct (SymTable.lookupIn top ident' Sy) eqn:E; [|done].
      exfalso. apply Hfound. by eexists.
    + destruct (decide (top = top ∧ ident' = ident)) as [[_ ->]|_]; [done|].
      by destruct (SymTable.lookupIn top ident' Sy).
Qed.

Lemma visitParameter_lookup p v top rest ident' :
  stack (sv_Symbols v) = top :: rest → top < length (scopes (sv_Symbols v)) →
  SymTable.lookupIn top ident' (sv_Symbols (visitParameter p v))
  = orElse (SymTable.lookupIn top ident' (sv_Symbols v))
      (firstDeclared ident' (declaredParameters [p])).
Proof.
  intros Hst Htop.
  change (declaredParameters [p])
    with [(parameter_ID p, {| symClass := ParameterClass;
                              symType := typeOfType (parameter_type p) |})].
  rewrite <- (guarded_addSymbol_lookup _ _ _ _ top rest) by done.
  unfold visitParameter.
  destruct (SymTable.findInCurrentScope _ _); cbn [sv_Symbols withErrors withSymbols
    putTypeDecor withDecorations]; [done|].
  by rewrite visitType_Symbols, visitType_type.
Qed.

Lemma visitParameters_lookup params :
  ∀ acc v top rest ident',
    stack (sv_Symbols v) = top :: rest → top < length (scopes (sv_Symbols v)) →
    SymTable.lookupIn top ident' (sv_Symbols (snd (visitParameters params acc v)))
    = orElse (SymTable.lookupIn top ident' (sv_Symbols v))
        (firstDeclared ident' (declaredParameters params)).
Proof.
  induction params as [|p params IH]; intros acc v top rest ident' Hst Htop;
    cbn [visitParameters].
  - cbn. by destruct (SymTable.lookupIn _ _ _).
  - destruct (visitParameter_extendsTop p v) as (Hs & Hl & _ & _).
    rewrite (IH _ _ top rest) by (by rewrite ?Hs, ?Hl).
    rewrite (visitParameter_lookup _ _ top rest) by done.
    rewrite orElse_assoc. f_equal.
    change (declaredParameters (p :: params))
      with (declaredParameters [p] ++ declaredParameters params).
    by rewrite firstDeclared_app.
Qed.

Lemma declareIds_lookup ctx t1 ids :
  ∀ i v top rest ident',
    stack (sv_Symbols v) = top :: rest → top < length (scopes (sv_Symbols v)) →
    SymTable.lookupIn top ident' (sv_Symbols (declareIds ctx t1 i ids v))
    = orElse (SymTable.lookupIn top ident' (sv_Symbols v))
        (firstDeclared ident' (declaredIds t1 ids)).
Proof.
  induction ids as [|id ids IH]; intros i v top rest ident' Hst Htop;
    cbn [declareIds].
  - cbn. by destruct (SymTable.lookupIn _ _ _).
  - set (v' := if SymTable.findInCurrentScope id (sv_Symbols v) then _ else _).
    assert (sv_Symbols v' =
            if SymTable.findInCurrentScope id (sv_Symbols v) then sv_Symbols v
            else SymTable.addSymbol LocalVarClass id t1 (sv_Symbols v)) as Hv'.
    { subst v'. by destruct (SymTable.findInCurrentScope _ _). }
    assert (extendsTop (sv_Symbols v) (sv_Symbols v')) as (Hs & Hl & _ & _).
    { rewrite Hv'. destruct (SymTable.findInCurrentScope _ _);
        [apply extendsTop_refl | apply addSymbol_extendsTop]. }
    rewrite (IH _ _ top rest) by (by rewrite ?Hs, ?Hl).
    rewrite Hv', (guarded_addSymbol_lookup _ _ _ _ top rest) by done.
    rewrite orElse_assoc. f_equal.
    change (declaredIds t1 (id :: ids))
      with ([(id, {| symClass := LocalVarClass; symType := t1 |})] ++ declaredIds t1 ids).
    by rewrite firstDeclared_app.
Qed.

Lemma visitDeclarations_lookup ds v top rest ident' :
  stack (sv_Symbols v) = top :: rest → top < length (scopes (sv_Symbols v)) →
  SymTable.lookupIn top ident' (sv_Symbols (visitDeclarations ds v))
  = orElse (SymTable.lookupIn top ident' (sv_Symbols v))
      (firstDeclared ident' (declaredLocals (declarations_variable_decl ds))).
Proof.
  unfold visitDeclarations. revert v.
  induction (declarations_variable_decl ds) as [|d l IH]; intros v Hst Htop;
    cbn [fold_left].
  - cbn. by destruct (SymTable.lookupIn _ _ _).
  - destruct (visitVariable_decl_extendsTop d v) as (Hs & Hl & _ & _).
    rewrite IH by (by rewrite ?Hs, ?Hl).
    unfold visitVariable_decl.
    rewrite (declareIds_lookup _ _ _ _ _ top rest)
      by (by rewrite visitType_Symbols).
    rewrite visitType_Symbols, visitType_type, orElse_assoc. f_equal.
    change (declaredLocals (d :: l))
      with (declaredIds (typeOfType (variable_decl_type d)) (variable_decl_ID d)
            ++ declaredLocals l).
    by rewrite firstDeclared_app.
Qed.

Section Function.
Context {Stmts : Type}.
Implicit Types ctx : FunctionContext Stmts.

(** The state between the two halves of [visitFunction]. *)
Lemma visitFunction_scope_spec ctx v :
  let S0 := sv_Symbols v in
  let new := length (scopes S0) in
  let r := visitFunction_scope ctx v in
  let S1 := sv_Symbols (snd r) in
  stack S1 = stack S0
  ∧ length (scopes S1) = S new
  ∧ (∀ sc, sc < new → scopes S1 !! sc = scopes S0 !! sc)
  ∧ getScopeDecor (function_ctx ctx) (snd r) = new
  ∧ (∀ p, p ∈ function_parameter ctx →
          is_Some (SymTable.lookupIn new (parameter_ID p) S1))
  ∧ (∀ d ident, d ∈ declarations_variable_decl (function_declarations ctx) →
          ident ∈ variable_decl_ID d →
          is_Some (SymTable.lookupIn new ident S1))
  ∧ (∀ ident, SymTable.lookupIn new ident S1
               = firstDeclared ident
                   (declaredParameters (function_parameter ctx)
                    ++ declaredLocals
                         (declarations_variable_decl (function_declarations ctx))))
  ∧ length (fst r) = length (function_parameter ctx)
  ∧ (NoDup (map parameter_ID (function_parameter ctx)) →
     fst r = map (λ p, typeOfType (parameter_type p)) (function_parameter ctx)).
Proof.
  intros S0 new r S1. subst r S1. unfold visitFunction_scope.
  destruct (pushNewScope_spec (function_ID ctx) v)
    as (Hsc & Hst & Hlen & Hold & Hempty & _ & _).
  destruct (pushNewScope (function_ID ctx) v) as [sc v0]. cbn [fst snd] in *.
  subst sc. fold S0 new in Hst, Hlen, Hold, Hempty |- *.
  set (va := putScopeDecor (function_ctx ctx) new v0).
  assert (sv_Symbols va = sv_Symbols v0) as Ha by done.
  pose proof (visitParameters_extendsTop (function_parameter ctx) [] va) as Hp.
  pose proof (visitParameters_registered (function_parameter ctx) [] va new (stack S0)) as Hpr.
  pose proof (visitParameters_length (function_parameter ctx) [] va) as Hpl.
  pose proof (visitParameters_types (function_parameter ctx) [] va new (stack S0)) as Hpt.
  pose proof (visitParameters_getScope (function_parameter ctx) [] va) as Hps.
  pose proof (λ i, visitParameters_lookup (function_parameter ctx) [] va new (stack S0) i) as Hpk.
  destruct (visitParameters (function_parameter ctx) [] va) as [lParamsTy vb].
  cbn [fst snd] in *.
  pose proof (visitDeclarations_extendsTop (function_declarations ctx) vb) as Hd.
  pose proof (visitDeclarations_registered (function_declarations ctx) vb new (stack S0)) as Hdr.
  pose proof (visitDeclarations_getScope (function_declarations ctx) vb) as Hds.
  pose proof (λ i, visitDeclarations_lookup (function_declarations ctx) vb new (stack S0) i) as Hdk.
  set (vc := visitDeclarations (function_declarations ctx) vb) in *.
  rewrite Ha in *.
  destruct Hp as (Hps1 & Hpl1 & Hpo & Hpm). destruct Hd as (Hds1 & Hdl1 & Hdo & Hdm).
  cbn [sv_Symbols withSymbols SymTable.popScope stack scopes].
  split_and!.
  - by rewrite Hds1, Hps1, Hst.
  - congruence.
  - intros sc Hsc. rewrite Hdo, Hpo; [by apply Hold| |].
    + rewrite Hst. cbn. intros [= ?]. lia.
    + rewrite Hps1, Hst. cbn. intros [= ?]. lia.
  - unfold getScopeDecor. cbn. rewrite Hds, Hps. cbn. apply upd_same.
  - intros p Hin. apply (Hdm new (parameter_ID p)), Hpr; [done|lia|done].
  - intros d ident Hin Hid. eapply Hdr; [by rewrite Hps1|lia|done..].
  - intros ident. change (SymTable.lookupIn new ident (SymTable.popScope (sv_Symbols vc)))
      with (SymTable.lookupIn new ident (sv_Symbols vc)).
    rewrite Hdk, Hpk, Hempty, firstDeclared_app; [done|done|lia|by rewrite Hps1|lia].
  - done.
  - intros Hnd. apply Hpt; [done|lia|done|]. intros p _. apply Hempty.
Qed.

End Function.

End SymbolsPass.

Section SymbolsFunction.
Import TypesMgr AslParser Spec Examen2022.SymbolsVisitor
  Examen2022.SymbolsVisitor.Returned.
Context {Stmts : Type}.
Implicit Types ctx : FunctionContext Stmts.




End SymbolsFunction.

(* ================================================================== *)
(** ** The symbols pass: a visit that returns, a visit that throws *)
(* ================================================================== *)

Section SymbolsReturns.
Import TypesMgr AslParser Spec Examen2022.SymbolsVisitor.

(** [visitType] returns exactly on the sizes [std::stoi] returns on;
    when it throws, the [basic_type] node is already decorated. *)
Lemma visitType_outcome t v :
  visitType t v
  = if typeFits t then Returns tt (Returned.visitType t v)
    else Throws (visitBasic_type (type_basic_type t) v).
Proof.
  unfold visitType, Returned.visitType, typeFits, stoi, sizeFits.
  destruct (type_shape t) as [size|rows cols|]; cbn zeta.
  - by destruct (N.of_nat size <=? INT_MAX)%N.
  - destruct (N.of_nat rows <=? INT_MAX)%N; [|done].
    by destruct (N.of_nat cols <=? INT_MAX)%N.
  - done.
Qed.

Lemma visitParameter_returned p v a v' :
  visitParameter p v = Returns a v' → v' = Returned.visitParameter p v.
Proof.
  unfold visitParameter, Returned.visitParameter.
  destruct (SymTable.findInCurrentScope _ _); [by intros [= _ <-]|].
  rewrite visitType_outcome. destruct (typeFits _); [by intros [= _ <-]|done].
Qed.

Lemma visitParameter_fits p v :
  typeFits (parameter_type p) = true →
  visitParameter p v = Returns tt (Returned.visitParameter p v).
Proof.
  intros Hfit. unfold visitParameter, Returned.visitParameter.
  destruct (SymTable.findInCurrentScope _ _); [done|].
  by rewrite visitType_outcome, Hfit.
Qed.

Lemma visitVariable_decl_returned d v a v' :
  visitVariable_decl d v = Returns a v' → v' = Returned.visitVariable_decl d v.
Proof.
  unfold visitVariable_decl, Returned.visitVariable_decl.
  rewrite visitType_outcome. destruct (typeFits _); [by intros [= _ <-]|done].
Qed.

Lemma visitVariable_decl_fits d v :
  typeFits (variable_decl_type d) = true →
  visitVariable_decl d v = Returns tt (Returned.visitVariable_decl d v).
Proof.
  intros Hfit. unfold visitVariable_decl, Returned.visitVariable_decl.
  by rewrite visitType_outcome, Hfit.
Qed.

Lemma visitDeclarations_returned ds v a v' :
  visitDeclarations ds v = Returns a v' → v' = Returned.visitDeclarations ds v.
Proof.
  unfold visitDeclarations, Returned.visitDeclarations. revert v.
  induction (declarations_variable_decl ds) as [|d l IH]; intros v;
    cbn [visitChildren fold_left]; [by intros [= _ <-]|].
  destruct (visitVariable_decl d v) as [u w|w] eqn:E; [|done].
  apply visitVariable_decl_returned in E as ->. apply IH.
Qed.

Lemma visitDeclarations_fits ds v :
  Forall (λ d, typeFits (variable_decl_type d) = true) (declarations_variable_decl ds) →
  visitDeclarations ds v = Returns tt (Returned.visitDeclarations ds v).
Proof.
  unfold visitDeclarations, Returned.visitDeclarations. intros H. revert v.
  induction H as [|d l Hd _ IH]; intros v; cbn [visitChildren fold_left]; [done|].
  by rewrite (visitVariable_decl_fits d v Hd), IH.
Qed.

Lemma visitParameters_returned params :
  ∀ acc v l v',
    visitParameters params acc v = Returns l v' →
    Returned.visitParameters params acc v = (l, v').
Proof.
  induction params as [|p params IH]; intros acc v l v';
    cbn [visitParameters Returned.visitParameters]; [by intros [= <- <-]|].
  destruct (visitParameter p v) as [u w|w] eqn:E; [|done].
  apply visitParameter_returned in E as ->. apply IH.
Qed.

Lemma visitParameters_fits params :
  Forall (λ p, typeFits (parameter_type p) = true) params →
  ∀ acc v,
    visitParameters params acc v
    = Returns (fst (Returned.visitParameters params acc v))
        (snd (Returned.visitParameters params acc v)).
Proof.
  induction 1 as [|p params Hp _ IH]; intros acc v;
    cbn [visitParameters Returned.visitParameters]; [done|].
  by rewrite (visitParameter_fits p v Hp), IH.
Qed.

Lemma visitFunction_scope_returned {Stmts} (ctx : FunctionContext Stmts) v l v1 :
  visitFunction_scope ctx v = Returns l v1 →
  Returned.visitFunction_scope ctx v = (l, v1).
Proof.
  unfold visitFunction_scope, Returned.visitFunction_scope.
  destruct (pushNewScope (function_ID ctx) v) as [sc v0].
  destruct (visitParameters _ _ _) as [l0 w|w] eqn:Ep; [|done].
  apply visitParameters_returned in Ep as ->.
  destruct (visitDeclarations _ _) as [u w'|w'] eqn:Ed; [|done].
  apply visitDeclarations_returned in Ed as ->. by intros [= <- <-].
Qed.

Lemma visitFunction_scope_fits {Stmts} (ctx : FunctionContext Stmts) v :
  functionFits ctx →
  visitFunction_scope ctx v
  = Returns (fst (Returned.visitFunction_scope ctx v))
      (snd (Returned.visitFunction_scope ctx v)).
Proof.
  intros [Hp Hd]. unfold visitFunction_scope, Returned.visitFunction_scope.
  destruct (pushNewScope (function_ID ctx) v) as [sc v0].
  rewrite (visitParameters_fits _ Hp).
  destruct (Returned.visitParameters _ _ _) as [l w]. cbn [fst snd].
  by rewrite (visitDeclarations_fits _ _ Hd).
Qed.

Lemma visitFunction_returned {Stmts} (ctx : FunctionContext Stmts) v a v' :
  visitFunction ctx v = Returns a v' → v' = Returned.visitFunction ctx v.
Proof.
  unfold visitFunction, Returned.visitFunction.
  destruct (visitFunction_scope ctx v) as [l w|w] eqn:E; [|done].
  apply visitFunction_scope_returned in E as ->.
  destruct (SymTable.findInCurrentScope _ _); [by intros [= _ <-]|].
  destruct (function_basic_type ctx); by intros [= _ <-].
Qed.

Lemma visitFunction_fits {Stmts} (ctx : FunctionContext Stmts) v :
  functionFits ctx →
  visitFunction ctx v = Returns tt (Returned.visitFunction ctx v).
Proof.
  intros Hfit. unfold visitFunction, Returned.visitFunction.
  rewrite (visitFunction_scope_fits ctx v Hfit).
  destruct (Returned.visitFunction_scope ctx v) as [l w]. cbn [fst snd].
  destruct (SymTable.findInCurrentScope _ _); [done|].
  by destruct (function_basic_type ctx).
Qed.

Lemma visitProgram_returned {Stmts} (ctx : ProgramContext Stmts) v a v' :
  visitProgram ctx v = Returns a v' → v' = Returned.visitProgram ctx v.
Proof.
  unfold visitProgram, Returned.visitProgram.
  destruct (pushNewScope SymTable.GLOBAL_SCOPE_NAME v) as [sc v0].
  generalize (putScopeDecor (program_ctx ctx) sc v0) as w.
  induction (program_function ctx) as [|f l IH]; intros w;
    cbn [visitFunctions fold_left]; [by intros [= _ <-]|].
  destruct (visitFunction f w) as [u w'|w'] eqn:E; [|done].
  apply visitFunction_returned in E as ->. apply IH.
Qed.

Lemma visitProgram_fits {Stmts} (ctx : ProgramContext Stmts) v :
  programFits ctx →
  visitProgram ctx v = Returns tt (Returned.visitProgram ctx v).
Proof.
  unfold programFits, visitProgram, Returned.visitProgram. intros H.
  destruct (pushNewScope SymTable.GLOBAL_SCOPE_NAME v) as [sc v0].
  generalize (putScopeDecor (program_ctx ctx) sc v0) as w.
  induction H as [|f l Hf _ IH]; intros w; cbn [visitFunctions fold_left]; [done|].
  rewrite (visitFunction_fits f w Hf). apply IH.
Qed.






End SymbolsReturns.

Section ScopeStack.
Import AslParser Examen2022.SymbolsVisitor.




End ScopeStack.

(* ================================================================== *)
(** ** Code generation: what an expression emits and changes *)
(* ================================================================== *)

Section CodeGenFrame.
Import TypesMgr CodeGen AslParser.
Import Properties.

Lemma labelsOf_app c1 c2 : labelsOf (c1 ++ c2) = labelsOf c1 ++ labelsOf c2.
Proof. apply bind_app. Qed.
Lemma targetsOf_app c1 c2 : targetsOf (c1 ++ c2) = targetsOf c1 ++ targetsOf c2.
Proof. apply bind_app. Qed.

Lemma straightLine_app c1 c2 :
  straightLine c1 → straightLine c2 → straightLine (c1 ++ c2).
Proof.
  intros [H1 H1'] [H2 H2']. split.
  - by rewrite labelsOf_app, H1, H2.
  - by rewrite targetsOf_app, H1', H2'.
Qed.

Lemma straightLine_nil : straightLine [].
Proof. done. Qed.

Lemma onlyTemporaries_refl v : onlyTemporaries v v.
Proof. unfold onlyTemporaries, onlyCounters, countersLe. split_and!; done. Qed.

Lemma onlyTemporaries_trans v1 v2 v3 :
  onlyTemporaries v1 v2 → onlyTemporaries v2 v3 → onlyTemporaries v1 v3.
Proof.
  unfold onlyTemporaries, onlyCounters, countersLe.
  intros ((? & ? & ? & ? & ? & ?) & ? & ?) ((? & ? & ? & ? & ? & ?) & ? & ?).
  split_and!; congruence || lia.
Qed.

Lemma onlyCounters_refl v : onlyCounters v v.
Proof. apply onlyTemporaries_refl. Qed.

Lemma onlyCounters_trans v1 v2 v3 :
  onlyCounters v1 v2 → onlyCounters v2 v3 → onlyCounters v1 v3.
Proof.
  unfold onlyCounters, countersLe.
  intros (? & ? & ? & ? & ? & ?) (? & ? & ? & ? & ? & ?).
  split_and!; congruence || lia.
Qed.

Lemma newTEMP_onlyTemporaries v : onlyTemporaries v (snd (newTEMP v)).
Proof.
  unfold onlyTemporaries, onlyCounters, countersLe. cbn. split_and!; done || lia.
Qed.

(** What a call that returns new fields is known to do: the fields after
    differ in the temporaries counter only, and the code it returns is
    straight-line. *)
Ltac expr_note known x :=
  lazymatch type of x with
  | (CodeAttribs * CGState)%type =>
      lazymatch x with
      | ?f ?v0 =>
          let H := fresh "H" in
          assert (H : onlyTemporaries v0 (snd (f v0)) ∧ straightLine (code (fst (f v0))))
            by (first [ known | eauto ]);
          destruct H as [? ?]
      end
  | (string * CGState)%type =>
      lazymatch x with
      | newTEMP ?v0 => pose proof (newTEMP_onlyTemporaries v0)
      end
  | _ => idtac
  end.

Ltac expr_step known :=
  match goal with
  | |- context [if ?c then _ else _] => destruct c; cbv beta iota
  | |- context [match ?o with Some _ => _ | None => _ end] => destruct o; cbv beta iota
  | |- context [match ?op with NOT => _ | _ => _ end] => destruct op; cbv beta iota
  | |- context [match ?op with MUL => _ | _ => _ end] => destruct op; cbv beta iota
  | |- context [match ?op with EQUAL => _ | _ => _ end] => destruct op; cbv beta iota
  | |- context [match ?op with AND => _ | _ => _ end] => destruct op; cbv beta iota
  | |- context [match ?tk with INTVAL _ => _ | _ => _ end] => destruct tk; cbv beta iota
  | |- context [match ?x with pair _ _ => _ end] =>
      lazymatch x with _ _ => idtac | _ => is_var x end;
      expr_note known x; destruct x as [? ?]; cbn [fst snd code] in *
  end.

Ltac temporaries_chain :=
  solve [ apply onlyTemporaries_refl
        | match goal with
          | H : onlyTemporaries ?a ?b |- onlyTemporaries ?a _ =>
              apply (onlyTemporaries_trans a b); [exact H | temporaries_chain]
          end ].

Ltac straightLine_parts :=
  repeat first [ assumption | apply straightLine_nil
               | apply straightLine_app | (split; reflexivity) ].

Ltac expr_close :=
  cbn [fst snd code addr offs];
  split; [ temporaries_chain | straightLine_parts ].

Ltac expr_walk known := repeat expr_step known; expr_close.

Lemma examen_visitValue_frame ctx tk v :
  let r := Examen.CodeGenVisitor.visitValue ctx tk v in
  onlyTemporaries v (snd r) ∧ straightLine (code (fst r)).
Proof. unfold Examen.CodeGenVisitor.visitValue. expr_walk fail. Qed.

Lemma examen_visitIdent_frame ident v :
  let r := Examen.CodeGenVisitor.visitIdent ident v in
  onlyTemporaries v (snd r) ∧ straightLine (code (fst r)).
Proof. split; [apply onlyTemporaries_refl | done]. Qed.

Lemma examen_lowerArguments_frame visit tFunc exprs :
  Forall (λ e, ∀ v, onlyTemporaries v (snd (visit e v))
                    ∧ straightLine (code (fst (visit e v)))) exprs →
  ∀ i c pushCode popCode v,
    straightLine c → straightLine pushCode → straightLine popCode →
    let r := Examen.CodeGenVisitor.lowerArguments visit tFunc i exprs c pushCode popCode v in
    onlyTemporaries v (snd r)
    ∧ straightLine (fst (fst (fst r)))
    ∧ straightLine (snd (fst (fst r)))
    ∧ straightLine (snd (fst r)).
Proof.
  induction 1 as [|e exprs He _ IH]; intros i c pushCode popCode v Hc Hpush Hpop;
    cbn [Examen.CodeGenVisitor.lowerArguments].
  - cbn. split; [apply onlyTemporaries_refl | done].
  - cbn zeta. destruct (He v) as [Hv Hcode].
    destruct (visit e v) as [codAt1 v1]. cbn [fst snd] in Hv, Hcode.
    repeat expr_step fail.
    all: match goal with
         | |- context [Examen.CodeGenVisitor.lowerArguments _ _ _ _ ?c' ?pu ?po ?w] =>
             destruct (IH (S i) c' pu po w) as (Hw & ? & ? & ?);
               [ straightLine_parts..
               | split_and!; try assumption; temporaries_chain ]
         end.
Qed.

Lemma examen_visitFunction_call_frame visit function_call :
  Forall (λ e, ∀ v, onlyTemporaries v (snd (visit e v))
                    ∧ straightLine (code (fst (visit e v))))
    (function_call_expr function_call) →
  ∀ v, let r := Examen.CodeGenVisitor.visitFunction_call visit function_call v in
       onlyTemporaries v (snd r) ∧ straightLine (code (fst r)).
Proof.
  intros H v. unfold Examen.CodeGenVisitor.visitFunction_call. cbn zeta.
  destruct (isVoidFunction _).
  - cbn [negb app].
    destruct (examen_lowerArguments_frame visit
                (getTypeDecor (ident_ctx (function_call_ident function_call)) v)
                _ H 0 [] [] [] v) as (Hv & Hc & Hpu & Hpo); try done.
    destruct (Examen.CodeGenVisitor.lowerArguments _ _ _ _ _ _ _ _) as [[[c pu] po] w].
    cbn [fst snd] in *. expr_close.
  - cbn [negb].
    destruct (examen_lowerArguments_frame visit
                (getTypeDecor (ident_ctx (function_call_ident function_call)) v)
                _ H 0 ([] ++ [instruction.PUSH0]) [] [] v) as (Hv & Hc & Hpu & Hpo);
      try done.
    destruct (Examen.CodeGenVisitor.lowerArguments _ _ _ _ _ _ _ _) as [[[c pu] po] w].
    cbn [fst snd] in *. repeat expr_step fail. expr_close.
Qed.

Ltac expr_known :=
  first [ apply examen_visitIdent_frame | apply examen_visitValue_frame ].

Lemma examen_visit_expr_frame e :
  ∀ v, onlyTemporaries v (snd (Examen.CodeGenVisitor.visit_expr e v))
       ∧ straightLine (code (fst (Examen.CodeGenVisitor.visit_expr e v))).
Proof.
  induction e using ExprContext_ind'; intros v;
    cbn [Examen.CodeGenVisitor.visit_expr].
  - apply IHe.
  - by apply examen_visitFunction_call_frame.
  - unfold Examen.CodeGenVisitor.visitUnary, Examen.CodeGenVisitor.loadIndexed.
    expr_walk expr_known.
  - unfold Examen.CodeGenVisitor.visitArithmetic, Examen.CodeGenVisitor.loadIndexed.
    expr_walk expr_known.
  - unfold Examen.CodeGenVisitor.visitRelational, Examen.CodeGenVisitor.loadIndexed.
    expr_walk expr_known.
  - unfold Examen.CodeGenVisitor.visitLogical, Examen.CodeGenVisitor.loadIndexed.
    expr_walk expr_known.
  - unfold Examen.CodeGenVisitor.visitArrayAccess.
    expr_walk expr_known.
  - apply examen_visitValue_frame.
  - apply examen_visitIdent_frame.
Qed.

(** X1.  The code the 2021 code generator emits for an expression of
    the grammar the snapshots share (parentheses, calls, unary,
    arithmetic, relational and logical operators, array accesses,
    literals and identifiers, nested at will) is straight-line: it
    defines no label and holds no jump.  Visiting the expression leaves
    the symbol table, the decorations and the type of the current
    function as they were, and of the three counters only the one of the
    temporaries may have grown.  The factorial of the exam is not such an
    expression: its code has labels and jumps of its own. *)
Theorem examen_expression_code_straight_line e v :
  let r := Examen.CodeGenVisitor.visit_expr e v in
  straightLine (code (fst r)) ∧ onlyTemporaries v (snd r).
Proof. intros r. by destruct (examen_visit_expr_frame e v). Qed.

End CodeGenFrame.

Section Factorial.
Import TypesMgr CodeGen AslParser.
Import Properties.

Lemma loadIndexed_frame addr offs c v :
  straightLine c →
  let r := Examen.CodeGenVisitor.loadIndexed addr offs c v in
  onlyTemporaries v (snd r) ∧ straightLine (snd (fst r)).
Proof.
  intros Hc. unfold Examen.CodeGenVisitor.loadIndexed.
  destruct (nonEmpty offs); [|split; [apply onlyTemporaries_refl|done]].
  cbn. destruct (SymTable.isLocalVarClass _ _); cbn.
  - split; [unfold onlyTemporaries, onlyCounters, countersLe; cbn; split_and!; done || lia|].
    apply straightLine_app; [done|by split].
  - split; [unfold onlyTemporaries, onlyCounters, countersLe; cbn; split_and!; done || lia|].
    apply straightLine_app; [done|by split].
Qed.

(** X2.  The code of the factorial of the exam, over an operand of the
    shared grammar, defines exactly four labels, [factorial], [halt],
    [zeroCase] and [endfactorial], each followed by the number the
    while-counter has at entry; the four are distinct, and every jump of
    the code goes to one of them.  The visit moves the while-counter on
    by one, leaves the if-counter, the symbol table and the decorations
    as they were, and lowers no counter. *)
Theorem examen_factorial_labels INVALID_INTEGER_OPERAND ctx expr v :
  let r := Examen.CodeGenVisitor.visitFactorial Examen.CodeGenVisitor.visit_expr
             INVALID_INTEGER_OPERAND ctx expr v in
  let n := pretty (cLabelWHILE (cg_codeCounters v)) in
  labelsOf (code (fst r))
  = ["factorial" +:+ n; "halt" +:+ n; "zeroCase" +:+ n; "endfactorial" +:+ n]
  ∧ NoDup (labelsOf (code (fst r)))
  ∧ targetsOf (code (fst r)) ⊆ labelsOf (code (fst r))
  ∧ onlyCounters v (snd r)
  ∧ cLabelIF (cg_codeCounters (snd r)) = cLabelIF (cg_codeCounters v)
  ∧ cLabelWHILE (cg_codeCounters (snd r)) = S (cLabelWHILE (cg_codeCounters v)).
Proof.
  intros r n. subst r. unfold Examen.CodeGenVisitor.visitFactorial.
  destruct (examen_visit_expr_frame expr v) as [Hv1 Hc1].
  destruct (Examen.CodeGenVisitor.visit_expr expr v) as [codAts1 v1].
  cbn [fst snd] in Hv1, Hc1.
  destruct (loadIndexed_frame (addr codAts1) (offs codAts1) (code codAts1) v1 Hc1)
    as [Hv2 Hc2].
  destruct (Examen.CodeGenVisitor.loadIndexed _ _ _ v1) as [[a c] v2].
  cbn [fst snd] in Hv2, Hc2.
  pose proof (onlyTemporaries_trans _ _ _ Hv1 Hv2) as ((HS & HD & HT & Hle) & HIF & HWH).
  unfold newTEMP, newLabelWHILE, counters.newTEMP, counters.newLabelWHILE.
  cbn [fst snd code cg_codeCounters cg_Symbols withCounters cTEMP cLabelIF cLabelWHILE].
  rewrite HWH. fold n.
  match goal with |- context [labelsOf ?X] => set (final := X) end.
  assert (labelsOf final
          = ["factorial" +:+ n; "halt" +:+ n; "zeroCase" +:+ n; "endfactorial" +:+ n]
          ∧ targetsOf final
            = ["zeroCase" +:+ n; "halt" +:+ n; "endfactorial" +:+ n; "factorial" +:+ n])
    as [Hl Ht].
  { destruct Hc2 as [Hl2 Ht2]. subst final.
    destruct (SymTable.isLocalVarClass a (cg_Symbols v2));
      rewrite !labelsOf_app, !targetsOf_app, Hl2, Ht2; split; reflexivity. }
  clearbody final.
  rewrite Hl, Ht. split_and!.
  - done.
  - clearbody n.
    repeat (apply NoDup_cons_2; [|]); [..|apply NoDup_nil_2];
      (intros Hin;
       repeat (apply elem_of_cons in Hin as [Hin|Hin]; [cbn in Hin; discriminate Hin|]);
       by apply elem_of_nil in Hin).
  - intros x. rewrite !elem_of_cons. tauto.
  - unfold onlyCounters, countersLe.
    cbn [cg_Symbols cg_Decorations cg_currFunctionType cg_codeCounters withCounters
         cTEMP cLabelIF cLabelWHILE].
    unfold countersLe in Hle. split_and!; done || lia.
  - done.
  - done.
Qed.

End Factorial.

(* ================================================================== *)
(** ** Code generation: labels and jumps *)
(* ================================================================== *)

Section Labels.
Import TypesMgr CodeGen AslParser.
Import Properties.

Lemma labelText_inj k1 n1 k2 n2 :
  labelText k1 n1 = labelText k2 n2 → k1 = k2 ∧ n1 = n2.
Proof.
  destruct k1, k2; cbn; intros Heq; simplify_eq; split; try done;
    by apply (inj pretty).
Qed.

Lemma ownLabels_weaken c0 c1 c0' c1' l :
  countersLe c0' c0 → countersLe c1 c1' → ownLabels c0 c1 l → ownLabels c0' c1' l.
Proof.
  intros (_ & ? & ?) (_ & ? & ?) (k & n & -> & Hk). exists k, n. split; [done|].
  destruct k; lia.
Qed.

Lemma ownLabels_disjoint c0 c1 c1' c2 l :
  countersLe c1 c1' → ownLabels c0 c1 l → ownLabels c1' c2 l → False.
Proof.
  intros (_ & ? & ?) (k & n & -> & Hk) (k' & n' & Heq & Hk').
  apply labelText_inj in Heq as [<- <-]. destruct k; lia.
Qed.

Lemma NoDup_ownLabels_app c0 c1 c1' c2 l1 l2 :
  countersLe c1 c1' →
  NoDup l1 → Forall (ownLabels c0 c1) l1 →
  NoDup l2 → Forall (ownLabels c1' c2) l2 →
  NoDup (l1 ++ l2).
Proof.
  intros Hle Hn1 H1 Hn2 H2. apply NoDup_app. split_and!; [done| |done].
  intros x Hx1 Hx2. rewrite Forall_forall in H1, H2.
  eapply ownLabels_disjoint; eauto.
Qed.

Lemma wellLabelled_straightLine v c v' :
  onlyCounters v v' → straightLine c → wellLabelled v (c, v').
Proof.
  intros Hv [Hl Ht]. unfold wellLabelled. cbn [fst snd]. rewrite Hl, Ht.
  split_and!; [done|constructor|constructor|done].
Qed.

Lemma wellLabelled_app v0 c1 v1 c2 v2 :
  wellLabelled v0 (c1, v1) → wellLabelled v1 (c2, v2) →
  wellLabelled v0 (c1 ++ c2, v2).
Proof.
  unfold wellLabelled. cbn [fst snd].
  intros (Hv1 & Hn1 & Ho1 & Hc1) (Hv2 & Hn2 & Ho2 & Hc2).
  pose proof Hv1 as (_ & _ & _ & Hle1). pose proof Hv2 as (_ & _ & _ & Hle2).
  assert (countersLe (cg_codeCounters v1) (cg_codeCounters v1)) as Hrefl
    by (unfold countersLe; lia).
  rewrite labelsOf_app, targetsOf_app. split_and!.
  - by eapply onlyCounters_trans.
  - by eapply NoDup_ownLabels_app.
  - apply Forall_app. split.
    + eapply Forall_impl; [exact Ho1|]. intros l. by apply ownLabels_weaken.
    + eapply Forall_impl; [exact Ho2|]. intros l. by apply ownLabels_weaken.
  - intros x Hx. apply elem_of_app. apply elem_of_app in Hx as [Hx|Hx];
      [left; by apply Hc1 | right; by apply Hc2].
Qed.

Lemma onlyTemporaries_onlyCounters v v' : onlyTemporaries v v' → onlyCounters v v'.
Proof. by intros [? _]. Qed.

Lemma examen_visitStatements_wellLabelled visit statements :
  Forall (λ s, ∀ v, wellLabelled v (visit s v)) (statements_statement statements) →
  ∀ v, wellLabelled v (Examen.CodeGenVisitor.visitStatements visit statements v).
Proof.
  unfold Examen.CodeGenVisitor.visitStatements. intros H v.
  assert (wellLabelled v ([], v)) as Hacc
    by (apply wellLabelled_straightLine; [apply onlyCounters_refl | done]).
  revert Hacc. generalize (@nil instruction.t) as acc. generalize v at 2 4 as w.
  induction H as [|s l Hs _ IH]; intros w acc Hacc; cbn [fold_left]; [done|].
  specialize (Hs w). destruct (visit s w) as [codeS w'].
  apply IH. by eapply wellLabelled_app.
Qed.

End Labels.

Section StatementLabels.
Import TypesMgr CodeGen AslParser.
Import Properties.

Ltac expr_note known x :=
  lazymatch type of x with
  | (CodeAttribs * CGState)%type =>
      lazymatch x with
      | ?f ?v0 =>
          let H := fresh "H" in
          assert (H : onlyTemporaries v0 (snd (f v0)) ∧ straightLine (code (fst (f v0))))
            by (first [ known | eauto ]);
          destruct H as [? ?]
      end
  | (string * CGState)%type =>
      lazymatch x with
      | newTEMP ?v0 => pose proof (newTEMP_onlyTemporaries v0)
      end
  | _ => idtac
  end.

Ltac expr_step known :=
  match goal with
  | |- context [if ?c then _ else _] => destruct c; cbv beta iota
  | |- context [match ?o with Some _ => _ | None => _ end] => destruct o; cbv beta iota
  | |- context [match ?op with NOT => _ | _ => _ end] => destruct op; cbv beta iota
  | |- context [match ?op with MUL => _ | _ => _ end] => destruct op; cbv beta iota
  | |- context [match ?op with EQUAL => _ | _ => _ end] => destruct op; cbv beta iota
  | |- context [match ?op with AND => _ | _ => _ end] => destruct op; cbv beta iota
  | |- context [match ?tk with INTVAL _ => _ | _ => _ end] => destruct tk; cbv beta iota
  | |- context [match ?x with pair _ _ => _ end] =>
      lazymatch x with _ _ => idtac | _ => is_var x end;
      expr_note known x; destruct x as [? ?]; cbn [fst snd code] in *
  end.

Ltac temporaries_chain :=
  solve [ apply onlyTemporaries_refl
        | match goal with
          | H : onlyTemporaries ?a ?b |- onlyTemporaries ?a _ =>
              apply (onlyTemporaries_trans a b); [exact H | temporaries_chain]
          end ].

Ltac straightLine_parts :=
  repeat first [ assumption | apply straightLine_nil
               | apply straightLine_app | (split; reflexivity) ].

Ltac expr_close :=
  cbn [fst snd code addr offs];
  split; [ temporaries_chain | straightLine_parts ].

Ltac expr_walk known := repeat expr_step known; expr_close.

Lemma copyArray_straightLine addr1 addr2 tempOffs tempRight n :
  ∀ i c, straightLine c →
         straightLine (Examen.CodeGenVisitor.copyArray addr1 addr2 tempOffs tempRight i n c).
Proof.
  induction n as [|n IH]; intros i c Hc; cbn [Examen.CodeGenVisitor.copyArray]; [done|].
  apply IH. straightLine_parts.
Qed.

Lemma examen_visitLeft_expr_frame left_expr v :
  let r := Examen.CodeGenVisitor.visitLeft_expr Examen.CodeGenVisitor.visit_expr left_expr v in
  onlyTemporaries v (snd r) ∧ straightLine (code (fst r)).
Proof.
  unfold Examen.CodeGenVisitor.visitLeft_expr, Examen.CodeGenVisitor.porReferencia.
  expr_walk ltac:(first [ apply examen_visitIdent_frame | apply examen_visit_expr_frame ]).
Qed.

Ltac stmt_known :=
  first [ apply examen_visitIdent_frame | apply examen_visit_expr_frame
        | apply examen_visitLeft_expr_frame
        | apply examen_visitFunction_call_frame, Forall_forall; intros;
          apply examen_visit_expr_frame ].

(** The statements without branches: straight-line code. *)
Lemma examen_visitAssignStmt_frame ctx left_expr expr v :
  let r := Examen.CodeGenVisitor.visitAssignStmt ctx left_expr expr v in
  onlyTemporaries v (snd r) ∧ straightLine (fst r).
Proof.
  unfold Examen.CodeGenVisitor.visitAssignStmt, Examen.CodeGenVisitor.porReferencia.
  repeat expr_step stmt_known;
    cbn [fst snd]; (split; [temporaries_chain|]);
    try apply copyArray_straightLine; straightLine_parts.
Qed.

Lemma examen_visitProcCall_frame ctx function_call v :
  let r := Examen.CodeGenVisitor.visitProcCall ctx function_call v in
  onlyTemporaries v (snd r) ∧ straightLine (fst r).
Proof. unfold Examen.CodeGenVisitor.visitProcCall. expr_walk stmt_known. Qed.

Lemma examen_visitReadStmt_frame ctx left_expr v :
  let r := Examen.CodeGenVisitor.visitReadStmt ctx left_expr v in
  onlyTemporaries v (snd r) ∧ straightLine (fst r).
Proof. unfold Examen.CodeGenVisitor.visitReadStmt. expr_walk stmt_known. Qed.

Lemma examen_visitWriteExpr_frame ctx expr v :
  let r := Examen.CodeGenVisitor.visitWriteExpr ctx expr v in
  onlyTemporaries v (snd r) ∧ straightLine (fst r).
Proof.
  unfold Examen.CodeGenVisitor.visitWriteExpr, Examen.CodeGenVisitor.loadIndexed.
  expr_walk stmt_known.
Qed.

Lemma examen_visitReturnStmt_frame ctx expr v :
  let r := Examen.CodeGenVisitor.visitReturnStmt ctx expr v in
  onlyTemporaries v (snd r) ∧ straightLine (fst r).
Proof. unfold Examen.CodeGenVisitor.visitReturnStmt. expr_walk stmt_known. Qed.

Lemma wellLabelled_frame v r :
  onlyTemporaries v (snd r) ∧ straightLine (fst r) → wellLabelled v r.
Proof.
  destruct r as [c w]. intros [Hv Hc].
  by apply wellLabelled_straightLine; [apply onlyTemporaries_onlyCounters|].
Qed.

End StatementLabels.

Section BranchLabels.
Import TypesMgr CodeGen AslParser.
Import Properties.

Lemma NoDup_labelText_pair k1 k2 n : k1 ≠ k2 → NoDup [labelText k1 n; labelText k2 n].
Proof.
  intros Hk. apply NoDup_cons. split; [|apply NoDup_singleton].
  intros Hin%list_elem_of_singleton. by apply labelText_inj in Hin as [? _].
Qed.

Lemma labels_perm (l1 l2 : list string) a b :
  l1 ++ a :: l2 ++ [b] ≡ₚ (l1 ++ [a; b]) ++ l2.
Proof.
  rewrite <- (assoc_L (++) l1). f_equiv. cbn. f_equiv.
  by rewrite (Permutation_app_comm l2 [b]).
Qed.

Lemma wellLabelled_if v v2 v3 v4 v5 pre a thenCode elseCode label :
  onlyTemporaries v v2 → straightLine pre →
  wellLabelled v2 (thenCode, v3) →
  newLabelIF v3 = (label, v4) →
  wellLabelled v4 (elseCode, v5) →
  wellLabelled v
    (pre ++ [instruction.FJUMP a ("else" +:+ label)] ++ thenCode
         ++ [instruction.UJUMP ("endif" +:+ label)]
         ++ [instruction.LABEL ("else" +:+ label)] ++ elseCode
         ++ [instruction.LABEL ("endif" +:+ label)], v5).
Proof.
  intros Hv [Hpl Hpt] (Hv3 & Hn3 & Ho3 & Hc3) E.
  assert (label = fst (newLabelIF v3)) as -> by (by rewrite E).
  assert (v4 = snd (newLabelIF v3)) as -> by (by rewrite E). clear E.
  intros (Hv5 & Hn5 & Ho5 & Hc5).
  set (label := fst (newLabelIF v3)).
  cbn [fst snd] in *.
  set (n := cLabelIF (cg_codeCounters v3)).
  change ("else" +:+ label) with (labelText kElse n).
  change ("endif" +:+ label) with (labelText kEndif n).
  set (c4 := cg_codeCounters (snd (newLabelIF v3))) in *.
  assert (cLabelIF c4 = S n ∧ cLabelWHILE c4 = cLabelWHILE (cg_codeCounters v3)
          ∧ cTEMP c4 = cTEMP (cg_codeCounters v3)) as (Hc4 & Hc4' & Hc4'') by done.
  assert (onlyCounters v3 (snd (newLabelIF v3))) as Hv4.
  { unfold onlyCounters, countersLe. fold c4. cbn [cg_Symbols cg_Decorations
      cg_currFunctionType newLabelIF counters.newLabelIF withCounters snd].
    split_and!; try done; lia. }
  pose proof (onlyTemporaries_onlyCounters _ _ Hv) as Hv2.
  pose proof Hv2 as (_ & _ & _ & Hle2). pose proof Hv3 as (_ & _ & _ & Hle3).
  pose proof Hv4 as (_ & _ & _ & Hle4). pose proof Hv5 as (_ & _ & _ & Hle5).
  fold c4 in Hle4, Hle5, Ho5.
  assert (Forall (ownLabels (cg_codeCounters v3) c4)
            [labelText kElse n; labelText kEndif n]) as Hown.
  { repeat constructor; eexists _, n; (split; [done|]); cbn; lia. }
  unfold wellLabelled. cbn [fst snd].
  rewrite !labelsOf_app, !targetsOf_app, Hpl, Hpt.
  change (labelsOf [instruction.FJUMP a (labelText kElse n)]) with (@nil string).
  change (labelsOf [instruction.UJUMP (labelText kEndif n)]) with (@nil string).
  change (labelsOf [instruction.LABEL (labelText kElse n)]) with [labelText kElse n].
  change (labelsOf [instruction.LABEL (labelText kEndif n)]) with [labelText kEndif n].
  change (targetsOf [instruction.FJUMP a (labelText kElse n)]) with [labelText kElse n].
  change (targetsOf [instruction.UJUMP (labelText kEndif n)]) with [labelText kEndif n].
  change (targetsOf [instruction.LABEL (labelText kElse n)]) with (@nil string).
  change (targetsOf [instruction.LABEL (labelText kEndif n)]) with (@nil string).
  cbn [app].
  assert (Forall (ownLabels (cg_codeCounters v) (cg_codeCounters v5))
            ((labelsOf thenCode ++ [labelText kElse n; labelText kEndif n])
             ++ labelsOf elseCode)) as Hall.
  { unfold countersLe in *. rewrite !Forall_app. split_and!.
    - eapply Forall_impl; [exact Ho3|]. intros l.
      apply ownLabels_weaken; unfold countersLe; lia.
    - eapply Forall_impl; [exact Hown|]. intros l.
      apply ownLabels_weaken; unfold countersLe; lia.
    - eapply Forall_impl; [exact Ho5|]. intros l.
      apply ownLabels_weaken; unfold countersLe; lia. }
  split_and!.
  - eapply onlyCounters_trans; [exact Hv2|].
    eapply onlyCounters_trans; [exact Hv3|].
    eapply onlyCounters_trans; [exact Hv4|exact Hv5].
  - rewrite (labels_perm (labelsOf thenCode) (labelsOf elseCode)).
    eapply (NoDup_ownLabels_app (cg_codeCounters v2) c4 c4 (cg_codeCounters v5));
      [unfold countersLe; lia| | |done|done].
    + eapply (NoDup_ownLabels_app _ (cg_codeCounters v3) (cg_codeCounters v3) c4);
        [unfold countersLe; lia|done|exact Ho3|by apply NoDup_labelText_pair|done].
    + unfold countersLe in *. rewrite Forall_app. split.
      * eapply Forall_impl; [exact Ho3|]. intros l.
        apply ownLabels_weaken; unfold countersLe; lia.
      * eapply Forall_impl; [exact Hown|]. intros l.
        apply ownLabels_weaken; unfold countersLe; lia.
  - by rewrite (labels_perm (labelsOf thenCode) (labelsOf elseCode)).
  - intros x. rewrite !elem_of_cons, !elem_of_app, !elem_of_cons, !elem_of_app,
      !list_elem_of_singleton.
    specialize (Hc3 x). specialize (Hc5 x). cbn [fst] in Hc3, Hc5.
    pose proof (not_elem_of_nil x). tauto.
Qed.

Lemma wellLabelled_if_noelse v v2 v3 v4 pre a thenCode label :
  onlyTemporaries v v2 → straightLine pre →
  wellLabelled v2 (thenCode, v3) →
  newLabelIF v3 = (label, v4) →
  wellLabelled v
    (pre ++ [instruction.FJUMP a ("endif" +:+ label)] ++ thenCode
         ++ [instruction.LABEL ("endif" +:+ label)], v4).
Proof.
  intros Hv [Hpl Hpt] (Hv3 & Hn3 & Ho3 & Hc3) E.
  assert (label = fst (newLabelIF v3)) as -> by (by rewrite E).
  assert (v4 = snd (newLabelIF v3)) as -> by (by rewrite E). clear E.
  set (label := fst (newLabelIF v3)).
  cbn [fst snd] in *.
  set (n := cLabelIF (cg_codeCounters v3)).
  change ("endif" +:+ label) with (labelText kEndif n).
  set (c4 := cg_codeCounters (snd (newLabelIF v3))) in *.
  assert (cLabelIF c4 = S n ∧ cLabelWHILE c4 = cLabelWHILE (cg_codeCounters v3)
          ∧ cTEMP c4 = cTEMP (cg_codeCounters v3)) as (Hc4 & Hc4' & Hc4'') by done.
  assert (onlyCounters v3 (snd (newLabelIF v3))) as Hv4.
  { unfold onlyCounters, countersLe. fold c4. cbn [cg_Symbols cg_Decorations
      cg_currFunctionType newLabelIF counters.newLabelIF withCounters snd].
    split_and!; try done; lia. }
  pose proof (onlyTemporaries_onlyCounters _ _ Hv) as Hv2.
  pose proof Hv2 as (_ & _ & _ & Hle2). pose proof Hv3 as (_ & _ & _ & Hle3).
  pose proof Hv4 as (_ & _ & _ & Hle4). fold c4 in Hle4.
  assert (Forall (ownLabels (cg_codeCounters v3) c4) [labelText kEndif n]) as Hown.
  { repeat constructor; eexists _, n; (split; [done|]); cbn; lia. }
  unfold wellLabelled. cbn [fst snd]. fold c4.
  rewrite !labelsOf_app, !targetsOf_app, Hpl, Hpt.
  change (labelsOf [instruction.FJUMP a (labelText kEndif n)]) with (@nil string).
  change (labelsOf [instruction.LABEL (labelText kEndif n)]) with [labelText kEndif n].
  change (targetsOf [instruction.FJUMP a (labelText kEndif n)]) with [labelText kEndif n].
  change (targetsOf [instruction.LABEL (labelText kEndif n)]) with (@nil string).
  cbn [app].
  split_and!.
  - eapply onlyCounters_trans; [exact Hv2|].
    eapply onlyCounters_trans; [exact Hv3|exact Hv4].
  - eapply (NoDup_ownLabels_app _ (cg_codeCounters v3) (cg_codeCounters v3) c4);
      [unfold countersLe; lia|done|exact Ho3|apply NoDup_singleton|done].
  - unfold countersLe in *. rewrite Forall_app. split.
    + eapply Forall_impl; [exact Ho3|]. intros l.
      apply ownLabels_weaken; unfold countersLe; lia.
    + eapply Forall_impl; [exact Hown|]. intros l.
      apply ownLabels_weaken; unfold countersLe; lia.
  - intros x. rewrite !elem_of_cons, !elem_of_app, !list_elem_of_singleton.
    specialize (Hc3 x). cbn [fst] in Hc3.
    pose proof (not_elem_of_nil x). tauto.
Qed.

Lemma wellLabelled_while v v1 v2 v3 code1 a body label :
  onlyTemporaries v v1 → straightLine code1 →
  wellLabelled v1 (body, v2) →
  newLabelWHILE v2 = (label, v3) →
  wellLabelled v
    ([instruction.LABEL ("while" +:+ label)] ++ code1
       ++ [instruction.FJUMP a ("endwhile" +:+ label)] ++ body
       ++ [instruction.UJUMP ("while" +:+ label)]
       ++ [instruction.LABEL ("endwhile" +:+ label)], v3).
Proof.
  intros Hv [Hpl Hpt] (Hv2 & Hn2 & Ho2 & Hc2) E.
  assert (label = fst (newLabelWHILE v2)) as -> by (by rewrite E).
  assert (v3 = snd (newLabelWHILE v2)) as -> by (by rewrite E). clear E.
  set (label := fst (newLabelWHILE v2)).
  cbn [fst snd] in *.
  set (n := cLabelWHILE (cg_codeCounters v2)).
  change ("while" +:+ label) with (labelText kWhile n).
  change ("endwhile" +:+ label) with (labelText kEndwhile n).
  set (c3 := cg_codeCounters (snd (newLabelWHILE v2))) in *.
  assert (cLabelWHILE c3 = S n ∧ cLabelIF c3 = cLabelIF (cg_codeCounters v2)
          ∧ cTEMP c3 = cTEMP (cg_codeCounters v2)) as (Hc3 & Hc3' & Hc3'') by done.
  assert (onlyCounters v2 (snd (newLabelWHILE v2))) as Hv3.
  { unfold onlyCounters, countersLe. fold c3. cbn [cg_Symbols cg_Decorations
      cg_currFunctionType newLabelWHILE counters.newLabelWHILE withCounters snd].
    split_and!; try done; lia. }
  pose proof (onlyTemporaries_onlyCounters _ _ Hv) as Hv1.
  pose proof Hv1 as (_ & _ & _ & Hle1). pose proof Hv2 as (_ & _ & _ & Hle2).
  pose proof Hv3 as (_ & _ & _ & Hle3). fold c3 in Hle3.
  assert (Forall (ownLabels (cg_codeCounters v2) c3)
            [labelText kWhile n; labelText kEndwhile n]) as Hown.
  { repeat constructor; eexists _, n; (split; [done|]); cbn; lia. }
  unfold wellLabelled. cbn [fst snd]. fold c3.
  rewrite !labelsOf_app, !targetsOf_app, Hpl, Hpt.
  change (labelsOf [instruction.FJUMP a (labelText kEndwhile n)]) with (@nil string).
  change (labelsOf [instruction.UJUMP (labelText kWhile n)]) with (@nil string).
  change (labelsOf [instruction.LABEL (labelText kWhile n)]) with [labelText kWhile n].
  change (labelsOf [instruction.LABEL (labelText kEndwhile n)])
    with [labelText kEndwhile n].
  change (targetsOf [instruction.FJUMP a (labelText kEndwhile n)])
    with [labelText kEndwhile n].
  change (targetsOf [instruction.UJUMP (labelText kWhile n)]) with [labelText kWhile n].
  change (targetsOf [instruction.LABEL (labelText kWhile n)]) with (@nil string).
  change (targetsOf [instruction.LABEL (labelText kEndwhile n)]) with (@nil string).
  cbn [app].
  assert (labelText kWhile n :: labelsOf body ++ [labelText kEndwhile n]
          ≡ₚ labelsOf body ++ [labelText kWhile n; labelText kEndwhile n]) as Hperm.
  { apply Permutation_middle. }
  assert (Forall (ownLabels (cg_codeCounters v) c3)
            (labelsOf body ++ [labelText kWhile n; labelText kEndwhile n])) as Hall.
  { unfold countersLe in *. rewrite Forall_app. split.
    - eapply Forall_impl; [exact Ho2|]. intros l.
      apply ownLabels_weaken; unfold countersLe; lia.
    - eapply Forall_impl; [exact Hown|]. intros l.
      apply ownLabels_weaken; unfold countersLe; lia. }
  split_and!.
  - eapply onlyCounters_trans; [exact Hv1|].
    eapply onlyCounters_trans; [exact Hv2|exact Hv3].
  - rewrite Hperm.
    eapply (NoDup_ownLabels_app _ (cg_codeCounters v2) (cg_codeCounters v2) c3);
      [unfold countersLe; lia|done|exact Ho2|by apply NoDup_labelText_pair|done].
  - by rewrite Hperm.
  - intros x. rewrite !elem_of_cons, !elem_of_app, !list_elem_of_singleton.
    specialize (Hc2 x). cbn [fst] in Hc2.
    pose proof (not_elem_of_nil x). tauto.
Qed.

End BranchLabels.

Section SubroutineLabels.
Import TypesMgr CodeGen AslParser.
Import Properties.

Lemma examen_visitIfStmt_wellLabelled visit ctx expr statements0 statements1 :
  (∀ v, wellLabelled v (visit statements0 v)) →
  (∀ s1, statements1 = Some s1 → ∀ v, wellLabelled v (visit s1 v)) →
  ∀ v, wellLabelled v
         (Examen.CodeGenVisitor.visitIfStmt visit ctx expr statements0 statements1 v).
Proof.
  intros H0 H1 v. unfold Examen.CodeGenVisitor.visitIfStmt. cbn zeta.
  destruct (examen_visit_expr_frame expr v) as [Hv1 Hc1].
  destruct (Examen.CodeGenVisitor.visit_expr expr v) as [codAtsE v1].
  cbn [fst snd] in Hv1, Hc1. cbn [app].
  match goal with
  | |- context [if nonEmpty ?o then ?A else ?B] =>
      set (X := if nonEmpty o then A else B)
  end.
  assert (∃ a pre v2, X = (a, pre, v2) ∧ onlyTemporaries v v2 ∧ straightLine pre)
    as (a & pre & v2 & HX & Hv2 & Hpre); [subst X | clearbody X; subst X].
  { unfold Examen.CodeGenVisitor.porReferencia.
    destruct (nonEmpty _); [destruct (SymTable.isParameterClass _ _)|].
    - pose proof (newTEMP_onlyTemporaries v1) as Ht.
      destruct (newTEMP v1) as [n w]. cbn [snd] in Ht.
      eexists _, _, _. split; [reflexivity|]. split.
      + by eapply onlyTemporaries_trans.
      + repeat first [assumption | apply straightLine_app | (split; reflexivity)].
    - eexists _, _, _. split; [reflexivity|]. split; [done|].
      repeat first [assumption | apply straightLine_app | (split; reflexivity)].
    - by eexists _, _, _. }
  specialize (H0 v2). destruct (visit statements0 v2) as [thenCode v3].
  destruct (newLabelIF v3) as [label v4] eqn:E.
  destruct statements1 as [s1|].
  - specialize (H1 s1 eq_refl v4). destruct (visit s1 v4) as [elseCode v5].
    by eapply wellLabelled_if.
  - by eapply wellLabelled_if_noelse.
Qed.

Lemma examen_visitWhileStmt_wellLabelled visit ctx expr statements :
  (∀ v, wellLabelled v (visit statements v)) →
  ∀ v, wellLabelled v (Examen.CodeGenVisitor.visitWhileStmt visit ctx expr statements v).
Proof.
  intros H0 v. unfold Examen.CodeGenVisitor.visitWhileStmt. cbn zeta.
  destruct (examen_visit_expr_frame expr v) as [Hv1 Hc1].
  destruct (Examen.CodeGenVisitor.visit_expr expr v) as [codAtsE v1].
  cbn [fst snd] in Hv1, Hc1.
  specialize (H0 v1). destruct (visit statements v1) as [code2 v2].
  destruct (newLabelWHILE v2) as [label v3] eqn:E.
  by eapply wellLabelled_while.
Qed.

Lemma examen_visit_statement_wellLabelled s :
  ∀ v, wellLabelled v (Examen.CodeGenVisitor.visit_statement s v).
Proof.
  induction s as [ctx left_expr expr|ctx expr s0 s1 IH0 IH1|ctx expr s0 IH0
                 |ctx fc|ctx left_expr|ctx expr|ctx str|ctx expr]
    using StatementContext_ind';
    intros v; cbn [Examen.CodeGenVisitor.visit_statement].
  - apply wellLabelled_frame, examen_visitAssignStmt_frame.
  - apply examen_visitIfStmt_wellLabelled.
    + by apply examen_visitStatements_wellLabelled.
    + intros s Hs. apply examen_visitStatements_wellLabelled. by eapply IH1.
  - apply examen_visitWhileStmt_wellLabelled.
    by apply examen_visitStatements_wellLabelled.
  - apply wellLabelled_frame, examen_visitProcCall_frame.
  - apply wellLabelled_frame, examen_visitReadStmt_frame.
  - apply wellLabelled_frame, examen_visitWriteExpr_frame.
  - apply wellLabelled_frame. split; [apply onlyTemporaries_refl | done].
  - apply wellLabelled_frame, examen_visitReturnStmt_frame.
Qed.

End SubroutineLabels.

(* ================================================================== *)
(** ** Code generation: subroutines and the program *)
(* ================================================================== *)

Section Subroutine.
Import TypesMgr CodeGen AslParser.
Import Properties.
Variable to_string : TypeId → string.

Lemma examen_visitParameters_fold D (l : list ParameterContext) :
  ∀ subr w, cg_Decorations w = D →
    fold_left
      (λ '(subr, v) ctxParam,
         let '(param, v) := Examen.CodeGenVisitor.visitParameter to_string ctxParam v in
         let tParam := getTypeDecor (parameter_ctx ctxParam) v in
         let isArray := isArrayTy tParam in
         (subroutine.add_param (var_name param) (var_type param) isArray subr, v))
      l (subr, w)
    = ({| subr_name := subr_name subr;
          subr_params := subr_params subr ++
            map (λ p, {| param_name := parameter_ID p;
                         param_type :=
                           to_string (elemTy (getType D (type_ctx (parameter_type p))));
                         param_isArray := isArrayTy (getType D (parameter_ctx p)) |}) l;
          subr_vars := subr_vars subr;
          subr_instructions := subr_instructions subr |}, w).
Proof.
  induction l as [|p l IH]; intros subr w HD; cbn [fold_left map].
  - rewrite app_nil_r. by destruct subr.
  - unfold Examen.CodeGenVisitor.visitParameter at 2. cbn zeta iota beta.
    rewrite IH by done. cbn. unfold getTypeDecor, elemTy. rewrite HD.
    by rewrite <- app_assoc.
Qed.

Lemma examen_visitVariable_decl_state d v :
  snd (Examen.CodeGenVisitor.visitVariable_decl to_string d v) = v.
Proof.
  unfold Examen.CodeGenVisitor.visitVariable_decl.
  by destruct (fold_left _ (variable_decl_ID d) _).
Qed.

Lemma examen_visitDeclarations_fold (l : list Variable_declContext) :
  ∀ lvars v,
    fold_left
      (λ '(lvars, v) varDeclCtx,
         let '(onevars, v) :=
           Examen.CodeGenVisitor.visitVariable_decl to_string varDeclCtx v in
         (lvars ++ onevars, v))
      l (lvars, v)
    = (lvars ++ concat (map (λ d, fst (Examen.CodeGenVisitor.visitVariable_decl
                                         to_string d v)) l), v).
Proof.
  induction l as [|d l IH]; intros lvars v; cbn [fold_left map concat].
  - by rewrite app_nil_r.
  - pose proof (examen_visitVariable_decl_state d v) as Hd.
    destruct (Examen.CodeGenVisitor.visitVariable_decl to_string d v) as [onevars w].
    cbn [snd fst] in *. subst w. rewrite IH. by rewrite <- app_assoc.
Qed.

Lemma examen_visitDeclarations_eq ds v :
  Examen.CodeGenVisitor.visitDeclarations to_string ds v
  = (concat (map (λ d, fst (Examen.CodeGenVisitor.visitVariable_decl to_string d v))
               (declarations_variable_decl ds)), v).
Proof.
  unfold Examen.CodeGenVisitor.visitDeclarations.
  by rewrite examen_visitDeclarations_fold.
Qed.

(** [visitFunction], with its loops summed up: the subroutine and the
    fields after. *)
Lemma examen_visitFunction_eq ctx v :
  let v0 := resetCounters
              (withSymbols (SymTable.pushThisScope (getScopeDecor (function_ctx ctx) v)) v) in
  let r := Examen.CodeGenVisitor.visitStatements Examen.CodeGenVisitor.visit_statement
             (function_statements ctx) v0 in
  Examen.CodeGenVisitor.visitFunction to_string ctx v
  = ({| subr_name := function_ID ctx;
        subr_params := paramsOf to_string (cg_Decorations v) ctx;
        subr_vars := fst (Examen.CodeGenVisitor.visitDeclarations to_string
                            (function_declarations ctx) v0);
        subr_instructions := fst r ++ [instruction.RETURN] |},
     withSymbols SymTable.popScope (snd r)).
Proof.
  intros v0 r. unfold Examen.CodeGenVisitor.visitFunction. fold v0.
  rewrite (examen_visitParameters_fold (cg_Decorations v)) by done.
  rewrite examen_visitDeclarations_eq. fold r.
  destruct r as [code v3]. cbn [fst snd].
  unfold paramsOf.
  assert (∀ (l : list var) s,
    fold_left (λ subr onevar, subroutine.add_var onevar subr) l s
    = {| subr_name := subr_name s; subr_params := subr_params s;
         subr_vars := subr_vars s ++ l; subr_instructions := subr_instructions s |})
    as Hvars.
  { induction l as [|x l IH]; intros s; cbn [fold_left].
    - rewrite app_nil_r. by destruct s.
    - rewrite IH. cbn. by rewrite <- app_assoc. }
  rewrite Hvars.
  destruct (function_basic_type ctx); reflexivity.
Qed.

End Subroutine.

Section Program.
Import TypesMgr CodeGen AslParser.
Import Properties.
Variable to_string : TypeId → string.

Lemma examen_visitFunction_wellLabelled ctx v :
  let v0 := resetCounters
              (withSymbols (SymTable.pushThisScope (getScopeDecor (function_ctx ctx) v)) v) in
  wellLabelled v0
    (Examen.CodeGenVisitor.visitStatements Examen.CodeGenVisitor.visit_statement
       (function_statements ctx) v0).
Proof.
  intros v0. apply examen_visitStatements_wellLabelled, Forall_forall.
  intros s _. apply examen_visit_statement_wellLabelled.
Qed.




(** X3.  In the subroutine that [visitFunction] builds for a function
    over the statements and expressions of the shared grammar, every jump
    is to a label the same subroutine defines: the target of each UJUMP
    and FJUMP is the name of a LABEL instruction of its instruction
    list. *)
Theorem examen_subroutine_jumps_closed ctx v :
  let subr := fst (Examen.CodeGenVisitor.visitFunction to_string ctx v) in
  targetsOf (subr_instructions subr) ⊆ labelsOf (subr_instructions subr).
Proof.
  intros subr l. subst subr. rewrite examen_visitFunction_eq. cbn [fst subr_instructions].
  destruct (examen_visitFunction_wellLabelled ctx v) as (_ & _ & _ & Hclosed).
  rewrite targetsOf_app, labelsOf_app.
  change (targetsOf [instruction.RETURN]) with (@nil string).
  rewrite !app_nil_r. apply Hclosed.
Qed.

(** X4.  In the subroutine that [visitFunction] builds for a function
    over the statements and expressions of the shared grammar no label is
    defined twice, however the if and while statements are nested. *)
Theorem examen_subroutine_labels_distinct ctx v :
  NoDup (labelsOf (subr_instructions
                     (fst (Examen.CodeGenVisitor.visitFunction to_string ctx v)))).
Proof.
  rewrite examen_visitFunction_eq. cbn [fst subr_instructions].
  destruct (examen_visitFunction_wellLabelled ctx v) as (_ & Hnodup & _).
  rewrite labelsOf_app. change (labelsOf [instruction.RETURN]) with (@nil string).
  by rewrite app_nil_r.
Qed.



End Program.

Section SubroutineShape.
Import TypesMgr CodeGen AslParser.
Import Properties.
Variable to_string : TypeId → string.

Lemma elemTy_idem t : isArrayTy (elemTy t) = false → elemTy (elemTy t) = elemTy t.
Proof. intros H. unfold elemTy at 1. by rewrite H. Qed.

Lemma examen_visitVariable_decl_vars d v :
  isArrayTy (elemTy (getTypeDecor (type_ctx (variable_decl_type d)) v)) = false →
  fst (Examen.CodeGenVisitor.visitVariable_decl to_string d v)
  = varsOf to_string (cg_Decorations v) d.
Proof.
  intros Helem. unfold Examen.CodeGenVisitor.visitVariable_decl, varsOf.
  fold (getTypeDecor (type_ctx (variable_decl_type d)) v).
  set (t := getTypeDecor (type_ctx (variable_decl_type d)) v) in *.
  set (size := getSizeOfType t).
  assert (∀ l t1 variables,
    elemTy t1 = elemTy t →
    snd (fold_left
      (λ '(t1, variables) id,
         let t1 := if isArrayTy t1 then getArrayElemType t1 else t1 in
         let variable := {| var_name := id; var_type := to_string t1;
                            var_nelem := size |} in
         (t1, variables ++ [variable]))
      l (t1, variables))
    = variables ++ map (λ ident, {| var_name := ident; var_type := to_string (elemTy t);
                                    var_nelem := size |}) l) as Hfold.
  { induction l as [|id l IH]; intros t1 variables Ht1; cbn [fold_left map].
    - by rewrite app_nil_r.
    - rewrite IH.
      + fold (elemTy t1). rewrite Ht1. by rewrite <- app_assoc.
      + fold (elemTy t1). rewrite Ht1. by apply elemTy_idem. }
  specialize (Hfold (variable_decl_ID d) t [] eq_refl).
  destruct (fold_left _ (variable_decl_ID d) _) as [t1 variables]. exact Hfold.
Qed.

(** X7.  The subroutine of a function carries the name of the function;
    its parameters are the parameters of the function in order, preceded
    by [_result] exactly when the function has a return type, and a
    parameter is flagged as an array exactly when the type decorating its
    node is an array ([_result] never is); its variables are the declared
    names in order; and its last instruction is RETURN. *)
Theorem examen_subroutine_interface ctx v :
  let subr := fst (Examen.CodeGenVisitor.visitFunction to_string ctx v) in
  subr_name subr = function_ID ctx
  ∧ map param_name (subr_params subr)
    = match function_basic_type ctx with Some _ => ["_result"] | None => [] end
      ++ map parameter_ID (function_parameter ctx)
  ∧ map param_isArray (subr_params subr)
    = match function_basic_type ctx with Some _ => [false] | None => [] end
      ++ map (λ p, isArrayTy (getTypeDecor (parameter_ctx p) v)) (function_parameter ctx)
  ∧ map var_name (subr_vars subr)
    = concat (map variable_decl_ID
                (declarations_variable_decl (function_declarations ctx)))
  ∧ last (subr_instructions subr) = Some instruction.RETURN.
Proof.
  intros subr. subst subr. rewrite examen_visitFunction_eq.
  cbn [fst subr_name subr_params subr_vars subr_instructions]. split_and!.
  - done.
  - unfold paramsOf. rewrite map_app, map_map. by destruct (function_basic_type ctx).
  - unfold paramsOf. rewrite map_app, map_map. by destruct (function_basic_type ctx).
  - rewrite examen_visitDeclarations_eq. cbn [fst].
    induction (declarations_variable_decl (function_declarations ctx)) as [|d l IH];
      cbn [map concat]; [done|].
    rewrite map_app, IH. f_equal.
    unfold Examen.CodeGenVisitor.visitVariable_decl.
    match goal with
    | |- context [fold_left ?f (variable_decl_ID d) (?t, [])] =>
        assert (∀ ids t1 variables,
          map var_name (snd (fold_left f ids (t1, variables)))
          = map var_name variables ++ ids) as Hfold
    end.
    { induction ids as [|id ids IHids]; intros t1 variables; cbn [fold_left].
      - by rewrite app_nil_r.
      - rewrite IHids, map_app. cbn. by rewrite <- app_assoc. }
    match goal with
    | |- context [fold_left ?f (variable_decl_ID d) (?t, [])] =>
        specialize (Hfold (variable_decl_ID d) t []);
        destruct (fold_left f (variable_decl_ID d) (t, [])) as [t1 variables]
    end.
    exact Hfold.
  - by rewrite last_snoc.
Qed.

(** X8.  When no declared variable is an array of arrays, the variables
    of the subroutine are, for each declaration in order and each of its
    names in order, the name with the tag of the element type (the type
    itself when it is not an array) and the size of the declared type. *)
Theorem examen_subroutine_variables ctx v :
  Forall (λ d, isArrayTy (elemTy (getTypeDecor (type_ctx (variable_decl_type d)) v)) = false)
    (declarations_variable_decl (function_declarations ctx)) →
  subr_vars (fst (Examen.CodeGenVisitor.visitFunction to_string ctx v))
  = concat (map (varsOf to_string (cg_Decorations v))
              (declarations_variable_decl (function_declarations ctx))).
Proof.
  intros H. rewrite examen_visitFunction_eq. cbn [fst subr_vars].
  rewrite examen_visitDeclarations_eq. cbn [fst]. f_equal.
  apply map_ext_Forall. eapply Forall_impl; [exact H|]. intros d Hd.
  exact (examen_visitVariable_decl_vars d (resetCounters (withSymbols _ v)) Hd).
Qed.

End SubroutineShape.

Section SubroutineExample.
Import TypesMgr CodeGen AslParser Spec.
Import Properties.

Lemma examen_subroutine_variables_witness :
  let v := {| cg_Symbols := sampleSymbols; cg_Decorations := decorSubroutine;
              cg_codeCounters := {| cTEMP := 7; cLabelIF := 3; cLabelWHILE := 2 |};
              cg_currFunctionType := TVoid |} in
  subr_vars (fst (Examen.CodeGenVisitor.visitFunction sampleTags sampleSubroutine v))
  = [ {| var_name := "a"; var_type := "char"; var_nelem := 2 |};
      {| var_name := "i"; var_type := "int"; var_nelem := 1 |};
      {| var_name := "j"; var_type := "int"; var_nelem := 1 |} ].
Proof.
  intros v.
  apply (examen_subroutine_variables sampleTags sampleSubroutine v).
  repeat constructor.
Defined.

End SubroutineExample.

(* ================================================================== *)
(** ** Code generation: the stack *)
(* ================================================================== *)

Section StackDiscipline.
Import TypesMgr CodeGen AslParser.
Import Properties.

Lemma stackEffect_app c1 c2 :
  stackEffect (c1 ++ c2) = (stackEffect c1 + stackEffect c2)%Z.
Proof.
  induction c1 as [|i c1 IH]; cbn [app stackEffect foldr]; [done|].
  fold (stackEffect (c1 ++ c2)). fold (stackEffect c1). rewrite IH. lia.
Qed.

Ltac stack_note known x :=
  lazymatch type of x with
  | (CodeAttribs * CGState)%type =>
      lazymatch x with
      | ?f ?v0 =>
          let H := fresh "H" in
          assert (H : stackEffect (code (fst (f v0))) = 0%Z) by (first [ known | eauto ])
      end
  | (instructionList * CGState)%type =>
      lazymatch x with
      | ?f ?v0 =>
          let H := fresh "H" in
          assert (H : stackEffect (fst (f v0)) = 0%Z) by (first [ known | eauto ])
      end
  | _ => idtac
  end.

Ltac stack_step known :=
  match goal with
  | |- context [if ?c then _ else _] => destruct c; cbv beta iota
  | |- context [match ?o with Some _ => _ | None => _ end] => destruct o; cbv beta iota
  | |- context [match ?op with NOT => _ | _ => _ end] => destruct op; cbv beta iota
  | |- context [match ?op with MUL => _ | _ => _ end] => destruct op; cbv beta iota
  | |- context [match ?op with EQUAL => _ | _ => _ end] => destruct op; cbv beta iota
  | |- context [match ?op with AND => _ | _ => _ end] => destruct op; cbv beta iota
  | |- context [match ?tk with INTVAL _ => _ | _ => _ end] => destruct tk; cbv beta iota
  | |- context [match ?x with pair _ _ => _ end] =>
      lazymatch x with _ _ => idtac | _ => is_var x end;
      stack_note known x; destruct x as [? ?]; cbn [fst snd code] in *
  end.

Ltac stack_close :=
  cbn [fst snd code addr offs];
  rewrite ?stackEffect_app; cbn [stackEffect foldr]; lia.

Ltac stack_walk known := repeat stack_step known; stack_close.

Lemma examen_lowerArguments_stackEffect visit tFunc exprs :
  Forall (λ e, ∀ v, stackEffect (code (fst (visit e v))) = 0%Z) exprs →
  ∀ i c pushCode popCode v,
    let r := Examen.CodeGenVisitor.lowerArguments visit tFunc i exprs c pushCode popCode v in
    stackEffect (fst (fst (fst r))) = stackEffect c
    ∧ (stackEffect (snd (fst (fst r))) + stackEffect (snd (fst r))
       = stackEffect pushCode + stackEffect popCode)%Z.
Proof.
  induction 1 as [|e exprs He _ IH]; intros i c pushCode popCode v;
    cbn [Examen.CodeGenVisitor.lowerArguments]; [done|].
  cbn zeta. specialize (He v). destruct (visit e v) as [codAt1 v1]. cbn [fst snd] in He.
  repeat stack_step fail.
  all: match goal with
       | |- context [Examen.CodeGenVisitor.lowerArguments _ _ _ _ ?c' ?pu ?po ?w] =>
           destruct (IH (S i) c' pu po w) as [-> ->]
       end.
  all: rewrite ?stackEffect_app; cbn [stackEffect foldr]; lia.
Qed.

Lemma examen_visitFunction_call_stackEffect visit function_call :
  Forall (λ e, ∀ v, stackEffect (code (fst (visit e v))) = 0%Z)
    (function_call_expr function_call) →
  ∀ v, stackEffect (code (fst (Examen.CodeGenVisitor.visitFunction_call visit
                                 function_call v))) = 0%Z.
Proof.
  intros H v. unfold Examen.CodeGenVisitor.visitFunction_call. cbn zeta.
  destruct (isVoidFunction _); cbn [negb].
  - destruct (examen_lowerArguments_stackEffect visit
                (getTypeDecor (ident_ctx (function_call_ident function_call)) v)
                _ H 0 [] [] [] v) as [Hc Hp].
    destruct (Examen.CodeGenVisitor.lowerArguments _ _ _ _ _ _ _ _) as [[[c pu] po] w].
    cbn [fst snd] in *. cbn [fst snd code]. rewrite ?stackEffect_app.
    cbn [stackEffect foldr] in *. lia.
  - destruct (examen_lowerArguments_stackEffect visit
                (getTypeDecor (ident_ctx (function_call_ident function_call)) v)
                _ H 0 ([] ++ [instruction.PUSH0]) [] [] v) as [Hc Hp].
    destruct (Examen.CodeGenVisitor.lowerArguments _ _ _ _ _ _ _ _) as [[[c pu] po] w].
    cbn [fst snd] in *. repeat stack_step fail. cbn [fst snd code].
    rewrite ?stackEffect_app. cbn [stackEffect foldr app] in *. lia.
Qed.

Lemma examen_visit_expr_stackEffect e :
  ∀ v, stackEffect (code (fst (Examen.CodeGenVisitor.visit_expr e v))) = 0%Z.
Proof.
  induction e using ExprContext_ind'; intros v;
    cbn [Examen.CodeGenVisitor.visit_expr].
  - apply IHe.
  - by apply examen_visitFunction_call_stackEffect.
  - unfold Examen.CodeGenVisitor.visitUnary, Examen.CodeGenVisitor.loadIndexed.
    stack_walk fail.
  - unfold Examen.CodeGenVisitor.visitArithmetic, Examen.CodeGenVisitor.loadIndexed.
    stack_walk fail.
  - unfold Examen.CodeGenVisitor.visitRelational, Examen.CodeGenVisitor.loadIndexed.
    stack_walk fail.
  - unfold Examen.CodeGenVisitor.visitLogical, Examen.CodeGenVisitor.loadIndexed.
    stack_walk fail.
  - unfold Examen.CodeGenVisitor.visitArrayAccess.
    stack_walk ltac:(reflexivity).
  - unfold Examen.CodeGenVisitor.visitValue. stack_walk fail.
  - reflexivity.
Qed.

Lemma copyArray_stackEffect addr1 addr2 tempOffs tempRight n :
  ∀ i c, stackEffect (Examen.CodeGenVisitor.copyArray addr1 addr2 tempOffs tempRight i n c)
         = stackEffect c.
Proof.
  induction n as [|n IH]; intros i c; cbn [Examen.CodeGenVisitor.copyArray]; [done|].
  rewrite IH, ?stackEffect_app. cbn [stackEffect foldr]. lia.
Qed.

Ltac stack_known :=
  first [ reflexivity
        | apply examen_visit_expr_stackEffect
        | apply examen_visitFunction_call_stackEffect, Forall_forall; intros;
          apply examen_visit_expr_stackEffect ].

Lemma examen_visitLeft_expr_stackEffect left_expr v :
  stackEffect (code (fst (Examen.CodeGenVisitor.visitLeft_expr
                            Examen.CodeGenVisitor.visit_expr left_expr v))) = 0%Z.
Proof.
  unfold Examen.CodeGenVisitor.visitLeft_expr, Examen.CodeGenVisitor.porReferencia.
  stack_walk stack_known.
Qed.

Ltac stack_known_stmt :=
  first [ apply examen_visitLeft_expr_stackEffect | stack_known ].

Lemma examen_visitStatements_stackEffect visit statements :
  Forall (λ s, ∀ v, stackEffect (fst (visit s v)) = 0%Z)
    (statements_statement statements) →
  ∀ v, stackEffect (fst (Examen.CodeGenVisitor.visitStatements visit statements v)) = 0%Z.
Proof.
  unfold Examen.CodeGenVisitor.visitStatements. intros H v.
  assert (stackEffect [] = 0%Z) as Hacc by done.
  revert Hacc. generalize (@nil instruction.t) as acc. generalize v as w.
  induction H as [|s l Hs _ IH]; intros w acc Hacc; cbn [fold_left]; [done|].
  specialize (Hs w). destruct (visit s w) as [codeS w'].
  apply IH. rewrite stackEffect_app. cbn [fst] in Hs. lia.
Qed.

Lemma examen_visit_statement_stackEffect s :
  ∀ v, stackEffect (fst (Examen.CodeGenVisitor.visit_statement s v)) = 0%Z.
Proof.
  induction s as [ctx left_expr expr|ctx expr s0 s1 IH0 IH1|ctx expr s0 IH0
                 |ctx fc|ctx left_expr|ctx expr|ctx str|ctx expr]
    using StatementContext_ind';
    intros v; cbn [Examen.CodeGenVisitor.visit_statement].
  - unfold Examen.CodeGenVisitor.visitAssignStmt, Examen.CodeGenVisitor.porReferencia.
    repeat stack_step stack_known_stmt; cbn [fst snd];
      rewrite ?copyArray_stackEffect; stack_close.
  - pose proof (examen_visitStatements_stackEffect
                  Examen.CodeGenVisitor.visit_statement s0 IH0) as H0.
    unfold Examen.CodeGenVisitor.visitIfStmt, Examen.CodeGenVisitor.porReferencia.
    destruct s1 as [s1|].
    + pose proof (examen_visitStatements_stackEffect
                    Examen.CodeGenVisitor.visit_statement s1 (IH1 s1 eq_refl)) as H1.
      stack_walk stack_known_stmt.
    + stack_walk stack_known_stmt.
  - pose proof (examen_visitStatements_stackEffect
                  Examen.CodeGenVisitor.visit_statement s0 IH0) as H0.
    unfold Examen.CodeGenVisitor.visitWhileStmt.
    stack_walk stack_known_stmt.
  - unfold Examen.CodeGenVisitor.visitProcCall. stack_walk stack_known_stmt.
  - unfold Examen.CodeGenVisitor.visitReadStmt. stack_walk stack_known_stmt.
  - unfold Examen.CodeGenVisitor.visitWriteExpr, Examen.CodeGenVisitor.loadIndexed.
    stack_walk stack_known_stmt.
  - reflexivity.
  - unfold Examen.CodeGenVisitor.visitReturnStmt. stack_walk stack_known_stmt.
Qed.

Section Subroutine.
Variable to_string : TypeId → string.

(** X9.  The code generator of the 2021 exam pops what it pushes: in
    the code of every expression, and in the instruction list of every
    subroutine, the PUSH instructions and the POP instructions are equal
    in number (a call pushes the slot of the result when there is one and
    one value per argument, and pops as many). *)
Theorem examen_calls_pop_what_they_push :
  (∀ e v, stackEffect (code (fst (Examen.CodeGenVisitor.visit_expr e v))) = 0%Z)
  ∧ (∀ ctx v,
       stackEffect (subr_instructions
                      (fst (Examen.CodeGenVisitor.visitFunction to_string ctx v))) = 0%Z).
Proof.
  split; [apply examen_visit_expr_stackEffect|].
  intros ctx v. rewrite examen_visitFunction_eq. cbn [fst subr_instructions].
  rewrite stackEffect_app, examen_visitStatements_stackEffect; [done|].
  apply Forall_forall. intros s _. apply examen_visit_statement_stackEffect.
Qed.

End Subroutine.

End StackDiscipline.

(* ================================================================== *)
(** ** Type check: what a visit changes *)
(* ================================================================== *)

Section TypeCheckFrame.
Import TypesMgr TypeCheck AslParser.
Import Properties.

Lemma checksOnly_refl v : checksOnly v v.
Proof. by split_and!. Qed.

Lemma checksOnly_trans v1 v2 v3 :
  checksOnly v1 v2 → checksOnly v2 v3 → checksOnly v1 v3.
Proof.
  intros (? & ? & ?) (? & ? & ?). split_and!; [congruence..|by etrans].
Qed.

Lemma checksOnly_putTypeDecor v ctx t w :
  checksOnly v w → checksOnly v (putTypeDecor ctx t w).
Proof. by intros (? & ? & ?). Qed.

Lemma checksOnly_putIsLValueDecor v ctx b w :
  checksOnly v w → checksOnly v (putIsLValueDecor ctx b w).
Proof. by intros (? & ? & ?). Qed.

Lemma checksOnly_report v k p w :
  checksOnly v w → checksOnly v (withErrors (SemErrors.report k p) w).
Proof.
  intros (? & ? & ?). split_and!; [done..|].
  cbn. unfold SemErrors.report. by apply prefix_app_r.
Qed.

Lemma checksOnly_errorIf v c k p w :
  checksOnly v w → checksOnly v (errorIf c (SemErrors.report k) p w).
Proof. intros H. unfold errorIf. destruct c; [by apply checksOnly_report|done]. Qed.

Lemma checksOnly_setCurrentFunctionTy v t w :
  checksOnly v w → checksOnly v (setCurrentFunctionTy t w).
Proof. by intros (? & ? & ?). Qed.

Ltac tc_frame visited :=
  repeat first
    [ assumption
    | apply checksOnly_refl
    | apply checksOnly_putTypeDecor
    | apply checksOnly_putIsLValueDecor
    | apply checksOnly_errorIf
    | apply checksOnly_report
    | apply (checksOnly_errorIf _ _ (IncompatibleParameter _ _))
    | visited
    | match goal with
      | |- context [if ?c then _ else _] => destruct c; cbv beta iota
      | |- context [match ?o with Some _ => _ | None => _ end] => destruct o; cbv beta iota
      | |- context [match ?op with NOT => _ | _ => _ end] => destruct op; cbv beta iota
      | |- context [match ?tk with INTVAL _ => _ | _ => _ end] => destruct tk; cbv beta iota
      end ].

Lemma examen_visitIdent_checksOnly v ident w :
  checksOnly v w → checksOnly v (Examen.TypeCheckVisitor.visitIdent ident w).
Proof.
  intros H. unfold Examen.TypeCheckVisitor.visitIdent.
  tc_frame fail.
Qed.

Lemma examen_checkParameters_checksOnly ctx tFunc exprs v :
  ∀ i w, checksOnly v w →
         checksOnly v (Examen.TypeCheckVisitor.checkParameters ctx tFunc i exprs w).
Proof.
  induction exprs as [|e exprs IH]; intros i w Hw;
    cbn [Examen.TypeCheckVisitor.checkParameters]; [done|].
  apply IH. unfold errorIf. destruct (_ && _); [|done].
  by apply checksOnly_report.
Qed.

Lemma fold_left_visit_checksOnly {A} (visit : A → TCState → TCState) (l : list A) v :
  Forall (λ x, ∀ w, checksOnly v w → checksOnly v (visit x w)) l →
  ∀ w, checksOnly v w → checksOnly v (fold_left (λ v x, visit x v) l w).
Proof.
  induction 1 as [|x l Hx _ IH]; intros w Hw; cbn [fold_left]; [done|].
  by apply IH, Hx.
Qed.

Lemma examen_visitFunction_call_checksOnly visit function_call v :
  Forall (λ x, ∀ w, checksOnly v w → checksOnly v (visit x w))
    (function_call_expr function_call) →
  ∀ w, checksOnly v w →
       checksOnly v (Examen.TypeCheckVisitor.visitFunction_call visit function_call w).
Proof.
  intros H w Hw. unfold Examen.TypeCheckVisitor.visitFunction_call.
  tc_frame ltac:(first [ apply examen_checkParameters_checksOnly
                       | apply fold_left_visit_checksOnly; [exact H|]
                       | apply examen_visitIdent_checksOnly ]).
Qed.

Lemma examen_visit_expr_checksOnly e :
  ∀ v w, checksOnly v w → checksOnly v (Examen.TypeCheckVisitor.visit_expr e w).
Proof.
  induction e using ExprContext_ind'; intros v w Hw;
    cbn [Examen.TypeCheckVisitor.visit_expr].
  - unfold Examen.TypeCheckVisitor.visitParenthesis. tc_frame ltac:(apply IHe).
  - unfold Examen.TypeCheckVisitor.visitExprFunc.
    tc_frame ltac:(apply examen_visitFunction_call_checksOnly;
                   [eapply Forall_impl; [eassumption|]; cbn; intros; eauto|]).
  - unfold Examen.TypeCheckVisitor.visitUnary. tc_frame ltac:(apply IHe).
  - unfold Examen.TypeCheckVisitor.visitArithmetic.
    tc_frame ltac:(first [apply IHe1 | apply IHe2]).
  - unfold Examen.TypeCheckVisitor.visitRelational.
    tc_frame ltac:(first [apply IHe1 | apply IHe2]).
  - unfold Examen.TypeCheckVisitor.visitLogical.
    tc_frame ltac:(first [apply IHe1 | apply IHe2]).
  - unfold Examen.TypeCheckVisitor.visitArrayAccess, Examen.TypeCheckVisitor.visitIndexed.
    tc_frame ltac:(first [apply IHe | apply examen_visitIdent_checksOnly]).
  - unfold Examen.TypeCheckVisitor.visitValue. tc_frame fail.
  - unfold Examen.TypeCheckVisitor.visitExprIdent.
    tc_frame ltac:(apply examen_visitIdent_checksOnly).
Qed.

Lemma examen_visitLeft_expr_checksOnly left_expr v w :
  checksOnly v w →
  checksOnly v (Examen.TypeCheckVisitor.visitLeft_expr
                  Examen.TypeCheckVisitor.visit_expr left_expr w).
Proof.
  intros Hw.
  unfold Examen.TypeCheckVisitor.visitLeft_expr, Examen.TypeCheckVisitor.visitIndexed.
  tc_frame ltac:(first [ apply examen_visit_expr_checksOnly
                       | apply examen_visitIdent_checksOnly ]).
Qed.

Lemma examen_visitStatements_checksOnly visit statements v :
  Forall (λ s, ∀ w, checksOnly v w → checksOnly v (visit s w))
    (statements_statement statements) →
  ∀ w, checksOnly v w →
       checksOnly v (Examen.TypeCheckVisitor.visitStatements visit statements w).
Proof. apply fold_left_visit_checksOnly. Qed.

Lemma examen_visit_statement_checksOnly s :
  ∀ v w, checksOnly v w → checksOnly v (Examen.TypeCheckVisitor.visit_statement s w).
Proof.
  induction s as [ctx left_expr expr|ctx expr s0 s1 IH0 IH1|ctx expr s0 IH0
                 |ctx fc|ctx left_expr|ctx expr|ctx str|ctx expr]
    using StatementContext_ind';
    intros v w Hw; cbn [Examen.TypeCheckVisitor.visit_statement].
  - unfold Examen.TypeCheckVisitor.visitAssignStmt.
    tc_frame ltac:(first [ apply examen_visit_expr_checksOnly
                         | apply examen_visitLeft_expr_checksOnly ]).
  - unfold Examen.TypeCheckVisitor.visitIfStmt.
    destruct s1 as [s1|].
    + specialize (IH1 s1 eq_refl).
      apply examen_visitStatements_checksOnly;
        [eapply Forall_impl; [exact IH1|]; cbn; intros; eauto|].
      apply examen_visitStatements_checksOnly;
        [eapply Forall_impl; [exact IH0|]; cbn; intros; eauto|].
      tc_frame ltac:(apply examen_visit_expr_checksOnly).
    + apply examen_visitStatements_checksOnly;
        [eapply Forall_impl; [exact IH0|]; cbn; intros; eauto|].
      tc_frame ltac:(apply examen_visit_expr_checksOnly).
  - unfold Examen.TypeCheckVisitor.visitWhileStmt.
    apply examen_visitStatements_checksOnly;
      [eapply Forall_impl; [exact IH0|]; cbn; intros; eauto|].
    tc_frame ltac:(apply examen_visit_expr_checksOnly).
  - unfold Examen.TypeCheckVisitor.visitProcCall.
    apply examen_visitFunction_call_checksOnly; [|done].
    apply Forall_forall. intros. by apply examen_visit_expr_checksOnly.
  - unfold Examen.TypeCheckVisitor.visitReadStmt.
    tc_frame ltac:(apply examen_visitLeft_expr_checksOnly).
  - unfold Examen.TypeCheckVisitor.visitWriteExpr.
    tc_frame ltac:(apply examen_visit_expr_checksOnly).
  - done.
  - unfold Examen.TypeCheckVisitor.visitReturnStmt.
    tc_frame ltac:(apply examen_visit_expr_checksOnly).
Qed.

End TypeCheckFrame.

Section TypeCheckProgram.
Import TypesMgr TypeCheck AslParser Spec.
Import Properties.

Lemma examen_typecheck_visitFunction_checksOnly ctx v :
  checksOnly v (Examen.TypeCheckVisitor.visitFunction ctx v).
Proof.
  unfold Examen.TypeCheckVisitor.visitFunction.
  set (v0 := setCurrentFunctionTy _ _).
  assert (checksOnly v0 (Examen.TypeCheckVisitor.visitStatements
                           Examen.TypeCheckVisitor.visit_statement
                           (function_statements ctx) v0)) as (HS & HD & HE).
  { apply examen_visitStatements_checksOnly; [|apply checksOnly_refl].
    apply Forall_forall. intros s _ w. apply examen_visit_statement_checksOnly. }
  unfold checksOnly. cbn [tc_Symbols tc_Decorations tc_Errors withSymbols].
  rewrite HS, HD. split_and!; [|done|exact HE].
  subst v0. cbn. apply popScope_pushThisScope.
Qed.

(** X10.  The type check of a program (2021 exam) never drops or reorders
    an error that was already reported: the errors before are a prefix of
    the errors after.  It leaves the symbol table as it found it, and it
    changes no scope decoration. *)
Theorem examen_typecheck_checks_only ctx v :
  let v' := Examen.TypeCheckVisitor.visitProgram ctx v in
  tc_Symbols v' = tc_Symbols v
  ∧ getScope (tc_Decorations v') = getScope (tc_Decorations v)
  ∧ tc_Errors v `prefix_of` tc_Errors v'.
Proof.
  unfold Examen.TypeCheckVisitor.visitProgram.
  set (v0 := withSymbols _ v).
  assert (∀ l w, checksOnly v0 w →
            checksOnly v0 (fold_left (λ v ctxFunc,
                             Examen.TypeCheckVisitor.visitFunction ctxFunc v) l w))
    as Hfold.
  { induction l as [|f l IH]; intros w Hw; cbn [fold_left]; [done|].
    apply IH. eapply checksOnly_trans; [exact Hw|].
    apply examen_typecheck_visitFunction_checksOnly. }
  specialize (Hfold (program_function ctx) v0 (checksOnly_refl v0)).
  set (v1 := fold_left _ _ v0) in *.
  assert (checksOnly v0 (errorIf (SymTable.noMainProperlyDeclared (tc_Symbols v1))
                           SemErrors.noMainProperlyDeclared
                           (AtNode (program_ctx ctx)) v1)) as (HS & HD & HE)
    by (by apply checksOnly_errorIf).
  cbn [tc_Symbols tc_Decorations tc_Errors withSymbols].
  rewrite HS, HD. split_and!; [|done|exact HE].
  subst v0. cbn. apply popScope_pushThisScope.
Qed.

Lemma examen_checkParameters_errors ctx tFunc exprs :
  ∀ i v,
    let v' := Examen.TypeCheckVisitor.checkParameters ctx tFunc i exprs v in
    tc_Errors v' = tc_Errors v
                   ++ incompatibleParameters ctx tFunc (tc_Decorations v) i exprs
    ∧ tc_Decorations v' = tc_Decorations v.
Proof.
  induction exprs as [|e exprs IH]; intros i v;
    cbn [Examen.TypeCheckVisitor.checkParameters].
  - cbn. by rewrite app_nil_r.
  - cbn zeta. destruct (IH (S i) (errorIf
        (negb (isErrorTy (getTypeDecor (Examen.exprCtx e) v))
         && negb (copyableTypes (getParameterType tFunc i)
                    (getTypeDecor (Examen.exprCtx e) v)))
        (λ p, SemErrors.incompatibleParameter p (i + 1) ctx)
        (AtNode (Examen.exprCtx e)) v)) as [HE HD].
    rewrite HE, HD, errorIf_Errors, errorIf_Decorations. split; [|done].
    unfold incompatibleParameters. rewrite imap_cons. cbn [concat].
    rewrite Nat.add_0_r. unfold getTypeDecor.
    rewrite (imap_ext _ ((λ k e0,
            let tExpr := getType (tc_Decorations v) (Examen.exprCtx e0) in
            if negb (isErrorTy tExpr)
               && negb (copyableTypes (getParameterType tFunc (i + k)) tExpr)
            then [ {| errKind := IncompatibleParameter (i + k + 1) ctx;
                      errPlace := AtNode (Examen.exprCtx e0) |} ]
            else []) ∘ S) exprs).
    2:{ intros k x _. cbn. by replace (i + S k) with (S (i + k)) by lia. }
    destruct (_ && _); cbn; [|done].
    unfold SemErrors.incompatibleParameter, SemErrors.report.
    by rewrite <- app_assoc.
Qed.

(** X11.  A call whose callee has a function type, in the type check of
    the 2021 exam.  After the identifier and all the arguments are
    visited, the call reports: when the number of arguments differs from
    the number of parameters, NumberOfParameters at the identifier and
    nothing about the arguments; when the two agree, one
    IncompatibleParameter for each argument, in order, whose type is
    neither ErrorTy nor copyable to the type of its parameter, with the
    position counted from 1. *)
Theorem examen_call_argument_checks ctx v :
  let ident := function_call_ident ctx in
  let v0 := Examen.TypeCheckVisitor.visitIdent ident v in
  let tFunc := getTypeDecor (ident_ctx ident) v0 in
  let args := function_call_expr ctx in
  let v1 := fold_left (λ v e, Examen.TypeCheckVisitor.visit_expr e v) args v0 in
  let D := TreeDecoration.putType (function_call_ctx ctx) (getFuncReturnType tFunc)
             (tc_Decorations v1) in
  isFunctionTy tFunc = true →
  tc_Errors (Examen.TypeCheckVisitor.visitFunction_call
               Examen.TypeCheckVisitor.visit_expr ctx v)
  = tc_Errors v1
    ++ (if Nat.eqb (length args) (getNumOfParameters tFunc)
        then incompatibleParameters (function_call_ctx ctx) tFunc D 0 args
        else [ {| errKind := NumberOfParameters; errPlace := AtNode (ident_ctx ident) |} ]).
Proof.
  intros ident v0 tFunc args v1 D Hfun.
  assert (isErrorTy tFunc = false) as Herr by (by destruct tFunc).
  unfold Examen.TypeCheckVisitor.visitFunction_call.
  fold ident v0 tFunc args. rewrite Hfun, Herr. cbn [negb andb errorIf].
  fold v1. destruct (Nat.eqb (length args) (getNumOfParameters tFunc)); cbn [negb].
  - cbn [tc_Errors putIsLValueDecor withDecorations].
    destruct (examen_checkParameters_errors (function_call_ctx ctx) tFunc args 0
                (putTypeDecor (function_call_ctx ctx) (getFuncReturnType tFunc) v1))
      as [HE _].
    cbn zeta in HE. rewrite HE. done.
  - done.
Qed.

Lemma examen_call_argument_checks_witness :
  let call : Function_callContext Examen.ExprContext :=
    {| function_call_ctx := 2;
       function_call_ident := identAt3 "f";
       function_call_expr :=
         [ Examen.Value 4 (BOOLVAL "true") ] |} in
  tc_Errors (Examen.TypeCheckVisitor.visitFunction_call
               Examen.TypeCheckVisitor.visit_expr call (sampleTC TVoid))
  = [ {| errKind := IncompatibleParameter 1 2; errPlace := AtNode 4 |} ].
Proof.
  exact (examen_call_argument_checks
           {| function_call_ctx := 2;
              function_call_ident := identAt3 "f";
              function_call_expr := [ Examen.Value 4 (BOOLVAL "true") ] |}
           (sampleTC TVoid) eq_refl).
Defined.

End TypeCheckProgram.

(* ================================================================== *)
(** ** The symbols pass: redeclarations *)
(* ================================================================== *)

Section SymbolsErrors.
Import TypesMgr AslParser Spec Examen2022.SymbolsVisitor
  Examen2022.SymbolsVisitor.Returned.
Import Properties.

Lemma redeclared_nil seen : redeclared seen [] = [].
Proof. done. Qed.

Lemma redeclared_cons seen ident p sites :
  redeclared seen ((ident, p) :: sites)
  = (if bool_decide (ident ∈ seen)
     then [ {| errKind := DeclaredIdent; errPlace := p |} ] else [])
    ++ redeclared (seen ++ [ident]) sites.
Proof.
  unfold redeclared. rewrite imap_cons. cbn [concat fst snd fmap list_fmap take].
  rewrite app_nil_r. f_equal. f_equal. apply imap_ext. intros k site _. cbn.
  by rewrite <- app_assoc.
Qed.

Lemma redeclared_app seen l1 l2 :
  redeclared seen (l1 ++ l2)
  = redeclared seen l1 ++ redeclared (seen ++ l1.*1) l2.
Proof.
  revert seen. induction l1 as [|[ident p] l1 IH]; intros seen.
  - cbn. by rewrite app_nil_r.
  - cbn [app]. rewrite !redeclared_cons, IH, <- !app_assoc. done.
Qed.

Lemma redeclared_none seen sites :
  redeclared seen sites = []
  ↔ NoDup (sites.*1) ∧ ∀ ident, ident ∈ sites.*1 → ident ∉ seen.
Proof.
  revert seen. induction sites as [|[ident p] sites IH]; intros seen.
  - cbn. split; [|done]. intros _. split; [constructor|].
    intros x Hx. by apply elem_of_nil in Hx.
  - rewrite redeclared_cons. cbn [fmap list_fmap fst].
    rewrite NoDup_cons. split.
    + intros H. apply app_eq_nil in H as [H1 H2].
      case_bool_decide as Hin; [done|]. apply IH in H2 as [Hnd Hfresh].
      split_and!; [|done|].
      * intros Hd. apply (Hfresh ident Hd), elem_of_app. right.
        by apply list_elem_of_singleton.
      * intros x Hx. apply elem_of_cons in Hx as [->|Hx]; [done|].
        intros Hs. apply (Hfresh x Hx), elem_of_app. by left.
    + intros [[Hni Hnd] Hfresh].
      rewrite bool_decide_eq_false_2
        by (apply Hfresh, elem_of_cons; by left).
      cbn. apply IH. split; [done|]. intros x Hx Hs.
      apply elem_of_app in Hs as [Hs|Hs].
      * apply (Hfresh x); [apply elem_of_cons; by right|done].
      * apply list_elem_of_singleton in Hs. by subst.
Qed.

Lemma currentScopeHolds_declare cls ident t Sy top rest seen :
  currentScopeHolds top rest seen Sy →
  SymTable.findInCurrentScope ident Sy = bool_decide (ident ∈ seen)
  ∧ currentScopeHolds top rest (seen ++ [ident])
      (if SymTable.findInCurrentScope ident Sy then Sy
       else SymTable.addSymbol cls ident t Sy).
Proof.
  intros (Hst & Htop & Hseen). split.
  - rewrite (findInCurrentScope_top _ _ _ _ Hst). apply bool_decide_ext, Hseen.
  - assert (extendsTop Sy (if SymTable.findInCurrentScope ident Sy then Sy
                           else SymTable.addSymbol cls ident t Sy)) as (Hs & Hl & _ & _).
    { destruct (SymTable.findInCurrentScope _ _);
        [apply extendsTop_refl | apply addSymbol_extendsTop]. }
    split_and!; [congruence|lia|]. intros ident'.
    rewrite (guarded_addSymbol_lookup _ _ _ _ top rest) by done.
    rewrite elem_of_app, list_elem_of_singleton, <- Hseen. cbn.
    destruct (SymTable.lookupIn top ident' Sy) as [x|].
    + cbn. split; [by left; eexists|by eexists].
    + cbn. destruct (decide (ident = ident')) as [->|Hne].
      * split; [by right|by eexists].
      * split; [by intros [? [=]]|]. intros [[? [=]]|?]. by subst.
Qed.

Lemma visitType_Errors t v : sv_Errors (visitType t v) = sv_Errors v.
Proof.
  unfold visitType, visitBasic_type.
  by destruct (type_shape t), (basic_kind (type_basic_type t)).
Qed.

Lemma visitParameters_errors params :
  ∀ acc v top rest seen,
    currentScopeHolds top rest seen (sv_Symbols v) →
    let v' := snd (visitParameters params acc v) in
    sv_Errors v' = sv_Errors v ++ redeclared seen (parameterSites params)
    ∧ currentScopeHolds top rest (seen ++ map parameter_ID params) (sv_Symbols v').
Proof.
  induction params as [|p params IH]; intros acc v top rest seen Hinv;
    cbn [visitParameters parameterSites map].
  - cbn. by rewrite !app_nil_r.
  - destruct (currentScopeHolds_declare ParameterClass (parameter_ID p)
                (typeOfType (parameter_type p)) _ _ _ _ Hinv) as [Hfind Hinv'].
    assert (sv_Symbols (visitParameter p v)
            = (if SymTable.findInCurrentScope (parameter_ID p) (sv_Symbols v)
               then sv_Symbols v
               else SymTable.addSymbol ParameterClass (parameter_ID p)
                      (typeOfType (parameter_type p)) (sv_Symbols v))
            ∧ sv_Errors (visitParameter p v)
              = sv_Errors v ++ (if SymTable.findInCurrentScope (parameter_ID p) (sv_Symbols v)
                                then [ {| errKind := DeclaredIdent;
                                          errPlace := AtToken (parameter_ctx p) tID |} ]
                                else [])) as [HS HE].
    { unfold visitParameter. destruct (SymTable.findInCurrentScope _ _); cbn.
      - done.
      - by rewrite visitType_Symbols, visitType_type, visitType_Errors, app_nil_r. }
    rewrite <- HS in Hinv'.
    destruct (IH (acc ++ [getTypeDecor (parameter_ctx p) (visitParameter p v)])
                (visitParameter p v) top rest _ Hinv') as [HE' Hinv''].
    cbn zeta in HE', Hinv''. split.
    + rewrite HE', HE, Hfind. fold (parameterSites params).
      by rewrite redeclared_cons, <- !app_assoc.
    + by rewrite <- app_assoc in Hinv''.
Qed.

Lemma declareIds_errors ctx t1 ids :
  ∀ i v top rest seen,
    currentScopeHolds top rest seen (sv_Symbols v) →
    let v' := declareIds ctx t1 i ids v in
    sv_Errors v' = sv_Errors v ++ redeclared seen (idSites ctx i ids)
    ∧ currentScopeHolds top rest (seen ++ ids) (sv_Symbols v').
Proof.
  induction ids as [|ident ids IH]; intros i v top rest seen Hinv; cbn [declareIds].
  - cbn. by rewrite !app_nil_r.
  - destruct (currentScopeHolds_declare LocalVarClass ident t1 _ _ _ _ Hinv)
      as [Hfind Hinv'].
    set (v1 := if SymTable.findInCurrentScope ident (sv_Symbols v) then _ else _).
    assert (sv_Symbols v1
            = (if SymTable.findInCurrentScope ident (sv_Symbols v) then sv_Symbols v
               else SymTable.addSymbol LocalVarClass ident t1 (sv_Symbols v))
            ∧ sv_Errors v1
              = sv_Errors v ++ (if SymTable.findInCurrentScope ident (sv_Symbols v)
                                then [ {| errKind := DeclaredIdent;
                                          errPlace := AtToken ctx (tIDi i) |} ]
                                else [])) as [HS HE].
    { subst v1. destruct (SymTable.findInCurrentScope _ _); cbn; [done|].
      by rewrite app_nil_r. }
    rewrite <- HS in Hinv'.
    destruct (IH (S i) v1 top rest _ Hinv') as [HE' Hinv''].
    cbn zeta in HE', Hinv''. split.
    + rewrite HE', HE, Hfind. unfold idSites. rewrite imap_cons, Nat.add_0_r.
      rewrite redeclared_cons, <- !app_assoc. do 3 f_equal.
      apply imap_ext. intros j x _. cbn. do 3 f_equal. lia.
    + by rewrite <- app_assoc in Hinv''.
Qed.

Lemma idSites_names ctx ids : ∀ i, (idSites ctx i ids).*1 = ids.
Proof.
  induction ids as [|x xs IH]; intros i; [done|].
  unfold idSites. rewrite imap_cons. cbn. f_equal.
  rewrite <- (IH (S i)) at 2. unfold idSites. f_equal.
  apply imap_ext. intros j y _. cbn. do 3 f_equal. lia.
Qed.

Lemma visitDeclarations_errors ds :
  ∀ v top rest seen,
    currentScopeHolds top rest seen (sv_Symbols v) →
    let v' := visitDeclarations ds v in
    sv_Errors v' = sv_Errors v
                   ++ redeclared seen (localSites (declarations_variable_decl ds)).
Proof.
  unfold visitDeclarations.
  induction (declarations_variable_decl ds) as [|d l IH]; intros v top rest seen Hinv;
    cbn [fold_left].
  - cbn. by rewrite app_nil_r.
  - cbn zeta. unfold visitVariable_decl at 2.
    assert (currentScopeHolds top rest seen
              (sv_Symbols (visitType (variable_decl_type d) v))) as Hinv0
      by (by rewrite visitType_Symbols).
    destruct (declareIds_errors (variable_decl_ctx d)
                (getTypeDecor (type_ctx (variable_decl_type d))
                   (visitType (variable_decl_type d) v))
                (variable_decl_ID d) 0 _ top rest seen Hinv0) as [HE Hinv'].
    cbn zeta in HE, Hinv'.
    rewrite (IH _ top rest _ Hinv'). unfold visitVariable_decl. rewrite HE.
    rewrite visitType_Errors, <- app_assoc. f_equal.
    unfold localSites. cbn [map concat]. rewrite redeclared_app.
    by rewrite idSites_names.
Qed.

Section Function.
Context {Stmts : Type}.
Implicit Types ctx : FunctionContext Stmts.

Lemma visitFunction_scope_errors ctx v :
  sv_Errors (snd (visitFunction_scope ctx v))
  = sv_Errors v ++ redeclared [] (declarationSites ctx).
Proof.
  unfold visitFunction_scope.
  destruct (pushNewScope_spec (function_ID ctx) v)
    as (Hsc & Hst & Hlen & _ & Hempty & _ & HE0).
  destruct (pushNewScope (function_ID ctx) v) as [sc v0]. cbn [fst snd] in *.
  set (va := putScopeDecor (function_ctx ctx) sc v0).
  assert (currentScopeHolds sc (stack (sv_Symbols v)) [] (sv_Symbols va)) as Hinv.
  { subst va sc. cbn. split_and!; [done|lia|]. intros ident. rewrite Hempty.
    split; [by intros [? [=]]|]. intros Hin. by apply elem_of_nil in Hin. }
  destruct (visitParameters_errors (function_parameter ctx) [] va _ _ _ Hinv)
    as [HEp Hinv'].
  destruct (visitParameters (function_parameter ctx) [] va) as [lParamsTy vb].
  cbn [fst snd] in *.
  pose proof (visitDeclarations_errors (function_declarations ctx) vb _ _ _ Hinv')
    as HEd.
  cbn zeta in HEd. cbn [snd sv_Errors withSymbols].
  rewrite HEd, HEp. subst va. cbn [sv_Errors putScopeDecor withDecorations].
  rewrite HE0, <- app_assoc. f_equal. unfold declarationSites.
  rewrite redeclared_app. do 2 f_equal. cbn. unfold parameterSites.
  rewrite <- list_fmap_compose. done.
Qed.

Lemma visitFunction_errors ctx v top rest seen :
  currentScopeHolds top rest seen (sv_Symbols v) →
  sv_Errors (visitFunction ctx v)
  = sv_Errors v ++ redeclared [] (declarationSites ctx)
    ++ (if bool_decide (function_ID ctx ∈ seen)
        then [ {| errKind := DeclaredIdent; errPlace := AtToken (function_ctx ctx) tID |} ]
        else [])
  ∧ currentScopeHolds top rest (seen ++ [function_ID ctx])
      (sv_Symbols (visitFunction ctx v)).
Proof.
  intros (Hst & Htop & Hseen). unfold visitFunction.
  pose proof (visitFunction_scope_errors ctx v) as HE.
  destruct (visitFunction_scope_spec ctx v) as (Hst1 & Hlen1 & Hold & _).
  destruct (visitFunction_scope ctx v) as [lParamsTy v1]. cbn [fst snd] in *.
  assert (currentScopeHolds top rest seen (sv_Symbols v1)) as Hinv.
  { split_and!; [congruence|lia|]. intros ident.
    rewrite (lookupIn_scopes top ident (sv_Symbols v) (sv_Symbols v1)) by (apply Hold; lia).
    apply Hseen. }
  set (tFunc := createFunctionTy lParamsTy
                  match function_basic_type ctx with
                  | Some b => typeOfBasic b
                  | None => createVoidTy
                  end).
  destruct (currentScopeHolds_declare FunctionClass (function_ID ctx) tFunc _ _ _ _ Hinv)
    as [Hfind Hinv'].
  rewrite Hfind in *. case_bool_decide.
  - cbn [sv_Errors sv_Symbols withErrors]. split; [|done].
    unfold SemErrors.declaredIdent, SemErrors.report. rewrite HE, <- app_assoc. done.
  - destruct (function_basic_type ctx) as [b|];
      cbn [sv_Errors sv_Symbols withSymbols putTypeDecor withDecorations].
    + rewrite visitBasic_type_type, visitBasic_type_Symbols.
      split; [|exact Hinv'].
      unfold visitBasic_type. rewrite app_nil_r.
      by destruct (basic_kind b).
    + split; [|exact Hinv']. by rewrite app_nil_r.
Qed.

Lemma visitFunctions_errors (fs : list (FunctionContext Stmts)) :
  ∀ v top rest seen,
    currentScopeHolds top rest seen (sv_Symbols v) →
    sv_Errors (fold_left (λ v ctxFunc, visitFunction ctxFunc v) fs v)
    = sv_Errors v
      ++ concat (imap (λ k f,
           redeclared [] (declarationSites f)
           ++ (if bool_decide (function_ID f ∈ seen ++ take k (map function_ID fs))
               then [ {| errKind := DeclaredIdent;
                         errPlace := AtToken (function_ctx f) tID |} ]
               else [])) fs).
Proof.
  induction fs as [|f fs IH]; intros v top rest seen Hinv; cbn [fold_left].
  - cbn. by rewrite app_nil_r.
  - destruct (visitFunction_errors f v top rest seen Hinv) as [HE Hinv'].
    rewrite (IH _ top rest _ Hinv'), HE, imap_cons. cbn [concat take map].
    rewrite !app_nil_r, <- !app_assoc. do 4 f_equal.
    apply imap_ext. intros k g _. cbn. by rewrite <- app_assoc.
Qed.

Lemma symbols_visitProgram_errors (ctx : ProgramContext Stmts) v :
  sv_Errors (visitProgram ctx v) = sv_Errors v ++ symbolsErrors (program_function ctx).
Proof.
  unfold visitProgram.
  destruct (pushNewScope_spec SymTable.GLOBAL_SCOPE_NAME v)
    as (Hsc & Hst & Hlen & _ & Hempty & _ & HE0).
  destruct (pushNewScope SymTable.GLOBAL_SCOPE_NAME v) as [sc v0]. cbn [fst snd] in *.
  set (va := putScopeDecor (program_ctx ctx) sc v0).
  assert (currentScopeHolds sc (stack (sv_Symbols v)) [] (sv_Symbols va)) as Hinv.
  { subst va sc. cbn. split_and!; [done|lia|]. intros ident. rewrite Hempty.
    split; [by intros [? [=]]|]. intros Hin. by apply elem_of_nil in Hin. }
  cbn [sv_Errors withSymbols].
  rewrite (visitFunctions_errors _ _ _ _ _ Hinv). subst va. cbn. by rewrite HE0.
Qed.

Lemma symbolsErrors_none (fs : list (FunctionContext Stmts)) :
  symbolsErrors fs = []
  ↔ NoDup (map function_ID fs) ∧ Forall (λ f, NoDup ((declarationSites f).*1)) fs.
Proof.
  unfold symbolsErrors.
  assert (∀ seen,
    concat (imap (λ k f,
      redeclared [] (declarationSites f)
      ++ (if bool_decide (function_ID f ∈ seen ++ take k (map function_ID fs))
          then [ {| errKind := DeclaredIdent; errPlace := AtToken (function_ctx f) tID |} ]
          else [])) fs) = []
    ↔ (NoDup (map function_ID fs) ∧ ∀ x, x ∈ map function_ID fs → x ∉ seen)
      ∧ Forall (λ f, NoDup ((declarationSites f).*1)) fs) as Hgen.
  { induction fs as [|f fs IH]; intros seen.
    - cbn. split; [|done]. intros _. split_and!; [constructor| |constructor].
      intros x Hx. by apply elem_of_nil in Hx.
    - rewrite imap_cons. cbn [concat take map]. rewrite app_nil_r.
      rewrite (imap_ext _ (λ k g,
        redeclared [] (declarationSites g)
        ++ (if bool_decide (function_ID g ∈ (seen ++ [function_ID f])
                                           ++ take k (map function_ID fs))
            then [ {| errKind := DeclaredIdent;
                      errPlace := AtToken (function_ctx g) tID |} ]
            else [])) fs)
        by (intros k g _; cbn; by rewrite <- app_assoc).
      rewrite Forall_cons, NoDup_cons. split.
      + intros H. apply app_eq_nil in H as [H1 H2].
        apply app_eq_nil in H1 as [H1 H1'].
        apply redeclared_none in H1 as [Hnd _].
        case_bool_decide as Hin; [done|].
        apply IH in H2 as [[Hnd' Hfresh] Hall].
        split_and!; [| done | | done | done].
        * intros Hd. apply (Hfresh _ Hd), elem_of_app. right.
          by apply list_elem_of_singleton.
        * intros x Hx. apply elem_of_cons in Hx as [->|Hx]; [done|].
          intros Hs. apply (Hfresh x Hx), elem_of_app. by left.
      + intros [[[Hni Hnd] Hfresh] [Hf Hall]].
        rewrite bool_decide_eq_false_2
          by (apply Hfresh, elem_of_cons; by left).
        rewrite app_nil_r.
        assert (redeclared [] (declarationSites f) = []) as ->.
        { apply redeclared_none. split; [done|]. intros x _ Hx.
          by apply elem_of_nil in Hx. }
        cbn. apply IH. split_and!; [done| |done]. intros x Hx Hs.
        apply elem_of_app in Hs as [Hs|Hs].
        * apply (Hfresh x); [apply elem_of_cons; by right|done].
        * apply list_elem_of_singleton in Hs. by subst. }
  specialize (Hgen []). cbn [app] in Hgen. rewrite Hgen. split.
  - intros [[? _] ?]. done.
  - intros [? ?]. split_and!; [done| |done]. intros x _ Hx. by apply elem_of_nil in Hx.
Qed.

Lemma returned_silent_iff_distinct (ctx : ProgramContext Stmts) v :
  sv_Errors (visitProgram ctx v) = sv_Errors v
  ↔ NoDup (map function_ID (program_function ctx))
    ∧ Forall (λ f, NoDup ((declarationSites f).*1)) (program_function ctx).
Proof.
  rewrite symbols_visitProgram_errors, <- symbolsErrors_none.
  split; [|by intros ->; rewrite app_nil_r].
  intros H. apply (app_inv_head (sv_Errors v)). by rewrite app_nil_r.
Qed.

End Function.

End SymbolsErrors.

Section SymbolsPassErrors.
Import TypesMgr AslParser Spec Examen2022.SymbolsVisitor.
Import Properties.

(** X12.  The errors the symbols pass (2022 exam) has reported when the
    visit of a program returns are the errors of entry and then, for
    every function in source order: a DeclaredIdent for each parameter or
    local variable whose name is declared earlier in the same function,
    at the token of the later declaration, and then a DeclaredIdent at
    the name of the function when an earlier function of the program has
    that name.  Nothing else is reported, and the names of the enclosing
    scopes play no part.  The visit returns whenever the array and matrix
    sizes of the program are at most INT_MAX. *)
Theorem symbols_pass_reports_redeclarations {Stmts} (ctx : ProgramContext Stmts) v :
  (∀ a v', visitProgram ctx v = Returns a v' →
           sv_Errors v' = sv_Errors v ++ symbolsErrors (program_function ctx))
  ∧ (programFits ctx → ∃ v', visitProgram ctx v = Returns tt v').
Proof.
  split.
  - intros a v' Hv'. apply visitProgram_returned in Hv' as ->.
    apply symbols_visitProgram_errors.
  - intros Hfit. eexists. by apply visitProgram_fits.
Qed.

Lemma symbols_pass_reports_redeclarations_witness :
  programFits sampleProgram
  ∧ ∃ v', visitProgram sampleProgram sampleSV = Returns tt v'
          ∧ sv_Errors v'
            = [ {| errKind := DeclaredIdent; errPlace := AtToken 19 (tIDi 1) |} ].
Proof.
  assert (Hfit : programFits sampleProgram) by (repeat constructor).
  split; [exact Hfit|].
  destruct (symbols_pass_reports_redeclarations sampleProgram sampleSV)
    as [Herrors Hreturns].
  destruct (Hreturns Hfit) as [v' Hv']. exists v'. split; [exact Hv'|].
  exact (Herrors tt v' Hv').
Defined.

(** X13.  When the visit of a program by the symbols pass returns, it
    has reported no error exactly when the names of the functions of the
    program are pairwise distinct and, in every function, the names of
    the parameters and of the local variables are pairwise distinct. *)
Theorem symbols_pass_silent_iff_distinct {Stmts} (ctx : ProgramContext Stmts) v a v' :
  visitProgram ctx v = Returns a v' →
  sv_Errors v' = sv_Errors v
  ↔ NoDup (map function_ID (program_function ctx))
    ∧ Forall (λ f, NoDup ((declarationSites f).*1)) (program_function ctx).
Proof.
  intros Hv'. apply visitProgram_returned in Hv' as ->.
  apply returned_silent_iff_distinct.
Qed.

Lemma symbols_pass_silent_iff_distinct_witness :
  ∃ v', visitProgram (programWithArray 3) sampleSV = Returns tt v'
        ∧ (sv_Errors v' = sv_Errors sampleSV
           ↔ NoDup (map function_ID (program_function (programWithArray 3)))
             ∧ Forall (λ f, NoDup ((declarationSites f).*1))
                 (program_function (programWithArray 3))).
Proof.
  eexists. split; [vm_compute; reflexivity|].
  apply (symbols_pass_silent_iff_distinct (programWithArray 3) sampleSV tt).
  vm_compute. reflexivity.
Defined.

End SymbolsPassErrors.

(* ================================================================== *)
(** ** The practica snapshot: array accesses and calls *)
(* ================================================================== *)

Section PracticaArrays.
Import TypesMgr CodeGen AslParser Spec Practica.
Import Properties.

Lemma practica_ExprContext_ind' (P : ExprContext → Prop) :
  (∀ ctx expr, P expr → P (Parenthesis ctx expr)) →
  (∀ ctx function_call,
     Forall P (function_call_expr function_call) → P (ExprFunc ctx function_call)) →
  (∀ ctx op expr, P expr → P (Unary ctx op expr)) →
  (∀ ctx op expr0 expr1, P expr0 → P expr1 → P (Arithmetic ctx op expr0 expr1)) →
  (∀ ctx op expr0 expr1, P expr0 → P expr1 → P (Relational ctx op expr0 expr1)) →
  (∀ ctx op expr0 expr1, P expr0 → P expr1 → P (Logical ctx op expr0 expr1)) →
  (∀ ctx array, P (ArrayAccess ctx array)) →
  (∀ ctx tk, P (Value ctx tk)) →
  (∀ ctx ident, P (ExprIdent ctx ident)) →
  ∀ e, P e.
Proof.
  intros HPar HFun HUn HAr HRel HLog HArr HVal HId.
  fix IH 1. intros [ctx e|ctx [c i l]|ctx op e|ctx op e0 e1|ctx op e0 e1|ctx op e0 e1
                   |ctx a|ctx tk|ctx i].
  - apply HPar, IH.
  - apply HFun. cbn.
    revert l. fix IHl 1. intros [|x l]; constructor; [apply IH | apply IHl].
  - apply HUn, IH.
  - apply HAr; apply IH.
  - apply HRel; apply IH.
  - apply HLog; apply IH.
  - apply HArr.
  - apply HVal.
  - apply HId.
Qed.

Ltac returns_step :=
  match goal with
  | |- is_Some (Some _) => by eexists
  | |- context [if ?c then _ else _] => destruct c; cbv beta iota
  | |- context [match ?op with NOT => _ | _ => _ end] => destruct op; cbv beta iota
  | |- context [match ?op with MUL => _ | _ => _ end] => destruct op; cbv beta iota
  | |- context [match ?op with EQUAL => _ | _ => _ end] => destruct op; cbv beta iota
  | |- context [match ?op with AND => _ | _ => _ end] => destruct op; cbv beta iota
  | |- context [match ?x with pair _ _ => _ end] =>
      lazymatch x with _ _ => idtac | _ => is_var x end;
      destruct x as [? ?]
  end.

Ltac operand IH v :=
  let H := fresh "H" in
  pose proof (IH v) as H;
  destruct (usesArrayAccess _);
  [ rewrite H; reflexivity
  | destruct H as [[? ?] ->]; cbn [mbind option_bind orb] ].

Lemma practica_lowerArguments_returns
    (visit : ExprContext → CGState → option (CodeAttribs * CGState)) tFunc exprs :
  Forall (λ e, ∀ v, if usesArrayAccess e then visit e v = None
                    else is_Some (visit e v)) exprs →
  ∀ i code pushCode popCode v,
    if existsb usesArrayAccess exprs
    then Practica.CodeGenVisitor.lowerArguments visit tFunc i exprs code pushCode popCode v
         = None
    else is_Some (Practica.CodeGenVisitor.lowerArguments visit tFunc i exprs
                    code pushCode popCode v).
Proof.
  induction 1 as [|e exprs He _ IH]; intros i code pushCode popCode v;
    cbn [existsb Practica.CodeGenVisitor.lowerArguments]; [by eexists|].
  specialize (He v). destruct (usesArrayAccess e); cbn [orb].
  - by rewrite He.
  - destruct He as [[c v1] ->]. cbn [mbind option_bind].
    repeat returns_step; apply IH.
Qed.

Lemma practica_visit_expr_returns e :
  ∀ v, if usesArrayAccess e then Practica.CodeGenVisitor.visit_expr e v = None
       else is_Some (Practica.CodeGenVisitor.visit_expr e v).
Proof.
  induction e as [ctx e IH|ctx fc IH|ctx op e IH|ctx op e0 e1 IH0 IH1
                 |ctx op e0 e1 IH0 IH1|ctx op e0 e1 IH0 IH1|ctx a|ctx tk|ctx i]
    using practica_ExprContext_ind'; intros v;
    cbn [usesArrayAccess Practica.CodeGenVisitor.visit_expr].
  - apply IH.
  - unfold Practica.CodeGenVisitor.visitExprFunc,
      Practica.CodeGenVisitor.visitFunction_call.
    match goal with
    | |- context [Practica.CodeGenVisitor.lowerArguments ?vis ?t ?i ?l ?c ?pu ?po ?w] =>
        pose proof (practica_lowerArguments_returns vis t l IH i c pu po w) as H
    end.
    destruct (existsb usesArrayAccess (function_call_expr fc)).
    + by rewrite H.
    + destruct H as [[[[? ?] ?] ?] ->]. cbn [mbind option_bind].
      repeat returns_step.
  - unfold Practica.CodeGenVisitor.visitUnary. operand IH v. repeat returns_step.
  - unfold Practica.CodeGenVisitor.visitArithmetic. operand IH0 v.
    match goal with |- context [Practica.CodeGenVisitor.visit_expr e1 ?w] =>
      operand IH1 w end.
    repeat returns_step.
  - unfold Practica.CodeGenVisitor.visitRelational. operand IH0 v.
    match goal with |- context [Practica.CodeGenVisitor.visit_expr e1 ?w] =>
      operand IH1 w end.
    repeat returns_step.
  - unfold Practica.CodeGenVisitor.visitLogical. operand IH0 v.
    match goal with |- context [Practica.CodeGenVisitor.visit_expr e1 ?w] =>
      operand IH1 w end.
    repeat returns_step.
  - done.
  - by eexists.
  - by eexists.
Qed.

(** X14.  In the practica snapshot, code generation for an expression
    does not return exactly when the expression has an array access
    somewhere in it (as an operand, under parentheses or in an argument
    of a call); every other expression is compiled, in any state. *)
Theorem practica_expression_aborts_iff_array_access e v :
  Practica.CodeGenVisitor.visit_expr e v = None ↔ usesArrayAccess e = true.
Proof.
  pose proof (practica_visit_expr_returns e v) as H.
  destruct (usesArrayAccess e).
  - done.
  - destruct H as [r ->]. done.
Qed.

End PracticaArrays.

Section PracticaCallArity.
Import TypesMgr TypeCheck AslParser Spec Practica.
Import Properties.

Lemma practica_visitParameters_take
    (visit : ExprContext → TCState → option TCState) exprs :
  ∀ numOfExpr v,
    Practica.TypeCheckVisitor.visitParameters visit numOfExpr exprs v
    = if decide (numOfExpr ≤ length exprs)%nat
      then visitEach visit (take numOfExpr exprs) v
      else None.
Proof.
  induction exprs as [|e exprs IH]; intros [|n] v;
    cbn [Practica.TypeCheckVisitor.visitParameters take visitEach length].
  - done.
  - rewrite decide_False by lia. done.
  - done.
  - destruct (visit e v) as [v1|]; cbn [mbind option_bind].
    + rewrite IH. destruct (decide (n ≤ length exprs)%nat);
        [rewrite decide_True by lia|rewrite decide_False by lia]; done.
    + by destruct (decide _).
Qed.

(** X15.  A call whose callee has a function type with n parameters, in
    the type check of the practica snapshot.  With fewer than n arguments
    the visit does not return.  With n or more it visits the first n
    arguments, in order, after decorating the call with the return type,
    and does nothing else: the arguments beyond the n-th are not visited,
    and neither the number of the arguments nor their types are
    reported. *)
Theorem practica_call_arity_unchecked ctx v :
  let ident := function_call_ident ctx in
  let v0 := Practica.TypeCheckVisitor.visitIdent ident v in
  let tFunc := getTypeDecor (ident_ctx ident) v0 in
  let args := function_call_expr ctx in
  let numOfParams := getNumOfParameters tFunc in
  let v1 := putIsLValueDecor (function_call_ctx ctx)
              (getIsLValueDecor (ident_ctx ident)
                 (putTypeDecor (function_call_ctx ctx) (getFuncReturnType tFunc) v0))
              (putTypeDecor (function_call_ctx ctx) (getFuncReturnType tFunc) v0) in
  isFunctionTy tFunc = true →
  Practica.TypeCheckVisitor.visitFunction_call
    Practica.TypeCheckVisitor.visit_expr ctx v
  = if decide (numOfParams ≤ length args)%nat
    then visitEach Practica.TypeCheckVisitor.visit_expr (take numOfParams args) v1
    else None.
Proof.
  intros ident v0 tFunc args numOfParams v1 Hfun.
  assert (isErrorTy tFunc = false) as Herr by (by destruct tFunc).
  unfold Practica.TypeCheckVisitor.visitFunction_call.
  fold ident v0 tFunc args. rewrite Hfun, Herr. cbn [negb andb errorIf].
  apply practica_visitParameters_take.
Qed.

Lemma practica_call_arity_unchecked_witness :
  (let call : Function_callContext ExprContext :=
     {| function_call_ctx := 2; function_call_ident := identAt3 "f";
        function_call_expr := [] |} in
   Practica.TypeCheckVisitor.visitFunction_call
     Practica.TypeCheckVisitor.visit_expr call (sampleTC TVoid) = None)
  ∧
  (let call : Function_callContext ExprContext :=
     {| function_call_ctx := 2; function_call_ident := identAt3 "f";
        function_call_expr := [ Value 4 (BOOLVAL "true"); Value 5 (INTVAL "1") ] |} in
   ∃ v', Practica.TypeCheckVisitor.visitFunction_call
           Practica.TypeCheckVisitor.visit_expr call (sampleTC TVoid) = Some v'
         ∧ tc_Errors v' = [] ∧ getType (tc_Decorations v') 5 = TError).
Proof.
  split.
  - exact (practica_call_arity_unchecked
             {| function_call_ctx := 2; function_call_ident := identAt3 "f";
                function_call_expr := [] |} (sampleTC TVoid) eq_refl).
  - eexists. split.
    + exact (practica_call_arity_unchecked
               {| function_call_ctx := 2; function_call_ident := identAt3 "f";
                  function_call_expr := [ Value 4 (BOOLVAL "true"); Value 5 (INTVAL "1") ] |}
               (sampleTC TVoid) eq_refl).
    + split; reflexivity.
Defined.

End PracticaCallArity.
